(** * Ambulance dispatch engine of [src/hospital/main.cpp]

    A shallow embedding of the dispatch core of the ambulance fleet
    simulation: the grid router ([findNearestRoadPoint], [findPathOnRoads]),
    the emergency queue with its comparator ([EmergencyCompare]), the
    [Hospital] operations ([receiveEmergency], [dispatchVehicles],
    [updateAfterMovement], [peekAllPending],
    [findNearestAvailableAmbulance]), the per-frame motion step of the
    main loop, and the rest of the main loop up to the drawing: the house
    flags, the form with its text fields and buttons, the activity log and
    the counters of the dashboard.

    Numbers are modelled as the program has them:
    - [float] is IEEE-754 binary32, through the executable specification of
      [SpecFloat] with [prec = 24] and [emax = 128]: every operation is
      rounded to nearest-even on its own, as the build line of the program
      (plain [g++], no fused multiply-add) has it;
    - [int] is [Z].  The only counter that grows without an a-priori bound is
      [nextEmergencyId]; incrementing it at [INT_MAX] is undefined behaviour
      in C++, which [receiveEmergency] reports as [None].  [handledCount]
      stays below it (lemma [handledCount_bounded]);
    - [double] time stamps come from the clock [GetTime()], which yields
      finite readings; they are only ever stored and compared, and are
      modelled by their exact rational value in [Q].

    The [while] loop of [findPathOnRoads] need not terminate; it is given a
    bound on its iterations ([fuel]), and with it every operation that calls
    the router returns an [option].  A result does not depend on the bound
    under which it was obtained (lemma [findPathOnRoads_fuel_mono]).

    The file has the program first, then the vocabulary of the properties
    and a reference implementation of the queue on which the scenarios are
    run, then the properties.  Where the order among equally ranked
    emergencies matters, the queue is the binary heap of libstdc++
    ([std::push_heap], [std::pop_heap]). *)

From Stdlib Require Import ZArith QArith List String Ascii Lia Permutation Sorted.
From Stdlib Require Import Floats.SpecFloat.
From stdpp Require Import base list.

Open Scope Z_scope.

(** ** binary32 arithmetic *)

Definition float := spec_float.

Definition prec : Z := 24.
Definition emax : Z := 128.

Definition fadd : float -> float -> float := SFadd prec emax.
Definition fsub : float -> float -> float := SFsub prec emax.
Definition fmul : float -> float -> float := SFmul prec emax.
Definition fdiv : float -> float -> float := SFdiv prec emax.
Definition fsqrt : float -> float := SFsqrt prec emax.
Definition fopp : float -> float := SFopp.
Definition fabsf : float -> float := SFabs.

(** [a < b], [a > b] and [a <= b] on floats; all three are [false] as soon as
    one side is a NaN. *)
Definition flt (a b : float) : bool := SFltb a b.
Definition fgt (a b : float) : bool := SFltb b a.
Definition fle (a b : float) : bool := SFleb a b.

(** Conversion [int -> float] and literals [m * 2^e]. *)
Definition of_int (z : Z) : float := binary_normalize prec emax z 0 false.
Definition lit (m e : Z) : float := binary_normalize prec emax m e false.

Definition f0 : float := of_int 0.
Definition f1 : float := of_int 1.
Definition f3 : float := of_int 3.
Definition f4 : float := of_int 4.
Definition f150 : float := of_int 150.
(** [0.8f] and [0.4f]: the binary32 values nearest to 4/5 and 2/5. *)
Definition f0_8 : float := lit 13421773 (-24).
Definition f0_4 : float := lit 13421773 (-25).
(** [1e9f] is exactly representable. *)
Definition f1e9 : float := of_int 1000000000.
(** [numeric_limits<float>::max()]. *)
Definition FLT_MAX : float := SFmax_float prec emax.

Definition INT_MAX : Z := 2147483647.

(** ** Types *)

Record Vector2 := mkV { x : float; y : float }.

Inductive Status := IDLE | TO_SCENE | ON_SCENE | RETURNING.

(** [struct Ambulance]; the [color] field only serves the renderer and is
    left out.  The two [id] fields of the source are [amb_id] and [em_id]. *)
Record Ambulance := mkAmbulance {
  amb_id : Z;
  pos : Vector2;
  parkingPos : Vector2;
  speed : float;
  path : list Vector2;
  currentPathIndex : Z;
  busy : bool;
  assignedEmergencyId : Z;
  assignedPatientName : string;
  assignedHouseId : Z;
  status : Status;
  onSceneTimer : float
}.

Record PatientInfo := mkPatient {
  name : string;
  age : Z;
  severity : string;
  desc : string;
  houseNumber : Z
}.

Record Emergency := mkEmergency {
  em_id : Z;
  patient : PatientInfo;
  location : Vector2;
  priority : Z;
  createdAt : Q;
  assignedHospital : Z
}.

(** The road lattice handed to every routing call:
    [startX], [startY], [blockSize], [blocksX], [blocksY]. *)
Record Grid := mkGrid {
  startX : float;
  startY : float;
  blockSize : float;
  blocksX : Z;
  blocksY : Z
}.

(** ** Comparator of the emergency queue *)

Definition Qgtb (a b : Q) : bool := negb (Qle_bool a b).

(** [EmergencyCompare::operator()]: [true] when [a] ranks below [b]. *)
Definition EmergencyCompare (a b : Emergency) : bool :=
  if negb (priority a =? priority b) then priority a >? priority b
  else Qgtb (createdAt a) (createdAt b).

(** ** Pathfinding *)

(** [sqrtf(dx * dx + dy * dy)] with [dx = p.x - q.x], [dy = p.y - q.y]. *)
Definition distance (p q : Vector2) : float :=
  let dx := fsub (x p) (x q) in
  let dy := fsub (y p) (y q) in
  fsqrt (fadd (fmul dx dx) (fmul dy dy)).

Definition inter (g : Grid) (ix iy : Z) : Vector2 :=
  {| x := fadd (startX g) (fmul (of_int ix) (blockSize g));
     y := fadd (startY g) (fmul (of_int iy) (blockSize g)) |}.

(** Body of the double loop of [findNearestRoadPoint]; the state is
    [(minDist, nearest)]. *)
Definition scanIntersection (target : Vector2) (g : Grid) (iy ix : Z)
    (st : float * Vector2) : float * Vector2 :=
  let p := inter g ix iy in
  let d := distance target p in
  if flt d (fst st) then (d, p) else st.

Definition scanRow (target : Vector2) (g : Grid) (st : float * Vector2) (iy : Z)
    : float * Vector2 :=
  fold_left (fun st ix => scanIntersection target g iy ix st)
            (seqZ 0 (blocksX g + 1)) st.

Definition findNearestRoadPoint (target : Vector2) (g : Grid) : Vector2 :=
  snd (fold_left (scanRow target g) (seqZ 0 (blocksY g + 1)) (f1e9, target)).

(** Guard of the [while] loop of [findPathOnRoads]. *)
Definition offRoadTarget (cur e : Vector2) : bool :=
  fgt (fabsf (fsub (x cur) (x e))) f1 || fgt (fabsf (fsub (y cur) (y e))) f1.

(** One iteration: a full cell along X while X is not aligned, else along Y. *)
Definition roadStep (bs : float) (cur e : Vector2) : Vector2 :=
  if fgt (fabsf (fsub (x cur) (x e))) f1 then
    {| x := fadd (x cur) (if flt (x cur) (x e) then bs else fopp bs); y := y cur |}
  else if fgt (fabsf (fsub (y cur) (y e))) f1 then
    {| x := x cur; y := fadd (y cur) (if flt (y cur) (y e) then bs else fopp bs) |}
  else cur.

(** The [while] loop, with [fuel] bounding the number of iterations: [None]
    when the guard still holds after [fuel] iterations. *)
Fixpoint roadLoop (fuel : nat) (bs : float) (e cur : Vector2)
    (path : list Vector2) : option (list Vector2) :=
  if offRoadTarget cur e then
    match fuel with
    | O => None
    | S fuel' =>
        let cur' := roadStep bs cur e in
        roadLoop fuel' bs e cur' (path ++ [cur'])
    end
  else Some path.

Definition findPathOnRoads (fuel : nat) (start end_ : Vector2) (g : Grid)
    : option (list Vector2) :=
  let s := findNearestRoadPoint start g in
  let e := findNearestRoadPoint end_ g in
  match roadLoop fuel (blockSize g) e s [s] with
  | Some path => Some (path ++ [end_])
  | None => None
  end.

(** The map of [main]: a 3 x 3 block lattice of 200-unit cells whose first
    intersection is at (100, 100). *)
Definition cityGrid : Grid :=
  {| startX := of_int 100; startY := of_int 100; blockSize := of_int 200;
     blocksX := 3; blocksY := 3 |}.

Definition pt (a b : Z) : Vector2 := {| x := of_int a; y := of_int b |}.

(** ** The emergency queue

    [std::priority_queue<Emergency, vector<Emergency>, EmergencyCompare>] is
    used by the program through [push], [top], [pop], [empty]/[size] and by
    copying.  The container is library code; what the program relies on is its
    contract, recorded here as an interface: [pq_elements] is the multiset of
    stored emergencies, and [top] is an element that [EmergencyCompare] ranks
    below no other stored element.  Which of several equally ranked elements
    is on top is left open, as it is by the C++ standard. *)

Class PriorityQueue := {
  pq : Type;
  pq_new : pq;
  pq_push : Emergency -> pq -> pq;
  pq_top : pq -> option Emergency;
  pq_pop : pq -> pq;
  pq_size : pq -> nat;
  pq_elements : pq -> list Emergency;
  pq_elements_new : pq_elements pq_new = [];
  pq_size_spec : forall q, pq_size q = length (pq_elements q);
  pq_push_spec : forall e q, pq_elements (pq_push e q) ≡ₚ e :: pq_elements q;
  pq_top_empty : forall q, pq_elements q = [] -> pq_top q = None;
  pq_top_pop_spec : forall q, pq_elements q <> [] ->
    exists e, pq_top q = Some e
      /\ pq_elements q ≡ₚ e :: pq_elements (pq_pop q)
      /\ Forall (fun e' => EmergencyCompare e e' = false) (pq_elements q)
}.

(** A reference implementation used to run the model: an unordered list whose
    best element is selected on demand. *)
Fixpoint extractBest (l : list Emergency) : option (Emergency * list Emergency) :=
  match l with
  | [] => None
  | e :: l' =>
      match extractBest l' with
      | None => Some (e, [])
      | Some (b, rest) =>
          if EmergencyCompare b e then Some (e, b :: rest) else Some (b, e :: rest)
      end
  end.

Definition scan_top (l : list Emergency) : option Emergency :=
  match extractBest l with Some (b, _) => Some b | None => None end.

Definition scan_pop (l : list Emergency) : list Emergency :=
  match extractBest l with Some (_, rest) => rest | None => [] end.

(** *** The binary heap of libstdc++

    [std::priority_queue] keeps its vector [c] as a binary heap: [push] is
    [c.push_back(x)] followed by [std::push_heap], [pop] is [std::pop_heap]
    followed by [c.pop_back()], and [top] is [c.front()].  The algorithms
    below follow [bits/stl_heap.h]; a slot is a position of the vector, and
    the indices, which are never negative, are natural numbers. *)

(** [std::__push_heap(first, holeIndex, topIndex, value, comp)]: the hole
    moves up while the parent ranks below [value].  [n] bounds the
    iterations; each of them lowers [holeIndex]. *)
Fixpoint push_heap_loop (n : nat) (c : list Emergency) (holeIndex topIndex : nat)
    (value : Emergency) : list Emergency :=
  let parent := ((holeIndex - 1) / 2)%nat in
  match n, c !! parent with
  | S n', Some p =>
      if (topIndex <? holeIndex)%nat && EmergencyCompare p value
      then push_heap_loop n' (<[holeIndex := p]> c) parent topIndex value
      else <[holeIndex := value]> c
  | _, _ => <[holeIndex := value]> c
  end.

Definition __push_heap (c : list Emergency) (holeIndex topIndex : nat)
    (value : Emergency) : list Emergency :=
  push_heap_loop holeIndex c holeIndex topIndex value.

(** [std::push_heap(first, last, comp)]: the value of the last slot is
    pushed up from there. *)
Definition push_heap (c : list Emergency) : list Emergency :=
  match last c with
  | Some value => __push_heap c (length c - 1) 0 value
  | None => c
  end.

(** The [while (secondChild < (len - 1) / 2)] loop of [std::__adjust_heap]:
    the hole moves down to the child that does not rank below the other.
    [holeIndex] and [secondChild] are equal at the head of every iteration;
    the result is the vector with the final [secondChild]. *)
Fixpoint adjust_heap_loop (n : nat) (c : list Emergency) (len secondChild : nat)
    : list Emergency * nat :=
  match n with
  | S n' =>
      if (secondChild <? (len - 1) / 2)%nat then
        let right := (2 * (secondChild + 1))%nat in
        match c !! right, c !! (right - 1)%nat with
        | Some r, Some l =>
            if EmergencyCompare r l
            then adjust_heap_loop n' (<[secondChild := l]> c) len (right - 1)
            else adjust_heap_loop n' (<[secondChild := r]> c) len right
        | _, _ => (c, secondChild)
        end
      else (c, secondChild)
  | O => (c, secondChild)
  end.

(** [std::__adjust_heap(first, holeIndex, len, value, comp)]: the loop, the
    case of a last parent with a single child, and [__push_heap] from the
    hole that results. *)
Definition __adjust_heap (c : list Emergency) (holeIndex len : nat) (value : Emergency)
    : list Emergency :=
  let '(c1, secondChild) := adjust_heap_loop len c len holeIndex in
  let '(c2, hole) :=
    if Nat.even len && (secondChild =? (len - 2) / 2)%nat then
      match c1 !! (2 * (secondChild + 1) - 1)%nat with
      | Some l => (<[secondChild := l]> c1, (2 * (secondChild + 1) - 1)%nat)
      | None => (c1, secondChild)
      end
    else (c1, secondChild) in
  __push_heap c2 hole holeIndex value.

(** [std::pop_heap(first, last, comp)]: with more than one element, the
    last slot takes the first element and its former value is placed by
    [__adjust_heap] among the slots before it. *)
Definition pop_heap (c : list Emergency) : list Emergency :=
  if (1 <? length c)%nat then
    match c !! 0%nat, last c with
    | Some first, Some value =>
        __adjust_heap (<[(length c - 1)%nat := first]> c) 0 (length c - 1) value
    | _, _ => c
    end
  else c.

(** [priority_queue::push] and [priority_queue::pop] on the vector. *)
Definition heap_push (e : Emergency) (c : list Emergency) : list Emergency :=
  push_heap (c ++ [e]).

Definition heap_pop (c : list Emergency) : list Emergency :=
  removelast (pop_heap c).

(** ** Hospital *)

Section Hospital.

Context {PQ : PriorityQueue}.

Record Hospital := mkHospital {
  hosp_location : Vector2;
  ambulances : list Ambulance;
  queue_ : pq;
  nextEmergencyId : Z;
  handledCount : Z;
  onSceneDurationSec : float
}.

(** An [Ambulance] as the constructor of [Hospital] sets it up: the default
    member initialisers, then [id], [parkingPos], [pos] and [status]. *)
Definition newAmbulance (aid : Z) (p : Vector2) : Ambulance :=
  {| amb_id := aid; pos := p; parkingPos := p; speed := f150; path := [];
     currentPathIndex := 0; busy := false; assignedEmergencyId := -1;
     assignedPatientName := ""; assignedHouseId := -1; status := IDLE;
     onSceneTimer := f0 |}.

Fixpoint parkAmbulances (aid : Z) (parkingPositions : list Vector2) : list Ambulance :=
  match parkingPositions with
  | [] => []
  | p :: ps => newAmbulance aid p :: parkAmbulances (aid + 1) ps
  end.

(** [Hospital::Hospital(loc, parkingPositions, startAmbId, onSceneDuration)]. *)
Definition Hospital_new (loc : Vector2) (parkingPositions : list Vector2)
    (startAmbId : Z) (onSceneDuration : float) : Hospital :=
  {| hosp_location := loc;
     ambulances := parkAmbulances startAmbId parkingPositions;
     queue_ := pq_new;
     nextEmergencyId := 1;
     handledCount := 0;
     onSceneDurationSec := onSceneDuration |}.

(** [Hospital::receiveEmergency]; [now] is the reading of [GetTime()].
    [None] stands for the undefined [nextEmergencyId++] at [INT_MAX]. *)
Definition receiveEmergency (now : Q) (incoming : Emergency) (h : Hospital)
    : option Hospital :=
  if nextEmergencyId h <? INT_MAX then
    let e := {| em_id := nextEmergencyId h;
                patient := patient incoming;
                location := location incoming;
                priority := priority incoming;
                createdAt := now;
                assignedHospital := assignedHospital incoming |} in
    Some {| hosp_location := hosp_location h;
            ambulances := ambulances h;
            queue_ := pq_push e (queue_ h);
            nextEmergencyId := nextEmergencyId h + 1;
            handledCount := handledCount h;
            onSceneDurationSec := onSceneDurationSec h |}
  else None.

(** The eligibility test [a.status == IDLE && !a.busy]. *)
Definition available (a : Ambulance) : bool :=
  match status a with IDLE => negb (busy a) | _ => false end.

(** Body of the scan of [findNearestAvailableAmbulance]; the state is
    [(best, bestd)], with [None] for [best = -1]. *)
Definition scanAmbulance (target : Vector2) (st : option nat * float) (i : nat)
    (a : Ambulance) : option nat * float :=
  if available a then
    let d := distance (pos a) target in
    if flt d (snd st) then (Some i, d) else st
  else st.

Fixpoint nearestFrom (target : Vector2) (i : nat) (ambs : list Ambulance)
    (st : option nat * float) : option nat * float :=
  match ambs with
  | [] => st
  | a :: rest => nearestFrom target (S i) rest (scanAmbulance target st i a)
  end.

Definition findNearestAvailableAmbulance (target : Vector2) (ambs : list Ambulance)
    : option nat :=
  fst (nearestFrom target 0 ambs (None, FLT_MAX)).

(** The assignments that [dispatchVehicles] makes to a matched ambulance. *)
Definition sendToScene (amb : Ambulance) (route : list Vector2) (em : Emergency)
    : Ambulance :=
  {| amb_id := amb_id amb; pos := pos amb; parkingPos := parkingPos amb;
     speed := speed amb; path := route; currentPathIndex := 0; busy := true;
     assignedEmergencyId := em_id em;
     assignedPatientName := name (patient em);
     assignedHouseId := houseNumber (patient em);
     status := TO_SCENE; onSceneTimer := f0 |}.

(** One iteration of the [while] loop of [dispatchVehicles], after [em] has
    been popped: the state is the roster and the backlog.  [None] when the
    routing call does not return within [fuel] iterations. *)
Definition dispatchOne (fuel : nat) (g : Grid) (em : Emergency)
    (st : list Ambulance * list Emergency) : option (list Ambulance * list Emergency) :=
  let '(ambs, backlog) := st in
  match findNearestAvailableAmbulance (location em) ambs with
  | Some idx =>
      match ambs !! idx with
      | Some amb =>
          match findPathOnRoads fuel (pos amb) (location em) g with
          | Some route => Some (<[idx := sendToScene amb route em]> ambs, backlog)
          | None => None
          end
      | None => Some (ambs, backlog)
      end
  | None => Some (ambs, backlog ++ [em])
  end.

(** The [while (!queue_.empty())] loop; [n] is the number of queued
    emergencies, each iteration pops one. *)
Fixpoint dispatchLoop (fuel : nat) (g : Grid) (n : nat) (q : pq)
    (st : list Ambulance * list Emergency)
    : option (pq * (list Ambulance * list Emergency)) :=
  match n with
  | O => Some (q, st)
  | S n' =>
      match pq_top q with
      | None => Some (q, st)
      | Some em =>
          match dispatchOne fuel g em st with
          | Some st' => dispatchLoop fuel g n' (pq_pop q) st'
          | None => None
          end
      end
  end.

(** [Hospital::dispatchVehicles]. *)
Definition dispatchVehicles (fuel : nat) (g : Grid) (h : Hospital) : option Hospital :=
  if Nat.eqb (pq_size (queue_ h)) 0 then Some h
  else
    match dispatchLoop fuel g (pq_size (queue_ h)) (queue_ h) (ambulances h, []) with
    | Some (q, (ambs, backlog)) =>
        Some {| hosp_location := hosp_location h;
                ambulances := ambs;
                queue_ := fold_left (fun q e => pq_push e q) backlog q;
                nextEmergencyId := nextEmergencyId h;
                handledCount := handledCount h;
                onSceneDurationSec := onSceneDurationSec h |}
    | None => None
    end.

(** The same iterations over an explicit list of popped emergencies; the
    loop above runs them over the queue in popping order
    (lemma [dispatchLoop_pass]). *)
Fixpoint dispatchPass (fuel : nat) (g : Grid) (ems : list Emergency)
    (st : list Ambulance * list Emergency)
    : option (list Ambulance * list Emergency) :=
  match ems with
  | [] => Some st
  | em :: rest =>
      match dispatchOne fuel g em st with
      | Some st' => dispatchPass fuel g rest st'
      | None => None
      end
  end.

(** [Hospital::peekAllPending]: pops a copy of the queue into [out]. *)
Fixpoint peekLoop (n : nat) (copy : pq) (out : list Emergency) : list Emergency :=
  match n with
  | O => out
  | S n' =>
      match pq_top copy with
      | None => out
      | Some e => peekLoop n' (pq_pop copy) (out ++ [e])
      end
  end.

Definition peekAllPending (h : Hospital) : list Emergency :=
  peekLoop (pq_size (queue_ h)) (queue_ h) [].

Definition pendingCount (h : Hospital) : Z := Z.of_nat (pq_size (queue_ h)).
Definition handled (h : Hospital) : Z := handledCount h.

(** *** State machine: [Hospital::updateAfterMovement] *)

Definition arriveOnScene (amb : Ambulance) (idx : Z) (duration : float) : Ambulance :=
  {| amb_id := amb_id amb; pos := pos amb; parkingPos := parkingPos amb;
     speed := speed amb; path := path amb; currentPathIndex := idx;
     busy := busy amb; assignedEmergencyId := assignedEmergencyId amb;
     assignedPatientName := assignedPatientName amb;
     assignedHouseId := assignedHouseId amb;
     status := ON_SCENE; onSceneTimer := duration |}.

Definition setTimer (amb : Ambulance) (t : float) : Ambulance :=
  {| amb_id := amb_id amb; pos := pos amb; parkingPos := parkingPos amb;
     speed := speed amb; path := path amb;
     currentPathIndex := currentPathIndex amb;
     busy := busy amb; assignedEmergencyId := assignedEmergencyId amb;
     assignedPatientName := assignedPatientName amb;
     assignedHouseId := assignedHouseId amb;
     status := status amb; onSceneTimer := t |}.

Definition startReturn (amb : Ambulance) (route : list Vector2) : Ambulance :=
  {| amb_id := amb_id amb; pos := pos amb; parkingPos := parkingPos amb;
     speed := speed amb; path := route; currentPathIndex := 0;
     busy := busy amb; assignedEmergencyId := -1;
     assignedPatientName := ""; assignedHouseId := -1;
     status := RETURNING; onSceneTimer := onSceneTimer amb |}.

Definition parkAtBase (amb : Ambulance) : Ambulance :=
  {| amb_id := amb_id amb; pos := parkingPos amb; parkingPos := parkingPos amb;
     speed := speed amb; path := []; currentPathIndex := 0;
     busy := false; assignedEmergencyId := assignedEmergencyId amb;
     assignedPatientName := assignedPatientName amb;
     assignedHouseId := assignedHouseId amb;
     status := IDLE; onSceneTimer := onSceneTimer amb |}.

Definition pathSize (amb : Ambulance) : Z := Z.of_nat (length (path amb)).

(** Body of the [for] loop of [updateAfterMovement] for one ambulance.  The
    result carries the ambulance and the new [handledCount]; [frameTime] is
    the reading of [GetFrameTime()].  [None] when the routing call of the
    ON_SCENE branch does not return within [fuel] iterations.  ([path.back()]
    on an empty path is undefined; it needs a negative cursor, and the model
    then leaves the ambulance as it is.) *)
Definition updateAmbulance (fuel : nat) (g : Grid) (frameTime duration : float)
    (amb : Ambulance) (handledCnt : Z) : option (Ambulance * Z) :=
  match status amb with
  | TO_SCENE =>
      if currentPathIndex amb >=? pathSize amb then
        Some (arriveOnScene amb (currentPathIndex amb) duration, handledCnt)
      else
        match last (path amb) with
        | Some targ =>
            if flt (distance targ (pos amb)) f4 then
              Some (arriveOnScene amb (pathSize amb) duration, handledCnt)
            else Some (amb, handledCnt)
        | None => Some (amb, handledCnt)
        end
  | ON_SCENE =>
      let amb1 := setTimer amb (fsub (onSceneTimer amb) frameTime) in
      if fle (onSceneTimer amb1) f0 then
        match findPathOnRoads fuel (pos amb1) (parkingPos amb1) g with
        | Some route => Some (startReturn amb1 route, handledCnt + 1)
        | None => None
        end
      else Some (amb1, handledCnt)
  | RETURNING =>
      if flt (distance (parkingPos amb) (pos amb)) f4
         || (currentPathIndex amb >=? pathSize amb)
      then Some (parkAtBase amb, handledCnt)
      else Some (amb, handledCnt)
  | IDLE => Some (amb, handledCnt)
  end.

Fixpoint updateLoop (fuel : nat) (g : Grid) (frameTime duration : float)
    (ambs : list Ambulance) (handledCnt : Z) : option (list Ambulance * Z) :=
  match ambs with
  | [] => Some ([], handledCnt)
  | amb :: rest =>
      match updateAmbulance fuel g frameTime duration amb handledCnt with
      | Some (amb', cnt') =>
          match updateLoop fuel g frameTime duration rest cnt' with
          | Some (rest', cnt'') => Some (amb' :: rest', cnt'')
          | None => None
          end
      | None => None
      end
  end.

Definition updateAfterMovement (fuel : nat) (g : Grid) (frameTime : float)
    (h : Hospital) : option Hospital :=
  match updateLoop fuel g frameTime (onSceneDurationSec h) (ambulances h)
                   (handledCount h) with
  | Some (ambs, cnt) =>
      Some {| hosp_location := hosp_location h;
              ambulances := ambs;
              queue_ := queue_ h;
              nextEmergencyId := nextEmergencyId h;
              handledCount := cnt;
              onSceneDurationSec := onSceneDurationSec h |}
  | None => None
  end.

(** *** Motion integration (the "update ambulances" loop of [main]) *)

Definition setPos (amb : Ambulance) (p : Vector2) : Ambulance :=
  {| amb_id := amb_id amb; pos := p; parkingPos := parkingPos amb;
     speed := speed amb; path := path amb;
     currentPathIndex := currentPathIndex amb;
     busy := busy amb; assignedEmergencyId := assignedEmergencyId amb;
     assignedPatientName := assignedPatientName amb;
     assignedHouseId := assignedHouseId amb;
     status := status amb; onSceneTimer := onSceneTimer amb |}.

Definition setCursor (amb : Ambulance) (idx : Z) : Ambulance :=
  {| amb_id := amb_id amb; pos := pos amb; parkingPos := parkingPos amb;
     speed := speed amb; path := path amb; currentPathIndex := idx;
     busy := busy amb; assignedEmergencyId := assignedEmergencyId amb;
     assignedPatientName := assignedPatientName amb;
     assignedHouseId := assignedHouseId amb;
     status := status amb; onSceneTimer := onSceneTimer amb |}.

(** [path[i]] for an [int] index; a negative index is out of bounds. *)
Definition waypoint (route : list Vector2) (i : Z) : option Vector2 :=
  if i <? 0 then None else route !! Z.to_nat i.

Definition moveAmbulance (dt : float) (amb : Ambulance) : Ambulance :=
  if negb (Nat.eqb (length (path amb)) 0) && (currentPathIndex amb <? pathSize amb) then
    match waypoint (path amb) (currentPathIndex amb) with
    | Some t =>
        let dx := fsub (x t) (x (pos amb)) in
        let dy := fsub (y t) (y (pos amb)) in
        let dist := fsqrt (fadd (fmul dx dx) (fmul dy dy)) in
        if fgt dist f3 then
          let sp := match status amb with
                    | RETURNING => fmul (speed amb) f0_8
                    | _ => speed amb
                    end in
          setPos amb
            {| x := fadd (x (pos amb)) (fmul (fmul (fdiv dx dist) sp) dt);
               y := fadd (y (pos amb)) (fmul (fmul (fdiv dy dist) sp) dt) |}
        else setCursor amb (currentPathIndex amb + 1)
    | None => amb
    end
  else
    match status amb with
    | IDLE =>
        let dx := fsub (x (parkingPos amb)) (x (pos amb)) in
        let dy := fsub (y (parkingPos amb)) (y (pos amb)) in
        let dist := fsqrt (fadd (fmul dx dx) (fmul dy dy)) in
        if fgt dist f1 then
          setPos amb
            {| x := fadd (x (pos amb))
                         (fmul (fmul (fmul (fdiv dx dist) (speed amb)) f0_4) dt);
               y := fadd (y (pos amb))
                         (fmul (fmul (fmul (fdiv dy dist) (speed amb)) f0_4) dt) |}
        else amb
    | _ => amb
    end.

Definition moveAmbulances (dt : float) (h : Hospital) : Hospital :=
  {| hosp_location := hosp_location h;
     ambulances := map (moveAmbulance dt) (ambulances h);
     queue_ := queue_ h;
     nextEmergencyId := nextEmergencyId h;
     handledCount := handledCount h;
     onSceneDurationSec := onSceneDurationSec h |}.

(** One frame of the main loop for a hospital: motion, then
    [dispatchVehicles], then [updateAfterMovement]; [GetFrameTime()] reads
    [dt] throughout the frame. *)
Definition tick (fuel : nat) (g : Grid) (dt : float) (h : Hospital) : option Hospital :=
  match dispatchVehicles fuel g (moveAmbulances dt h) with
  | Some h1 => updateAfterMovement fuel g dt h1
  | None => None
  end.

(** *** Reachable states *)

(** One operation of the program on a hospital. *)
Inductive step : Hospital -> Hospital -> Prop :=
  | step_receive now incoming h h' :
      receiveEmergency now incoming h = Some h' -> step h h'
  | step_move dt h :
      step h (moveAmbulances dt h)
  | step_dispatch fuel g h h' :
      dispatchVehicles fuel g h = Some h' -> step h h'
  | step_update fuel g frameTime h h' :
      updateAfterMovement fuel g frameTime h = Some h' -> step h h'.

(** States reached from a freshly constructed hospital. *)
Inductive reachable : Hospital -> Prop :=
  | reach_new loc parkingPositions startAmbId onSceneDuration :
      reachable (Hospital_new loc parkingPositions startAmbId onSceneDuration)
  | reach_step h h' : reachable h -> step h h' -> reachable h'.

End Hospital.


(** ** The houses, the form and the activity log of [main] *)

(** The constants [2.0f] and [5.0f]. *)
Definition f2 : float := of_int 2.
Definition f5 : float := of_int 5.

(** raylib's [Rectangle]; its fields [x] and [y] are [rect_x] and [rect_y]
    here. *)
Record Rectangle := mkRect {
  rect_x : float;
  rect_y : float;
  width : float;
  height : float
}.

(** [struct House]; [color] and [highlighted] only serve the renderer. *)
Record House := mkHouse {
  body : Rectangle;
  house_id : Z;
  hasEmergency : bool
}.

(** The point in front of a house where its emergencies are located:
    [{hb.x + hb.width / 2, hb.y + hb.height}]. *)
Definition doorstep (hb : Rectangle) : Vector2 :=
  {| x := fadd (rect_x hb) (fdiv (width hb) f2);
     y := fadd (rect_y hb) (height hb) |}.

(** *** The "update house emergency status" loops *)

Definition setEmergency (h : House) (b : bool) : House :=
  {| body := body h; house_id := house_id h; hasEmergency := b |}.

(** [fabsf(center.x - target.x) < 5 && fabsf(center.y - target.y) < 5]. *)
Definition atDoor (h : House) (target : Vector2) : bool :=
  flt (fabsf (fsub (x (doorstep (body h))) (x target))) f5
  && flt (fabsf (fsub (y (doorstep (body h))) (y target))) f5.

(** Body of the innermost loop, for one ambulance and one house. *)
Definition markHouse (amb : Ambulance) (h : House) : House :=
  match last (path amb) with
  | Some target => if atDoor h target then setEmergency h true else h
  | None => h
  end.

(** Body of the loop over the ambulances. *)
Definition markHouses (houses : list House) (amb : Ambulance) : list House :=
  match status amb with
  | TO_SCENE | ON_SCENE => map (markHouse amb) houses
  | _ => houses
  end.

Definition updateHouseFlags (ambs : list Ambulance) (houses : list House) : list House :=
  fold_left markHouses ambs (map (fun h => setEmergency h false) houses).

(** *** Text fields *)

(** [struct TextField], without its screen rectangle. *)
Record TextField := mkField {
  text : string;
  active : bool;
  maxLen : Z;
  errorMsg : string
}.

Definition setText (tf : TextField) (s : string) : TextField :=
  {| text := s; active := active tf; maxLen := maxLen tf; errorMsg := errorMsg tf |}.

Definition setActive (tf : TextField) (b : bool) : TextField :=
  {| text := text tf; active := b; maxLen := maxLen tf; errorMsg := errorMsg tf |}.

Definition setError (tf : TextField) (msg : string) : TextField :=
  {| text := text tf; active := active tf; maxLen := maxLen tf; errorMsg := msg |}.

(** [(int)text.size()]. *)
Definition size (tf : TextField) : Z := Z.of_nat (String.length (text tf)).

Definition isEmpty (tf : TextField) : bool :=
  match text tf with EmptyString => true | _ => false end.

(** [string::push_back] and [string::pop_back]. *)
Fixpoint push_back (s : string) (c : ascii) : string :=
  match s with
  | EmptyString => String c EmptyString
  | String a s' => String a (push_back s' c)
  end.

Fixpoint pop_back (s : string) : string :=
  match s with
  | EmptyString => EmptyString
  | String a EmptyString => EmptyString
  | String a s' => String a (pop_back s')
  end.

(** The character code, and [(char)key] for a key code: the conversion
    keeps the low eight bits. *)
Definition code (c : ascii) : Z := Z.of_N (N_of_ascii c).

Definition toChar (key : Z) : ascii := ascii_of_N (Z.to_N (key mod 256)).

(** [c >= '0' && c <= '9']; signed or not, a [char] passes the test
    exactly when its code is one of 48 to 57. *)
Definition isDigit (c : ascii) : bool := (48 <=? code c) && (code c <=? 57).

Fixpoint allDigits (s : string) : bool :=
  match s with
  | EmptyString => true
  | String c s' => isDigit c && allDigits s'
  end.

(** The number that a string of decimal digits denotes. *)
Fixpoint decimalFrom (acc : Z) (s : string) : Z :=
  match s with
  | EmptyString => acc
  | String c s' => decimalFrom (10 * acc + (code c - 48)) s'
  end.

Definition decimalValue (s : string) : Z := decimalFrom 0 s.

(** [std::stoi] is library code.  [None] stands for a thrown exception; what
    the program relies on is that a non-empty string of at most nine decimal
    digits is converted to the number it denotes. *)
Class StringToInt := {
  stoi : string -> option Z;
  stoi_decimal : forall s,
    s <> EmptyString -> allDigits s = true -> (String.length s <= 9)%nat ->
    stoi s = Some (decimalValue s)
}.

(** A reference implementation, after the definition of [std::stoi] through
    [strtol] in base 10: leading white space, an optional sign, then the
    longest run of digits; no digit or a value outside [int] is an error. *)
Definition isSpace (c : ascii) : bool :=
  (code c =? 32) || ((9 <=? code c) && (code c <=? 13)).

Fixpoint skipSpaces (s : string) : string :=
  match s with
  | EmptyString => s
  | String c s' => if isSpace c then skipSpaces s' else s
  end.

(** The value of the longest prefix of digits, and its length. *)
Fixpoint readDigits (acc : Z) (n : nat) (s : string) : Z * nat :=
  match s with
  | EmptyString => (acc, n)
  | String c s' =>
      if isDigit c then readDigits (10 * acc + (code c - 48)) (S n) s' else (acc, n)
  end.

Definition INT_MIN : Z := -2147483648.

Definition parseInt (s : string) : option Z :=
  let s1 := skipSpaces s in
  let '(negative, s2) :=
    match s1 with
    | String c r =>
        if code c =? 45 then (true, r)
        else if code c =? 43 then (false, r)
        else (false, s1)
    | EmptyString => (false, s1)
    end in
  let '(v, n) := readDigits 0 0 s2 in
  if Nat.eqb n 0 then None
  else
    let r := if negative then - v else v in
    if (INT_MIN <=? r) && (r <=? INT_MAX) then Some r else None.

(** *** The form *)

(** The text fields of the form with [severityIdx] and [activeField]. *)
Record Form := mkForm {
  tfName : TextField;
  tfAge : TextField;
  tfDesc : TextField;
  tfHouse : TextField;
  severityIdx : Z;
  activeField : Z
}.

Definition withName (f : Form) (tf : TextField) : Form :=
  {| tfName := tf; tfAge := tfAge f; tfDesc := tfDesc f; tfHouse := tfHouse f;
     severityIdx := severityIdx f; activeField := activeField f |}.

Definition withAge (f : Form) (tf : TextField) : Form :=
  {| tfName := tfName f; tfAge := tf; tfDesc := tfDesc f; tfHouse := tfHouse f;
     severityIdx := severityIdx f; activeField := activeField f |}.

Definition withDesc (f : Form) (tf : TextField) : Form :=
  {| tfName := tfName f; tfAge := tfAge f; tfDesc := tf; tfHouse := tfHouse f;
     severityIdx := severityIdx f; activeField := activeField f |}.

Definition withHouse (f : Form) (tf : TextField) : Form :=
  {| tfName := tfName f; tfAge := tfAge f; tfDesc := tfDesc f; tfHouse := tf;
     severityIdx := severityIdx f; activeField := activeField f |}.

(** The form as [main] creates it. *)
Definition newField (len : Z) : TextField :=
  {| text := ""; active := false; maxLen := len; errorMsg := "" |}.

Definition Form_new : Form :=
  {| tfName := newField 32; tfAge := newField 4; tfDesc := newField 200;
     tfHouse := newField 6; severityIdx := 0; activeField := -1 |}.

(** Body of the [while ((key = GetCharPressed()) > 0)] loop. *)
Definition typeChar (key : Z) (f : Form) : Form :=
  let c := toChar key in
  if (activeField f =? 0) && (size (tfName f) <? maxLen (tfName f)) then
    withName f (setText (tfName f) (push_back (text (tfName f)) c))
  else if (activeField f =? 1) && (size (tfAge f) <? maxLen (tfAge f)) then
    if isDigit c then withAge f (setText (tfAge f) (push_back (text (tfAge f)) c))
    else f
  else if (activeField f =? 2) && (size (tfDesc f) <? maxLen (tfDesc f)) then
    withDesc f (setText (tfDesc f) (push_back (text (tfDesc f)) c))
  else if (activeField f =? 3) && (size (tfHouse f) <? maxLen (tfHouse f)) then
    if isDigit c then withHouse f (setText (tfHouse f) (push_back (text (tfHouse f)) c))
    else f
  else f.

(** The loop itself; [keys] are the successive readings of
    [GetCharPressed()], and the first reading that is not positive ends
    the loop. *)
Fixpoint typeChars (keys : list Z) (f : Form) : Form :=
  match keys with
  | [] => f
  | key :: rest => if 0 <? key then typeChars rest (typeChar key f) else f
  end.

(** The four [if]s under [IsKeyPressed(KEY_BACKSPACE)]. *)
Definition backspace (f : Form) : Form :=
  let f1 := if (activeField f =? 0) && negb (isEmpty (tfName f))
            then withName f (setText (tfName f) (pop_back (text (tfName f)))) else f in
  let f2 := if (activeField f1 =? 1) && negb (isEmpty (tfAge f1))
            then withAge f1 (setText (tfAge f1) (pop_back (text (tfAge f1)))) else f1 in
  let f3 := if (activeField f2 =? 2) && negb (isEmpty (tfDesc f2))
            then withDesc f2 (setText (tfDesc f2) (pop_back (text (tfDesc f2)))) else f2 in
  if (activeField f3 =? 3) && negb (isEmpty (tfHouse f3))
  then withHouse f3 (setText (tfHouse f3) (pop_back (text (tfHouse f3)))) else f3.

(** [activeField = i] with the [active] flags of the four fields set
    accordingly. *)
Definition focus (i : Z) (f : Form) : Form :=
  {| tfName := setActive (tfName f) (i =? 0);
     tfAge := setActive (tfAge f) (i =? 1);
     tfDesc := setActive (tfDesc f) (i =? 2);
     tfHouse := setActive (tfHouse f) (i =? 3);
     severityIdx := severityIdx f;
     activeField := i |}.

(** The block under [IsKeyPressed(KEY_TAB)]; [%] truncates. *)
Definition pressTab (f : Form) : Form := focus (Z.rem (activeField f + 1) 4) f.

(** *** A click of the left mouse button *)

(** The results of the [CheckCollisionPointRec] tests of the mouse position
    against the four fields, the severity selector and the two buttons. *)
Record Click := mkClick {
  onName : bool;
  onAge : bool;
  onDesc : bool;
  onHouse : bool;
  onSeverity : bool;
  onSubmit : bool;
  onClear : bool
}.

(** [tfName.errorMsg = tfAge.errorMsg = tfHouse.errorMsg = ""]. *)
Definition clearErrors (f : Form) : Form :=
  {| tfName := setError (tfName f) ""; tfAge := setError (tfAge f) "";
     tfDesc := tfDesc f; tfHouse := setError (tfHouse f) "";
     severityIdx := severityIdx f; activeField := activeField f |}.

Definition clearTexts (f : Form) : Form :=
  {| tfName := setText (tfName f) ""; tfAge := setText (tfAge f) "";
     tfDesc := setText (tfDesc f) ""; tfHouse := setText (tfHouse f) "";
     severityIdx := severityIdx f; activeField := activeField f |}.

(** The [if]/[else if] chain that moves the focus. *)
Definition clickFocus (c : Click) (f : Form) : Form :=
  if onName c then focus 0 f
  else if onAge c then focus 1 f
  else if onDesc c then focus 2 f
  else if onHouse c then focus 3 f
  else focus (-1) f.

Definition severities : list string := ["Normal"; "High"; "Critical"]%string.

(** [severityIdx = (severityIdx + 1) % (int)severities.size()]. *)
Definition cycleSeverity (f : Form) : Form :=
  {| tfName := tfName f; tfAge := tfAge f; tfDesc := tfDesc f; tfHouse := tfHouse f;
     severityIdx := Z.rem (severityIdx f + 1) (Z.of_nat (length severities));
     activeField := activeField f |}.

(** [severities[i]]; [None] outside the vector, where the access is
    undefined. *)
Definition severityAt (i : Z) : option string :=
  if i <? 0 then None else severities !! Z.to_nat i.

(** [(sev == "Critical") ? 1 : (sev == "High" ? 2 : 3)]. *)
Definition priorityOf (sev : string) : Z :=
  if String.eqb sev "Critical" then 1 else if String.eqb sev "High" then 2 else 3.

(** The colours of the log entries. *)
Inductive Color := RED | ORANGE | BLUE.

(** [struct EmergencyLog].  [timestamp] receives the value of [gameTime], a
    [double] that only the renderer reads afterwards; it is modelled by its
    rational value. *)
Record EmergencyLog := mkLog {
  message : string;
  timestamp : Q;
  color : Color
}.

Definition logColor (idx : Z) : Color :=
  if idx =? 2 then RED else if idx =? 1 then ORANGE else BLUE.

(** [activityLog.push_front(log); if (activityLog.size() > 8)
    activityLog.pop_back();] *)
Definition pushLog (entry : EmergencyLog) (log : list EmergencyLog)
    : list EmergencyLog :=
  if (8 <? length (entry :: log))%nat then removelast (entry :: log) else entry :: log.

(** The search for the house number: the first index whose house has that
    id. *)
Fixpoint findHouse (i : nat) (houses : list House) (num : Z) : option nat :=
  match houses with
  | [] => None
  | h :: rest => if house_id h =? num then Some i else findHouse (S i) rest num
  end.

Section Main.

Context {PQ : PriorityQueue} {SI : StringToInt}.

(** The variables of [main] that the loop works on. *)
Record App := mkApp {
  houses : list House;
  hospital : Hospital;
  form : Form;
  activityLog : list EmergencyLog;
  totalEmergencies : Z
}.

Definition withForm (app : App) (f : Form) : App :=
  {| houses := houses app; hospital := hospital app; form := f;
     activityLog := activityLog app; totalEmergencies := totalEmergencies app |}.

(** The checks of the submit button: the form with its error messages,
    [valid], [houseNum] and [found]. *)
Definition validate (f : Form) (hs : list House) : Form * bool * Z * option nat :=
  let '(f1, valid1) :=
    if isEmpty (tfName f) then (withName f (setError (tfName f) "Name required"), false)
    else (f, true) in
  let '(f2, valid2) :=
    if isEmpty (tfAge f1) then (withAge f1 (setError (tfAge f1) "Age required"), false)
    else (f1, valid1) in
  let '(f3, valid3, houseNum) :=
    if isEmpty (tfHouse f2) then (f2, valid2, -1)
    else
      match stoi (text (tfHouse f2)) with
      | Some n => (f2, valid2, n)
      | None => (withHouse f2 (setError (tfHouse f2) "Invalid number"), false, -1)
      end in
  let found := findHouse 0 hs houseNum in
  match found with
  | Some _ => (f3, valid3, houseNum, found)
  | None => (withHouse f3 (setError (tfHouse f3) "House not found"), false, houseNum, found)
  end.

(** The emergency that the form files for the house [h]. *)
Definition formEmergency (f : Form) (sev : string) (houseNum : Z) (h : House)
    : Emergency :=
  {| em_id := 0;
     patient := {| name := text (tfName f);
                   age := if isEmpty (tfAge f) then 0
                          else match stoi (text (tfAge f)) with
                               | Some n => n
                               | None => 0
                               end;
                   severity := sev;
                   desc := text (tfDesc f);
                   houseNumber := houseNum |};
     location := doorstep (body h);
     priority := priorityOf sev;
     createdAt := 0;
     assignedHospital := 0 |}.

Definition formLog (f : Form) (sev : string) (gameTime : Q) : EmergencyLog :=
  {| message := (text (tfName f) ++ " (" ++ sev ++ ") - Hospital")%string;
     timestamp := gameTime;
     color := logColor (severityIdx f) |}.

(** The block under the submit button.  [now] is the reading of
    [GetTime()] and [gameTime] the value of the variable of that name.
    [None] stands for undefined behaviour: an index outside [severities] or
    [houses], or an increment at [INT_MAX]. *)
Definition submit (now gameTime : Q) (app : App) : option App :=
  let '(f, valid, houseNum, found) := validate (form app) (houses app) in
  if valid then
    match found with
    | Some i =>
        match houses app !! i, severityAt (severityIdx f) with
        | Some h, Some sev =>
            match receiveEmergency now (formEmergency f sev houseNum h) (hospital app) with
            | Some hosp =>
                if totalEmergencies app <? INT_MAX then
                  Some {| houses := houses app;
                          hospital := hosp;
                          form := clearTexts f;
                          activityLog := pushLog (formLog f sev gameTime) (activityLog app);
                          totalEmergencies := totalEmergencies app + 1 |}
                else None
            | None => None
            end
        | _, _ => None
        end
    | None => None
    end
  else Some (withForm app f).

(** The block under [IsMouseButtonPressed(MOUSE_BUTTON_LEFT)]. *)
Definition handleClick (c : Click) (now gameTime : Q) (app : App) : option App :=
  let f1 := clickFocus c (clearErrors (form app)) in
  let f2 := if onSeverity c then cycleSeverity f1 else f1 in
  match (if onSubmit c then submit now gameTime (withForm app f2)
         else Some (withForm app f2)) with
  | Some app1 =>
      Some (if onClear c then withForm app1 (clearErrors (clearTexts (form app1)))
            else app1)
  | None => None
  end.

(** What one iteration of the main loop reads from outside: the frame time
    [GetFrameTime()], the click of the left button if there is one, the
    readings of [GetTime()] and of [gameTime] at that click, the successive
    readings of [GetCharPressed()], and whether backspace and tab were
    pressed. *)
Record Input := mkInput {
  frameDt : float;
  clicked : option Click;
  clock : Q;
  gameClock : Q;
  chars : list Z;
  backspacePressed : bool;
  tabPressed : bool
}.

(** One iteration of the main loop, up to the drawing: the house flags,
    the ambulances, the mouse and the keyboard.  Panning and hovering only
    serve the renderer and are left out. *)
Definition mainLoopBody (fuel : nat) (inp : Input) (app : App) : option App :=
  let hs := updateHouseFlags (ambulances (hospital app)) (houses app) in
  match tick fuel cityGrid (frameDt inp) (hospital app) with
  | Some hosp =>
      let app1 := {| houses := hs; hospital := hosp; form := form app;
                     activityLog := activityLog app;
                     totalEmergencies := totalEmergencies app |} in
      match (match clicked inp with
             | Some c => handleClick c (clock inp) (gameClock inp) app1
             | None => Some app1
             end) with
      | Some app2 =>
          let f3 := typeChars (chars inp) (form app2) in
          let f4 := if backspacePressed inp then backspace f3 else f3 in
          let f5 := if tabPressed inp then pressTab f4 else f4 in
          Some (withForm app2 f5)
      | None => None
      end
  | None => None
  end.

(** The hospital of [main], under (444, 0), and the state before the first
    iteration; the houses are laid out with random sizes. *)
Definition mainHospital : Hospital :=
  Hospital_new (pt 444 0) [pt 374 30; pt 409 30; pt 479 30; pt 514 30] 1 f4.

Definition App_new (hs : list House) : App :=
  {| houses := hs; hospital := mainHospital; form := Form_new;
     activityLog := []; totalEmergencies := 0 |}.

(** The states that the main loop goes through. *)
Inductive running (hs : list House) : App -> Prop :=
  | running_new : running hs (App_new hs)
  | running_frame fuel inp app app' :
      running hs app -> mainLoopBody fuel inp app = Some app' -> running hs app'.

End Main.

(** *** The queue panel *)

(** The entries that the queue panel lists: the loop
    [for (j = 0; j < pending.size() && j < 3; ++j)]. *)
Definition shownPending (pending : list Emergency) : list Emergency := take 3 pending.

(** The count of the line "+N more...", shown when [pending.size() > 3]. *)
Definition morePending (pending : list Emergency) : option Z :=
  if (3 <? length pending)%nat then Some (Z.of_nat (length pending) - 3) else None.

(** ** Ranking of emergencies *)

(** [a] is served no later than [b]: lower priority number first, then the
    older time stamp. *)
Definition rankLe (a b : Emergency) : Prop :=
  priority a < priority b
  \/ (priority a = priority b /\ (createdAt a <= createdAt b)%Q).

(** [a] is served strictly before [b]. *)
Definition rankLt (a b : Emergency) : Prop :=
  priority a < priority b
  \/ (priority a = priority b /\ (createdAt a < createdAt b)%Q).

(** ** Vocabulary of the properties *)

(** The intersections of the lattice, in scan order. *)
Definition rowIntersections (g : Grid) (iy : Z) : list Vector2 :=
  map (fun ix => inter g ix iy) (seqZ 0 (blocksX g + 1)).

Definition intersections (g : Grid) : list Vector2 :=
  flat_map (rowIntersections g) (seqZ 0 (blocksY g + 1)).

(** [p] is an intersection of the lattice [g]. *)
Definition onLattice (g : Grid) (p : Vector2) : Prop := In p (intersections g).

(** [target] is nearer than 1e9 to some intersection of [g]. *)
Definition inSnapRange (g : Grid) (target : Vector2) : Prop :=
  exists p, In p (intersections g) /\ flt (distance target p) f1e9 = true.

(** State of the scan after the intersections [seen]: still the initial
    state, none of them being nearer than 1e9, or one of them. *)
Definition snapInv (target : Vector2) (seen : list Vector2) (st : float * Vector2)
    : Prop :=
  (st = (f1e9, target)
   /\ Forall (fun p => flt (distance target p) f1e9 = false) seen)
  \/ In (snd st) seen.

Definition distTo (target : Vector2) (a : Ambulance) : float :=
  distance (pos a) target.

(** The ambulance chosen for [target]: available, at a distance below
    [FLT_MAX], with no available ambulance strictly nearer and none of the
    same distance earlier in the roster. *)
Definition nearestAvailable (target : Vector2) (ambs : list Ambulance) (idx : nat)
    : Prop :=
  exists a, ambs !! idx = Some a
    /\ available a = true
    /\ flt (distTo target a) FLT_MAX = true
    /\ (forall j b, ambs !! j = Some b -> available b = true ->
                    flt (distTo target b) (distTo target a) = false)
    /\ (forall j b, ambs !! j = Some b -> available b = true ->
                    SFeqb (distTo target b) (distTo target a) = true ->
                    (idx <= j)%nat).

(** What the scan knows after the ambulances [seen]: nobody seen and available
    is strictly nearer than [bestd]; [best] is an available ambulance at that
    very distance, below [FLT_MAX], and the first one at that distance. *)
Definition scanInv (target : Vector2) (seen : list Ambulance)
    (st : option nat * float) : Prop :=
  (forall j b, seen !! j = Some b -> available b = true ->
               flt (distTo target b) (snd st) = false)
  /\ match fst st with
     | Some k =>
         exists a, seen !! k = Some a /\ available a = true
           /\ snd st = distTo target a
           /\ flt (distTo target a) FLT_MAX = true
           /\ forall j b, seen !! j = Some b -> available b = true ->
                          SFeqb (distTo target b) (distTo target a) = true ->
                          (k <= j)%nat
     | None => snd st = FLT_MAX
     end.

(** What holds of every ambulance of a reachable hospital. *)
Definition ambulanceOk (a : Ambulance) : Prop :=
  busy a = match status a with IDLE => false | _ => true end
  /\ match status a with
     | TO_SCENE | ON_SCENE => 1 <= assignedEmergencyId a
     | IDLE | RETURNING =>
         assignedEmergencyId a = -1
         /\ assignedPatientName a = ""%string
         /\ assignedHouseId a = -1
     end
  /\ (status a = IDLE -> path a = [] /\ currentPathIndex a = 0)
  /\ 0 <= currentPathIndex a.

(** The emergency ids carried by the roster, in roster order; [-1] is the
    "no emergency" value of [assignedEmergencyId]. *)
Fixpoint assignedIds (ambs : list Ambulance) : list Z :=
  match ambs with
  | [] => []
  | a :: rest =>
      if assignedEmergencyId a =? -1 then assignedIds rest
      else assignedEmergencyId a :: assignedIds rest
  end.

(** The emergency ids a hospital currently holds: those waiting in the queue,
    then those assigned to ambulances. *)
Definition held {PQ : PriorityQueue} (h : Hospital) : list Z :=
  map em_id (pq_elements (queue_ h)) ++ assignedIds (ambulances h).

Record hospitalOk {PQ : PriorityQueue} (h : Hospital) : Prop := {
  ok_ambulances : Forall ambulanceOk (ambulances h);
  ok_nodup : NoDup (held h);
  ok_range : Forall (fun i => 1 <= i < nextEmergencyId h) (held h);
  ok_count : Z.of_nat (length (held h)) + handledCount h = nextEmergencyId h - 1;
  ok_handled : 0 <= handledCount h;
  ok_next : 1 <= nextEmergencyId h <= INT_MAX
}.


(** [n] frames of the main loop. *)
Fixpoint runTicks {PQ : PriorityQueue} (n fuel : nat) (g : Grid) (dt : float)
    (h : Hospital) : option Hospital :=
  match n with
  | O => Some h
  | S n' =>
      match tick fuel g dt h with
      | Some h1 => runTicks n' fuel g dt h1
      | None => None
      end
  end.

(** A lattice of 3-unit cells far from the origin. *)
Definition fineGrid : Grid :=
  {| startX := of_int 100000000; startY := f0; blockSize := f3;
     blocksX := 10; blocksY := 0 |}.




(** The heap order of [std::is_heap]: no element ranks above its parent. *)
Definition is_heap (c : list Emergency) : Prop :=
  forall i x p, (1 <= i)%nat -> c !! i = Some x -> c !! ((i - 1) / 2)%nat = Some p ->
                EmergencyCompare p x = false.

(** A vector with a hole for [value]: the heap order holds between the
    slots other than [hole], and neither [value] nor the parent of the hole
    ranks below a child of the hole. *)
Record holed (c : list Emergency) (hole : nat) (value : Emergency) : Prop := {
  holed_others : forall i x p,
    (1 <= i)%nat -> i <> hole -> ((i - 1) / 2)%nat <> hole ->
    c !! i = Some x -> c !! ((i - 1) / 2)%nat = Some p -> EmergencyCompare p x = false;
  holed_value : forall i x,
    (1 <= i)%nat -> ((i - 1) / 2)%nat = hole -> c !! i = Some x ->
    EmergencyCompare value x = false;
  holed_above : forall i x g,
    (1 <= i)%nat -> ((i - 1) / 2)%nat = hole -> (1 <= hole)%nat ->
    c !! i = Some x -> c !! ((hole - 1) / 2)%nat = Some g -> EmergencyCompare g x = false
}.

(** The same while the hole moves down, [value] being placed later. *)
Record descending (c : list Emergency) (hole : nat) : Prop := {
  desc_others : forall i x p,
    (1 <= i)%nat -> i <> hole -> ((i - 1) / 2)%nat <> hole ->
    c !! i = Some x -> c !! ((i - 1) / 2)%nat = Some p -> EmergencyCompare p x = false;
  desc_above : forall i x g,
    (1 <= i)%nat -> ((i - 1) / 2)%nat = hole -> (1 <= hole)%nat ->
    c !! i = Some x -> c !! ((hole - 1) / 2)%nat = Some g -> EmergencyCompare g x = false
}.

(** *** Vocabulary of the further properties *)

(** [r] is the point of [pts] that the scan of [findNearestRoadPoint]
    selects for [target]: nearer than 1e9, with no point of [pts] strictly
    nearer, and the first in scan order among the equally near ones. *)
Definition nearestOf (target : Vector2) (pts : list Vector2) (r : Vector2) : Prop :=
  exists k, pts !! k = Some r
    /\ flt (distance target r) f1e9 = true
    /\ (forall j p, pts !! j = Some p ->
                    flt (distance target p) (distance target r) = false)
    /\ (forall j p, pts !! j = Some p ->
                    SFeqb (distance target p) (distance target r) = true ->
                    (k <= j)%nat).

(** State of the scan of [findNearestRoadPoint] after the points [seen]. *)
Definition nearestInv (target : Vector2) (seen : list Vector2) (st : float * Vector2)
    : Prop :=
  (forall j p, seen !! j = Some p -> flt (distance target p) (fst st) = false)
  /\ ((st = (f1e9, target))
      \/ (fst st = distance target (snd st) /\ nearestOf target seen (snd st))).

(** A step of one cell along X, and along Y. *)
Definition xMove (bs : float) (p q : Vector2) : Prop :=
  y q = y p /\ (x q = fadd (x p) bs \/ x q = fadd (x p) (fopp bs)).

Definition yMove (bs : float) (p q : Vector2) : Prop :=
  x q = x p /\ (y q = fadd (y p) bs \/ y q = fadd (y p) (fopp bs)).

(** Every point of [l] follows its predecessor, [a] first, by [R]. *)
Fixpoint linked {A} (R : A -> A -> Prop) (a : A) (l : list A) : Prop :=
  match l with
  | [] => True
  | b :: l' => R a b /\ linked R b l'
  end.

(** [inSnapRange], computed. *)
Definition inSnapRangeb (g : Grid) (target : Vector2) : bool :=
  existsb (fun p => flt (distance target p) f1e9) (intersections g).

(** Any number of operations of the program on a hospital. *)
Inductive steps {PQ : PriorityQueue} : Hospital -> Hospital -> Prop :=
  | steps_refl h : steps h h
  | steps_step h h1 h' : steps h h1 -> step h1 h' -> steps h h'.

(** The status that follows [s] in the life cycle of an ambulance. *)
Definition nextStatus (s : Status) : Status :=
  match s with
  | IDLE => TO_SCENE
  | TO_SCENE => ON_SCENE
  | ON_SCENE => RETURNING
  | RETURNING => IDLE
  end.

(** En route or on scene. *)
Definition isActive (a : Ambulance) : bool :=
  match status a with TO_SCENE | ON_SCENE => true | _ => false end.

(** What no operation writes: [id], [parkingPos], [speed]. *)
Definition fixedPart (a : Ambulance) : Z * Vector2 * float :=
  (amb_id a, parkingPos a, speed a).

(** The route and the cursor of an ambulance of a reachable hospital. *)
Definition routeOk (a : Ambulance) : Prop :=
  0 <= currentPathIndex a <= pathSize a
  /\ match status a with
     | IDLE => path a = []
     | _ => (2 <= length (path a))%nat
     end.

(** An idle ambulance stands on its parking position, without a route. *)
Definition parkedWhenIdle (a : Ambulance) : Prop :=
  status a = IDLE -> pos a = parkingPos a /\ path a = [].

(** The ambulances that [updateAfterMovement] releases from the scene. *)
Definition released (frameTime : float) (a : Ambulance) : bool :=
  match status a with
  | ON_SCENE => fle (fsub (onSceneTimer a) frameTime) f0
  | _ => false
  end.

(** An ambulance whose cursor has consumed the route to the scene is not
    more than 3 away from the end of the route, and an ambulance on scene has
    consumed its route and is less than 4 or not more than 3 away from its
    end, in the distance that the program computes. *)
Definition sceneOk (a : Ambulance) : Prop :=
  match status a with
  | TO_SCENE =>
      currentPathIndex a = pathSize a ->
      exists targ, last (path a) = Some targ
                   /\ fgt (distance targ (pos a)) f3 = false
  | ON_SCENE =>
      currentPathIndex a = pathSize a
      /\ exists targ, last (path a) = Some targ
                      /\ (flt (distance targ (pos a)) f4 = true
                          \/ fgt (distance targ (pos a)) f3 = false)
  | _ => True
  end.


(** The ambulance [a] is out for the emergency [e]: it carries its id, the
    name and the house number of the patient, and its route ends at the
    location of the emergency. *)
Definition carries (a : Ambulance) (e : Emergency) : Prop :=
  assignedEmergencyId a = em_id e
  /\ assignedPatientName a = name (patient e)
  /\ assignedHouseId a = houseNumber (patient e)
  /\ last (path a) = Some (location e).

(** Every emergency that the hospital holds, queued or assigned to an
    ambulance en route or on scene, satisfies [P]. *)
Definition holdsOnly {PQ : PriorityQueue} (P : Emergency -> Prop) (h : Hospital) : Prop :=
  Forall P (pq_elements (queue_ h))
  /\ Forall (fun a => isActive a = true -> exists e, P e /\ carries a e) (ambulances h).

(** The ambulances en route or on scene whose route ends at the door of
    [h]. *)
Definition calledTo (ambs : list Ambulance) (h : House) : bool :=
  existsb (fun amb => isActive amb
                      && match last (path amb) with
                         | Some target => atDoor h target
                         | None => false
                         end) ambs.

(** A coordinate that is a number: not an infinity, not a NaN. *)
Definition isFinite (v : float) : bool :=
  match v with
  | S754_zero _ | S754_finite _ _ _ => true
  | _ => false
  end.

(** What holds of the form in every state of the main loop. *)
Record formOk (f : Form) : Prop := {
  ok_maxLen : maxLen (tfName f) = 32 /\ maxLen (tfAge f) = 4
              /\ maxLen (tfDesc f) = 200 /\ maxLen (tfHouse f) = 6;
  ok_size : size (tfName f) <= 32 /\ size (tfAge f) <= 4
            /\ size (tfDesc f) <= 200 /\ size (tfHouse f) <= 6;
  ok_digits : allDigits (text (tfAge f)) = true /\ allDigits (text (tfHouse f)) = true;
  ok_focus : -1 <= activeField f <= 3;
  ok_active : active (tfName f) = (activeField f =? 0)
              /\ active (tfAge f) = (activeField f =? 1)
              /\ active (tfDesc f) = (activeField f =? 2)
              /\ active (tfHouse f) = (activeField f =? 3);
  ok_severity : 0 <= severityIdx f <= 2;
  ok_error : errorMsg (tfHouse f) <> "Invalid number"%string
}.

(** An emergency as the form files it for one of the houses [hs]: the
    patient has a name, the severity is one of the three, the priority is
    the one of the severity, and the location is the door of the first house
    that has the number given. *)
Definition filed (hs : list House) (e : Emergency) : Prop :=
  name (patient e) <> EmptyString
  /\ In (severity (patient e)) severities
  /\ priority e = priorityOf (severity (patient e))
  /\ exists i h, findHouse 0 hs (houseNumber (patient e)) = Some i
                 /\ hs !! i = Some h
                 /\ location e = doorstep (body h).

(** [!amb.assignedPatientName.empty() && amb.status != Status::IDLE], the
    condition under which the status panel shows the patient. *)
Definition showsPatient (a : Ambulance) : bool :=
  negb (String.eqb (assignedPatientName a) "")
  && match status a with IDLE => false | _ => true end.

(** The house number that the form holds: -1 for an empty field, [None]
    when the conversion fails. *)
Definition enteredHouse {SI : StringToInt} (f : Form) : option Z :=
  if isEmpty (tfHouse f) then Some (-1) else stoi (text (tfHouse f)).

(** What holds of the variables of [main] in every iteration, for the
    houses [hs] laid out at the start. *)
Record appOk {PQ : PriorityQueue} (hs : list House) (app : App) : Prop := {
  app_form : formOk (form app);
  app_reachable : reachable (hospital app);
  app_total : totalEmergencies app = nextEmergencyId (hospital app) - 1;
  app_log : Z.of_nat (length (activityLog app)) = Z.min 8 (totalEmergencies app);
  app_bodies : map body (houses app) = map body hs;
  app_ids : map house_id (houses app) = map house_id hs;
  app_filed : holdsOnly (filed hs) (hospital app)
}.

(** Several iterations of the main loop. *)
Fixpoint runFrames {PQ : PriorityQueue} {SI : StringToInt} (fuel : nat)
    (inps : list Input) (app : App) : option App :=
  match inps with
  | [] => Some app
  | inp :: rest =>
      match mainLoopBody fuel inp app with
      | Some app1 => runFrames fuel rest app1
      | None => None
      end
  end.

(** The text field that [activeField = i] designates. *)
Definition field (i : Z) (f : Form) : option TextField :=
  if i =? 0 then Some (tfName f)
  else if i =? 1 then Some (tfAge f)
  else if i =? 2 then Some (tfDesc f)
  else if i =? 3 then Some (tfHouse f)
  else None.

(** The age and the house number take digits only. *)
Definition digitsOnly (i : Z) : bool := (i =? 1) || (i =? 3).

(** The key is typed: a field has the focus, the field is not full, and the
    character is a digit where only digits are taken. *)
Definition accepts (key : Z) (f : Form) : bool :=
  match field (activeField f) f with
  | Some tf =>
      (size tf <? maxLen tf)
      && (negb (digitsOnly (activeField f)) || isDigit (toChar key))
  | None => false
  end.

(** * Properties *)

(** ** The comparator is a strict weak ordering *)

Lemma Qgtb_true (a b : Q) : Qgtb a b = true <-> (b < a)%Q.
Proof.
  unfold Qgtb. rewrite negb_true_iff, <- not_true_iff_false, Qle_bool_iff.
  split; [apply Qnot_le_lt | apply Qlt_not_le].
Qed.

Lemma Qgtb_false (a b : Q) : Qgtb a b = false <-> (a <= b)%Q.
Proof. unfold Qgtb. rewrite negb_false_iff. apply Qle_bool_iff. Qed.

Lemma EmergencyCompare_true (a b : Emergency) :
  EmergencyCompare a b = true <-> rankLt b a.
Proof.
  unfold EmergencyCompare, rankLt.
  destruct (Z.eqb_spec (priority a) (priority b)) as [E | E]; simpl.
  - rewrite Qgtb_true. split; [intros H; right; split; [lia | exact H] |].
    intros [H | [_ H]]; [lia | exact H].
  - rewrite Z.gtb_ltb, Z.ltb_lt. split; [intros H; left; exact H |].
    intros [H | [H _]]; [exact H | congruence].
Qed.

Lemma EmergencyCompare_false (a b : Emergency) :
  EmergencyCompare a b = false <-> rankLe a b.
Proof.
  unfold EmergencyCompare, rankLe.
  destruct (Z.eqb_spec (priority a) (priority b)) as [E | E]; simpl.
  - rewrite Qgtb_false. split; [intros H; right; split; [exact E | exact H] |].
    intros [H | [_ H]]; [lia | exact H].
  - rewrite Z.gtb_ltb, Z.ltb_ge. split; [intros H; left; lia |].
    intros [H | [H _]]; [lia | congruence].
Qed.

Lemma EmergencyCompare_irrefl (a : Emergency) : EmergencyCompare a a = false.
Proof. apply EmergencyCompare_false. right. split; [reflexivity | apply Qle_refl]. Qed.

Lemma EmergencyCompare_trans (a b c : Emergency) :
  EmergencyCompare a b = true -> EmergencyCompare b c = true ->
  EmergencyCompare a c = true.
Proof.
  rewrite !EmergencyCompare_true. unfold rankLt.
  intros [H1 | [H1 H1']] [H2 | [H2 H2']]; try (left; lia).
  right. split; [lia | eapply Qlt_trans; eassumption].
Qed.

(** Negative transitivity: whoever ranks below [c] while [b] does not, ranks
    below [b]. *)
Lemma EmergencyCompare_neg_trans (a b c : Emergency) :
  EmergencyCompare a c = true -> EmergencyCompare b c = false ->
  EmergencyCompare a b = true.
Proof.
  rewrite !EmergencyCompare_true, EmergencyCompare_false. unfold rankLt, rankLe.
  intros [H1 | [H1 H1']] [H2 | [H2 H2']]; try (left; lia).
  right. split; [lia | eapply Qle_lt_trans; eassumption].
Qed.

Lemma EmergencyCompare_asym (a b : Emergency) :
  EmergencyCompare a b = true -> EmergencyCompare b a = false.
Proof.
  intros H. destruct (EmergencyCompare b a) eqn:E; [| reflexivity].
  pose proof (EmergencyCompare_trans _ _ _ H E) as C.
  rewrite EmergencyCompare_irrefl in C. discriminate.
Qed.

(** ** The reference queue meets the interface *)

Lemma extractBest_spec (l : list Emergency) :
  match extractBest l with
  | None => l = []
  | Some (b, rest) =>
      l ≡ₚ b :: rest /\ Forall (fun e' => EmergencyCompare b e' = false) l
  end.
Proof.
  induction l as [| e l IH]; simpl; [reflexivity |].
  destruct (extractBest l) as [[b rest] |].
  - destruct IH as [Hp Hb].
    destruct (EmergencyCompare b e) eqn:Hbe.
    + split; [rewrite Hp; reflexivity |].
      constructor; [apply EmergencyCompare_irrefl |].
      eapply Forall_impl; [exact Hb |]. simpl. intros c Hc.
      destruct (EmergencyCompare e c) eqn:Hec; [| reflexivity].
      rewrite (EmergencyCompare_trans _ _ _ Hbe Hec) in Hc. discriminate.
    + split; [rewrite Hp; apply perm_swap |].
      constructor; assumption.
  - subst l. split; [reflexivity |].
    constructor; [apply EmergencyCompare_irrefl | constructor].
Qed.

Lemma scan_top_empty (q : list Emergency) : q = [] -> scan_top q = None.
Proof. intros ->. reflexivity. Qed.

Lemma scan_top_pop (q : list Emergency) :
  q <> [] ->
  exists e, scan_top q = Some e
    /\ q ≡ₚ e :: scan_pop q
    /\ Forall (fun e' => EmergencyCompare e e' = false) q.
Proof.
  intros Hq. unfold scan_top, scan_pop.
  pose proof (extractBest_spec q) as H.
  destruct (extractBest q) as [[b rest] |]; [| contradiction].
  exists b. destruct H as [Hp Hb]. auto.
Qed.

#[export] Instance ScanQueue : PriorityQueue := {|
  pq := list Emergency;
  pq_new := [];
  pq_push := cons;
  pq_top := scan_top;
  pq_pop := scan_pop;
  pq_size := @length Emergency;
  pq_elements := fun q => q;
  pq_elements_new := eq_refl;
  pq_size_spec := fun q => eq_refl;
  pq_push_spec := fun e q => Permutation_refl (e :: q);
  pq_top_empty := scan_top_empty;
  pq_top_pop_spec := scan_top_pop
|}.

(** ** The heap of libstdc++ meets the interface *)

(** [n = 2 * (n / 2) + n mod 2], for the arithmetic of parents and
    children. *)
Ltac halves n :=
  pose proof (Nat.div_mod_eq n 2); pose proof (Nat.mod_upper_bound n 2 ltac:(lia)).

Lemma EmergencyCompare_false_trans (a b c : Emergency) :
  EmergencyCompare a b = false -> EmergencyCompare b c = false ->
  EmergencyCompare a c = false.
Proof.
  intros Hab Hbc. destruct (EmergencyCompare a c) eqn:Hac; [| reflexivity].
  rewrite (EmergencyCompare_neg_trans a b c Hac Hbc) in Hab. discriminate.
Qed.

Lemma delete_insert_same {A} (l : list A) (i : nat) (x : A) :
  delete i (<[i := x]> l) = delete i l.
Proof.
  revert i. induction l as [| a l IH]; intros [| i]; simpl; try reflexivity.
  f_equal. apply IH.
Qed.

Lemma insert_delete_Permutation {A} (l : list A) (i : nat) (x : A) :
  (i < length l)%nat -> <[i := x]> l ≡ₚ x :: delete i l.
Proof.
  intros Hi. rewrite <- (delete_insert_same l i x).
  apply delete_Permutation, list_lookup_insert_eq, Hi.
Qed.

(** Moving the element of slot [j] into the hole [i] moves the hole to [j]. *)
Lemma move_hole_Permutation {A} (l : list A) (i j : nat) (y : A) :
  (i < length l)%nat -> i <> j -> l !! j = Some y ->
  delete j (<[i := y]> l) ≡ₚ delete i l.
Proof.
  intros Hi Hij Hj. apply (Permutation_cons_inv (a := y)).
  rewrite <- (insert_delete_Permutation l i y Hi).
  symmetry. apply delete_Permutation.
  rewrite list_lookup_insert_ne by exact Hij. exact Hj.
Qed.

Lemma fill_hole (c : list Emergency) (hole : nat) (value : Emergency) :
  (hole < length c)%nat -> holed c hole value ->
  (hole = 0%nat \/ forall p, c !! ((hole - 1) / 2)%nat = Some p ->
                             EmergencyCompare p value = false) ->
  is_heap (<[hole := value]> c).
Proof.
  intros Hlen [K1 K2 K3] Hexit i x p Hi Hx Hp.
  assert (Hpar : ((i - 1) / 2 < i)%nat) by (halves (i - 1)%nat; lia).
  destruct (decide (i = hole)) as [-> | Hne].
  - rewrite list_lookup_insert_eq in Hx by exact Hlen. injection Hx as <-.
    rewrite list_lookup_insert_ne in Hp by lia.
    destruct Hexit as [-> | Hexit]; [lia | auto].
  - rewrite list_lookup_insert_ne in Hx by congruence.
    destruct (decide (((i - 1) / 2)%nat = hole)) as [E | E].
    + rewrite E, list_lookup_insert_eq in Hp by exact Hlen. injection Hp as <-.
      eapply K2; eassumption.
    + rewrite list_lookup_insert_ne in Hp by congruence. eapply K1; eassumption.
Qed.

Lemma push_heap_loop_is_heap (n : nat) :
  forall c hole value,
    (hole <= n)%nat -> (hole < length c)%nat -> holed c hole value ->
    is_heap (push_heap_loop n c hole 0 value).
Proof.
  induction n as [| n IH]; intros c hole value Hn Hlen Hh.
  - assert (hole = 0%nat) as -> by lia. cbn [push_heap_loop].
    destruct (c !! ((0 - 1) / 2)%nat); apply fill_hole; auto.
  - cbn [push_heap_loop].
    destruct (c !! ((hole - 1) / 2)%nat) as [p |] eqn:Hp.
    2:{ apply lookup_ge_None in Hp. halves (hole - 1)%nat. lia. }
    destruct (Nat.ltb_spec 0 hole) as [Hpos | Hz]; cbn [andb].
    2:{ apply fill_hole; auto. left. lia. }
    destruct (EmergencyCompare p value) eqn:Hpv.
    2:{ apply fill_hole; auto. right. intros p' Hp'. congruence. }
    assert (Hpar : ((hole - 1) / 2 < hole)%nat) by (halves (hole - 1)%nat; lia).
    apply IH; [lia | rewrite length_insert; lia |].
    destruct Hh as [K1 K2 K3]. split.
    + intros i x q Hi Hne1 Hne2 Hx Hq.
      assert (Hpi : ((i - 1) / 2 < i)%nat) by (halves (i - 1)%nat; lia).
      destruct (decide (i = hole)) as [-> | Hih]; [congruence |].
      rewrite list_lookup_insert_ne in Hx by congruence.
      destruct (decide (((i - 1) / 2)%nat = hole)) as [E | E].
      * rewrite E, list_lookup_insert_eq in Hq by exact Hlen. injection Hq as <-.
        eapply K3; eauto; lia.
      * rewrite list_lookup_insert_ne in Hq by congruence. eapply K1; eauto.
    + intros i x Hi Hpi Hx.
      destruct (decide (i = hole)) as [-> | Hih].
      * rewrite list_lookup_insert_eq in Hx by exact Hlen. injection Hx as <-.
        apply EmergencyCompare_asym, Hpv.
      * rewrite list_lookup_insert_ne in Hx by congruence.
        assert (Hpx : EmergencyCompare p x = false).
        { eapply (K1 i); eauto; [lia | rewrite Hpi; exact Hp]. }
        destruct (EmergencyCompare value x) eqn:Hvx; [| reflexivity].
        rewrite (EmergencyCompare_trans _ _ _ Hpv Hvx) in Hpx. discriminate.
    + intros i x g Hi Hpi Hpos' Hx Hg.
      assert (Hgg : hole <> (((hole - 1) / 2 - 1) / 2)%nat). { clear - Hpar Hpos'. halves ((hole - 1) / 2 - 1)%nat. lia. }
      rewrite list_lookup_insert_ne in Hg by exact Hgg.
      assert (Hgp : EmergencyCompare g p = false).
      { eapply (K1 ((hole - 1) / 2)%nat); eauto; lia. }
      destruct (decide (i = hole)) as [-> | Hih].
      * rewrite list_lookup_insert_eq in Hx by exact Hlen. injection Hx as <-. exact Hgp.
      * rewrite list_lookup_insert_ne in Hx by congruence.
        apply (EmergencyCompare_false_trans g p x Hgp).
        eapply (K1 i); eauto; [lia | rewrite Hpi; exact Hp].
Qed.

Lemma push_heap_loop_Permutation (n : nat) :
  forall c hole value,
    (hole < length c)%nat ->
    push_heap_loop n c hole 0 value ≡ₚ value :: delete hole c.
Proof.
  induction n as [| n IH]; intros c hole value Hlen.
  - cbn [push_heap_loop].
    destruct (c !! ((hole - 1) / 2)%nat); apply insert_delete_Permutation, Hlen.
  - cbn [push_heap_loop].
    destruct (c !! ((hole - 1) / 2)%nat) as [p |] eqn:Hp;
      [| apply insert_delete_Permutation, Hlen].
    destruct (Nat.ltb_spec 0 hole) as [Hpos | Hz]; cbn [andb];
      [| apply insert_delete_Permutation, Hlen].
    destruct (EmergencyCompare p value); [| apply insert_delete_Permutation, Hlen].
    assert (Hpar : ((hole - 1) / 2 < hole)%nat) by (halves (hole - 1)%nat; lia).
    rewrite IH by (rewrite length_insert; lia).
    constructor. apply move_hole_Permutation; [exact Hlen | lia | exact Hp].
Qed.

Lemma push_heap_loop_length (n : nat) :
  forall c hole value, length (push_heap_loop n c hole 0 value) = length c.
Proof.
  induction n as [| n IH]; intros c hole value.
  - cbn [push_heap_loop]. destruct (c !! ((hole - 1) / 2)%nat); apply length_insert.
  - cbn [push_heap_loop]. destruct (c !! ((hole - 1) / 2)%nat); [| apply length_insert].
    destruct (_ && _); [| apply length_insert].
    rewrite IH. apply length_insert.
Qed.

(** One step down: the element [m] of the child [k] is moved into the hole;
    the other child, if any, does not rank above it. *)
Lemma descending_step (c : list Emergency) (hole k : nat) (m : Emergency) :
  (hole < length c)%nat -> ((k - 1) / 2)%nat = hole -> (1 <= k)%nat ->
  c !! k = Some m ->
  (forall i x, (1 <= i)%nat -> ((i - 1) / 2)%nat = hole -> i <> k -> c !! i = Some x ->
               EmergencyCompare m x = false) ->
  descending c hole -> descending (<[hole := m]> c) k.
Proof.
  intros Hlen Hk Hk1 Hm Hsib [K1 K3].
  assert (Hlt : (hole < k)%nat) by (clear - Hk Hk1; halves (k - 1)%nat; lia).
  split.
  - intros i x p Hi Hne1 Hne2 Hx Hp.
    destruct (decide (i = hole)) as [-> | Hih].
    + rewrite list_lookup_insert_eq in Hx by exact Hlen. injection Hx as <-.
      rewrite list_lookup_insert_ne in Hp by (clear - Hi; halves (hole - 1)%nat; lia).
      eapply (K3 k); eauto.
    + rewrite list_lookup_insert_ne in Hx by congruence.
      destruct (decide (((i - 1) / 2)%nat = hole)) as [E | E].
      * rewrite E, list_lookup_insert_eq in Hp by exact Hlen. injection Hp as <-.
        eapply Hsib; eauto.
      * rewrite list_lookup_insert_ne in Hp by congruence. eapply K1; eauto.
  - intros i x g Hi Hpi _ Hx Hg.
    rewrite Hk, list_lookup_insert_eq in Hg by exact Hlen. injection Hg as <-.
    assert (Hik : (k < i)%nat) by (clear - Hi Hpi Hk1; halves (i - 1)%nat; lia).
    rewrite list_lookup_insert_ne in Hx by lia.
    eapply (K1 i); eauto; [lia | lia | rewrite Hpi; exact Hm].
Qed.

Lemma adjust_heap_loop_spec (n : nat) :
  forall c hole,
    (hole < length c)%nat -> (length c - hole <= n)%nat -> descending c hole ->
    match adjust_heap_loop n c (length c) hole with
    | (c1, hole1) =>
        descending c1 hole1 /\ (hole1 < length c)%nat /\ length c1 = length c
        /\ delete hole1 c1 ≡ₚ delete hole c
        /\ ~ (hole1 < (length c - 1) / 2)%nat
    end.
Proof.
  induction n as [| n IH]; intros c hole Hlen Hn Hd; [lia |].
  cbn [adjust_heap_loop].
  destruct (Nat.ltb_spec hole ((length c - 1) / 2)) as [Hlt | Hge].
  2:{ split; [exact Hd |]. split; [exact Hlen |]. split; [reflexivity |].
      split; [reflexivity |]. apply Nat.nlt_ge, Hge. }
  assert (Hr : (2 * (hole + 1) < length c)%nat)
    by (clear - Hlt; halves (length c - 1)%nat; lia).
  destruct (c !! (2 * (hole + 1))%nat) as [r |] eqn:Er.
  2:{ apply lookup_ge_None in Er. lia. }
  destruct (c !! (2 * (hole + 1) - 1)%nat) as [l |] eqn:El.
  2:{ apply lookup_ge_None in El. lia. }
  assert (Hpr : ((2 * (hole + 1) - 1) / 2)%nat = hole).
  { clear. halves (2 * (hole + 1) - 1)%nat. lia. }
  assert (Hpl : ((2 * (hole + 1) - 1 - 1) / 2)%nat = hole).
  { clear. halves (2 * (hole + 1) - 1 - 1)%nat. lia. }
  assert (Hchild : forall i, (1 <= i)%nat -> ((i - 1) / 2)%nat = hole ->
                     i = (2 * (hole + 1) - 1)%nat \/ i = (2 * (hole + 1))%nat).
  { clear. intros i Hi Hp. halves (i - 1)%nat. lia. }
  destruct (EmergencyCompare r l) eqn:Hrl.
  - assert (Hstep : descending (<[hole := l]> c) (2 * (hole + 1) - 1)).
    { apply (descending_step c hole _ l Hlen Hpl ltac:(lia) El); [| exact Hd].
      intros i x Hi Hp Hne Hx. destruct (Hchild i Hi Hp) as [-> | ->]; [congruence |].
      rewrite Er in Hx. injection Hx as <-. apply EmergencyCompare_asym, Hrl. }
    specialize (IH (<[hole := l]> c) (2 * (hole + 1) - 1)%nat).
    rewrite length_insert in IH.
    specialize (IH ltac:(lia) ltac:(lia) Hstep).
    destruct (adjust_heap_loop n _ _ _) as [c1 hole1].
    destruct IH as (H1 & H2 & H3 & H4 & H5).
    split; [exact H1 |]. split; [exact H2 |]. split; [exact H3 |]. split; [| exact H5].
    rewrite H4. apply move_hole_Permutation; [exact Hlen | lia | exact El].
  - assert (Hstep : descending (<[hole := r]> c) (2 * (hole + 1))).
    { apply (descending_step c hole _ r Hlen Hpr ltac:(lia) Er); [| exact Hd].
      intros i x Hi Hp Hne Hx. destruct (Hchild i Hi Hp) as [-> | ->]; [| congruence].
      rewrite El in Hx. injection Hx as <-. exact Hrl. }
    specialize (IH (<[hole := r]> c) (2 * (hole + 1))%nat).
    rewrite length_insert in IH.
    specialize (IH ltac:(lia) ltac:(lia) Hstep).
    destruct (adjust_heap_loop n _ _ _) as [c1 hole1].
    destruct IH as (H1 & H2 & H3 & H4 & H5).
    split; [exact H1 |]. split; [exact H2 |]. split; [exact H3 |]. split; [| exact H5].
    rewrite H4. apply move_hole_Permutation; [exact Hlen | lia | exact Er].
Qed.

Lemma adjust_heap_spec (c : list Emergency) (value : Emergency) :
  (0 < length c)%nat -> descending c 0 ->
  is_heap (__adjust_heap c 0 (length c) value)
  /\ __adjust_heap c 0 (length c) value ≡ₚ value :: delete 0%nat c.
Proof.
  intros Hlen Hd. unfold __adjust_heap.
  pose proof (adjust_heap_loop_spec (length c) c 0 Hlen ltac:(lia) Hd) as H.
  destruct (adjust_heap_loop _ _ _ _) as [c1 hole1].
  destruct H as ([K1 K3] & Hh & Hl & Hp & Hexit).
  destruct (Nat.even (length c) && (hole1 =? (length c - 2) / 2)%nat) eqn:Hlast.
  - apply andb_prop in Hlast as [Hev Heq].
    apply Nat.eqb_eq in Heq. apply Nat.even_spec in Hev as [k Hk].
    assert (Hidx : (2 * (hole1 + 1) - 1 = length c - 1)%nat /\ (2 <= length c)%nat).
    { clear - Hk Heq Hh. rewrite Hk in *. halves (2 * k - 2)%nat. lia. }
    destruct Hidx as [Hidx H2].
    destruct (c1 !! (2 * (hole1 + 1) - 1)%nat) as [l |] eqn:El.
    2:{ apply lookup_ge_None in El. lia. }
    assert (Hpl : ((2 * (hole1 + 1) - 1 - 1) / 2)%nat = hole1).
    { clear. halves (2 * (hole1 + 1) - 1 - 1)%nat. lia. }
    assert (Hstep : descending (<[hole1 := l]> c1) (2 * (hole1 + 1) - 1)).
    { apply (descending_step c1 hole1 _ l ltac:(lia) Hpl ltac:(lia) El);
        [| split; assumption].
      intros i x Hi Hp' Hne Hx. apply lookup_lt_Some in Hx.
      clear - Hi Hp' Hne Hx Hidx Hl H2. halves (i - 1)%nat. lia. }
    destruct Hstep as [K1' K3']. unfold __push_heap. split.
    + apply push_heap_loop_is_heap; [lia | rewrite length_insert; lia |].
      split; [exact K1' | | exact K3'].
      intros i x Hi Hp' Hx. apply lookup_lt_Some in Hx. rewrite length_insert in Hx.
      clear - Hi Hp' Hx Hidx Hl H2. halves (i - 1)%nat. lia.
    + rewrite push_heap_loop_Permutation by (rewrite length_insert; lia).
      constructor. rewrite <- Hp.
      apply move_hole_Permutation; [lia | lia | exact El].
  - assert (Hleaf : forall i, (1 <= i)%nat -> ((i - 1) / 2)%nat = hole1 ->
                      (length c <= i)%nat).
    { intros i Hi Hp'. apply andb_false_iff in Hlast.
      destruct (Nat.even (length c)) eqn:Hev.
      - destruct Hlast as [Hlast | Hlast]; [discriminate |].
        apply Nat.eqb_neq in Hlast. apply Nat.even_spec in Hev as [k Hk].
        clear - Hk Hlast Hexit Hi Hp' Hh. rewrite Hk in *.
        halves (2 * k - 2)%nat. halves (2 * k - 1)%nat. halves (i - 1)%nat. lia.
      - assert (Hodd : Nat.odd (length c) = true)
          by (rewrite <- Nat.negb_even, Hev; reflexivity).
        apply Nat.odd_spec in Hodd as [k Hk].
        clear - Hk Hexit Hi Hp'. rewrite Hk in *.
        halves (2 * k + 1 - 1)%nat. halves (i - 1)%nat. lia. }
    unfold __push_heap. split.
    + apply push_heap_loop_is_heap; [lia | lia |].
      split; [exact K1 | | exact K3].
      intros i x Hi Hp' Hx. apply lookup_lt_Some in Hx.
      specialize (Hleaf i Hi Hp'). lia.
    + rewrite push_heap_loop_Permutation by lia. constructor. exact Hp.
Qed.

(** A slot behind the range that the algorithms work on is left alone. *)
Lemma push_heap_loop_app (n : nat) (z : Emergency) :
  forall c hole value,
    (hole < length c)%nat ->
    push_heap_loop n (c ++ [z]) hole 0 value = push_heap_loop n c hole 0 value ++ [z].
Proof.
  induction n as [| n IH]; intros c hole value Hlen.
  - cbn [push_heap_loop]. rewrite insert_app_l by exact Hlen.
    destruct ((c ++ [z]) !! ((hole - 1) / 2)%nat), (c !! ((hole - 1) / 2)%nat);
      reflexivity.
  - assert (Hpar : ((hole - 1) / 2 < length c)%nat)
      by (clear - Hlen; halves (hole - 1)%nat; lia).
    cbn [push_heap_loop]. rewrite lookup_app_l by exact Hpar.
    rewrite !insert_app_l by exact Hlen.
    destruct (c !! ((hole - 1) / 2)%nat) as [p |]; [| reflexivity].
    destruct (_ && _); [| reflexivity].
    rewrite <- IH by (rewrite length_insert; exact Hpar).
    rewrite insert_app_l by exact Hlen. reflexivity.
Qed.

Lemma adjust_heap_loop_app (n : nat) (z : Emergency) :
  forall c len hole,
    (len <= length c)%nat -> (hole < len)%nat ->
    adjust_heap_loop n (c ++ [z]) len hole
    = (fst (adjust_heap_loop n c len hole) ++ [z], snd (adjust_heap_loop n c len hole))
    /\ (snd (adjust_heap_loop n c len hole) < len)%nat
    /\ length (fst (adjust_heap_loop n c len hole)) = length c.
Proof.
  induction n as [| n IH]; intros c len hole Hlen Hh; [simpl; auto |].
  cbn [adjust_heap_loop].
  destruct (Nat.ltb_spec hole ((len - 1) / 2)) as [Hlt | Hge]; [| simpl; auto].
  assert (Hr : (2 * (hole + 1) < len)%nat) by (clear - Hlt; halves (len - 1)%nat; lia).
  rewrite !lookup_app_l by lia.
  destruct (c !! (2 * (hole + 1))%nat) as [r |]; [| simpl; auto].
  destruct (c !! (2 * (hole + 1) - 1)%nat) as [l |]; [| simpl; auto].
  rewrite !insert_app_l by lia.
  destruct (EmergencyCompare r l).
  - destruct (IH (<[hole := l]> c) len (2 * (hole + 1) - 1)%nat) as (E & Hb & Hl);
      [rewrite length_insert; lia | lia |].
    rewrite E, Hl, length_insert. auto.
  - destruct (IH (<[hole := r]> c) len (2 * (hole + 1))%nat) as (E & Hb & Hl);
      [rewrite length_insert; lia | lia |].
    rewrite E, Hl, length_insert. auto.
Qed.

Lemma adjust_heap_app (c : list Emergency) (z value : Emergency) :
  (0 < length c)%nat ->
  __adjust_heap (c ++ [z]) 0 (length c) value = __adjust_heap c 0 (length c) value ++ [z].
Proof.
  intros Hlen. unfold __adjust_heap.
  destruct (adjust_heap_loop_app (length c) z c (length c) 0 (le_n _) Hlen)
    as (E & Hb & Hl).
  rewrite E. destruct (adjust_heap_loop (length c) c (length c) 0) as [c1 hole1].
  cbn [fst snd] in Hb, Hl |- *.
  destruct (Nat.even (length c) && (hole1 =? (length c - 2) / 2)%nat) eqn:Hlast.
  - apply andb_prop in Hlast as [Hev Heq].
    apply Nat.eqb_eq in Heq. apply Nat.even_spec in Hev as [k Hk].
    assert (Hidx : (2 * (hole1 + 1) - 1 < length c1)%nat).
    { clear - Hk Heq Hb Hl. rewrite Hl, Hk in *. halves (2 * k - 2)%nat. lia. }
    rewrite lookup_app_l by exact Hidx.
    destruct (c1 !! (2 * (hole1 + 1) - 1)%nat) as [l |].
    + rewrite insert_app_l by lia. unfold __push_heap.
      apply push_heap_loop_app. rewrite length_insert. exact Hidx.
    + unfold __push_heap. apply push_heap_loop_app. lia.
  - unfold __push_heap. apply push_heap_loop_app. lia.
Qed.

Lemma is_heap_nil : is_heap [].
Proof. intros i x p _ Hx. rewrite lookup_nil in Hx. discriminate. Qed.

(** [priority_queue::push]: [c.push_back(x)], then [std::push_heap]. *)
Lemma heap_push_spec (e : Emergency) (c : list Emergency) :
  is_heap c -> is_heap (heap_push e c) /\ heap_push e c ≡ₚ e :: c.
Proof.
  intros Hc. unfold heap_push, push_heap, __push_heap.
  rewrite last_snoc, length_app. simpl.
  replace (length c + 1 - 1)%nat with (length c) by lia.
  assert (Hlen : (length c < length (c ++ [e]))%nat) by (rewrite length_app; simpl; lia).
  split.
  - apply push_heap_loop_is_heap; [lia | exact Hlen |].
    assert (Hleaf : forall i x, (1 <= i)%nat -> ((i - 1) / 2)%nat = length c ->
                      (c ++ [e]) !! i = Some x -> False).
    { intros i x Hi Hp Hx. apply lookup_lt_Some in Hx. rewrite length_app in Hx.
      simpl in Hx. clear - Hi Hp Hx. halves (i - 1)%nat. lia. }
    split.
    + intros i x p Hi Hne1 Hne2 Hx Hp.
      assert (Hil : (i < length c)%nat).
      { apply lookup_lt_Some in Hx. rewrite length_app in Hx. simpl in Hx. lia. }
      rewrite lookup_app_l in Hx by exact Hil.
      rewrite lookup_app_l in Hp by (clear - Hil; halves (i - 1)%nat; lia).
      eapply Hc; eauto.
    + intros i x Hi Hp Hx. exfalso. eapply Hleaf; eauto.
    + intros i x g Hi Hp _ Hx _. exfalso. eapply Hleaf; eauto.
  - rewrite push_heap_loop_Permutation by exact Hlen.
    rewrite delete_middle, app_nil_r. reflexivity.
Qed.

(** In a heap no element ranks above the first. *)
Lemma is_heap_front (c : list Emergency) (t : Emergency) :
  is_heap c -> c !! 0%nat = Some t ->
  Forall (fun e' => EmergencyCompare t e' = false) c.
Proof.
  intros Hc Ht. apply Forall_lookup. intros i.
  induction i as [i IH] using lt_wf_ind. intros x Hx.
  destruct i as [| i].
  - rewrite Ht in Hx. injection Hx as <-. apply EmergencyCompare_irrefl.
  - assert (Hpar : ((S i - 1) / 2 < S i)%nat) by (clear; halves (S i - 1)%nat; lia).
    destruct (c !! ((S i - 1) / 2)%nat) as [p |] eqn:Hp.
    2:{ apply lookup_ge_None in Hp. apply lookup_lt_Some in Hx. lia. }
    apply (EmergencyCompare_false_trans t p x).
    + apply (IH _ Hpar _ Hp).
    + apply (Hc (S i) x p); [lia | exact Hx | exact Hp].
Qed.

(** [priority_queue::pop]: [std::pop_heap], then [c.pop_back()]. *)
Lemma heap_pop_spec (c : list Emergency) (t : Emergency) :
  is_heap c -> c !! 0%nat = Some t ->
  is_heap (heap_pop c) /\ c ≡ₚ t :: heap_pop c.
Proof.
  intros Hc Ht. unfold heap_pop, pop_heap.
  destruct c as [| first rest]; [discriminate |].
  simpl in Ht. injection Ht as ->.
  destruct rest as [| e rest _] using rev_ind.
  - simpl. split; [apply is_heap_nil | reflexivity].
  - assert (Hlen : length (t :: rest ++ [e]) = S (length (t :: rest))).
    { simpl. rewrite length_app. simpl. lia. }
    rewrite Hlen.
    destruct (Nat.ltb_spec 1 (S (length (t :: rest)))) as [_ | Hle]; [| simpl in Hle; lia].
    change ((t :: rest ++ [e]) !! 0%nat) with (Some t).
    change (t :: rest ++ [e]) with ((t :: rest) ++ [e]) in Hc |- *.
    rewrite last_snoc.
    replace (S (length (t :: rest)) - 1)%nat with (length (t :: rest) + 0)%nat by lia.
    rewrite insert_app_r, Nat.add_0_r. cbn [insert list_insert].
    rewrite adjust_heap_app by (simpl; lia).
    rewrite removelast_last.
    assert (Hd : descending (t :: rest) 0).
    { split.
      - intros i x p Hi Hne1 Hne2 Hx Hp.
        assert (Hil : (i < length (t :: rest))%nat) by (eapply lookup_lt_Some; exact Hx).
        apply (Hc i x p Hi).
        + rewrite lookup_app_l by exact Hil. exact Hx.
        + rewrite lookup_app_l by (clear - Hil; halves (i - 1)%nat; lia). exact Hp.
      - intros i x g _ _ Hpos. lia. }
    destruct (adjust_heap_spec (t :: rest) e ltac:(simpl; lia) Hd) as [Hh Hp].
    split; [exact Hh |].
    rewrite Hp. simpl. constructor. symmetry. apply Permutation_cons_append.
Qed.

(** [std::priority_queue<Emergency, vector<Emergency>, EmergencyCompare>] as
    libstdc++ has it: the vector [c], which is a heap. *)
Definition Heap : Type := { c : list Emergency | is_heap c }.

Definition Heap_new : Heap := exist _ [] is_heap_nil.

Definition Heap_push (e : Emergency) (q : Heap) : Heap :=
  exist _ (heap_push e (proj1_sig q)) (proj1 (heap_push_spec e _ (proj2_sig q))).

(** [c.front()]. *)
Definition Heap_top (q : Heap) : option Emergency := head (proj1_sig q).

Lemma heap_pop_is_heap (c : list Emergency) : is_heap c -> is_heap (heap_pop c).
Proof.
  intros Hc. destruct (c !! 0%nat) as [t |] eqn:Ht.
  - exact (proj1 (heap_pop_spec c t Hc Ht)).
  - destruct c; [apply is_heap_nil | discriminate].
Qed.

Definition Heap_pop (q : Heap) : Heap :=
  exist _ (heap_pop (proj1_sig q)) (heap_pop_is_heap _ (proj2_sig q)).

Lemma Heap_top_pop (q : Heap) :
  proj1_sig q <> [] ->
  exists e, Heap_top q = Some e
    /\ proj1_sig q ≡ₚ e :: proj1_sig (Heap_pop q)
    /\ Forall (fun e' => EmergencyCompare e e' = false) (proj1_sig q).
Proof.
  destruct q as [c Hc]. simpl. intros Hne. unfold Heap_top. simpl.
  destruct c as [| t rest]; [contradiction |].
  exists t. split; [reflexivity |].
  split; [exact (proj2 (heap_pop_spec (t :: rest) t Hc eq_refl)) |].
  apply is_heap_front; [exact Hc | reflexivity].
Qed.

Lemma Heap_top_empty (q : Heap) : proj1_sig q = [] -> Heap_top q = None.
Proof. unfold Heap_top. intros ->. reflexivity. Qed.

Definition HeapQueue : PriorityQueue := {|
  pq := Heap;
  pq_new := Heap_new;
  pq_push := Heap_push;
  pq_top := Heap_top;
  pq_pop := Heap_pop;
  pq_size := fun q => length (proj1_sig q);
  pq_elements := fun q => proj1_sig q;
  pq_elements_new := eq_refl;
  pq_size_spec := fun q => eq_refl;
  pq_push_spec := fun e q => proj2 (heap_push_spec e _ (proj2_sig q));
  pq_top_empty := Heap_top_empty;
  pq_top_pop_spec := Heap_top_pop
|}.

(** ** The reference conversion meets the contract of [std::stoi] *)

Lemma length_push_back (s : string) (c : ascii) :
  String.length (push_back s c) = S (String.length s).
Proof. induction s as [| a s IH]; simpl; [reflexivity | rewrite IH; reflexivity]. Qed.

Lemma pop_back_push_back (s : string) (c : ascii) : pop_back (push_back s c) = s.
Proof.
  induction s as [| a s IH]; simpl; [reflexivity |].
  rewrite IH. destruct s; reflexivity.
Qed.

Lemma length_pop_back (s : string) :
  (String.length (pop_back s) <= String.length s)%nat.
Proof.
  induction s as [| a s IH]; simpl; [lia |]. destruct s; simpl in *; lia.
Qed.

Lemma allDigits_push_back (s : string) (c : ascii) :
  allDigits (push_back s c) = allDigits s && isDigit c.
Proof.
  induction s as [| a s IH]; simpl; [apply andb_true_r |].
  rewrite IH. apply andb_assoc.
Qed.

Lemma allDigits_pop_back (s : string) :
  allDigits s = true -> allDigits (pop_back s) = true.
Proof.
  induction s as [| a s IH]; simpl; [auto |].
  intros H. apply andb_prop in H as [Ha Hs].
  destruct s; [reflexivity |]. change (isDigit a && allDigits (pop_back (String a0 s)) = true).
  rewrite Ha, (IH Hs). reflexivity.
Qed.

Lemma readDigits_decimal (s : string) :
  forall acc n,
    allDigits s = true ->
    readDigits acc n s = (decimalFrom acc s, (n + String.length s)%nat).
Proof.
  induction s as [| c s IH]; intros acc n; simpl.
  - intros _. rewrite Nat.add_0_r. reflexivity.
  - intros H. apply andb_prop in H as [Hc Hs]. rewrite Hc, (IH _ _ Hs).
    f_equal. lia.
Qed.

Lemma decimalFrom_bounds (s : string) :
  forall acc,
    allDigits s = true -> 0 <= acc ->
    acc * 10 ^ Z.of_nat (String.length s) <= decimalFrom acc s
    /\ decimalFrom acc s < (acc + 1) * 10 ^ Z.of_nat (String.length s).
Proof.
  induction s as [| c s IH]; intros acc; cbn [allDigits decimalFrom String.length].
  - intros _ Hacc. simpl. lia.
  - intros H Hacc. apply andb_prop in H as [Hc Hs].
    unfold isDigit in Hc. apply andb_prop in Hc as [H1 H2].
    apply Z.leb_le in H1, H2.
    destruct (IH (10 * acc + (code c - 48)) Hs) as [Hlo Hhi]; [lia |].
    rewrite Nat2Z.inj_succ, Z.pow_succ_r by lia.
    assert (Hp : 0 < 10 ^ Z.of_nat (String.length s)) by (apply Z.pow_pos_nonneg; lia).
    split; nia.
Qed.

Lemma decimalValue_bounds (s : string) :
  allDigits s = true ->
  0 <= decimalValue s < 10 ^ Z.of_nat (String.length s).
Proof.
  intros H. destruct (decimalFrom_bounds s 0 H) as [Hlo Hhi]; [lia |].
  unfold decimalValue. lia.
Qed.

Lemma parseInt_decimal (s : string) :
  s <> EmptyString -> allDigits s = true -> (String.length s <= 9)%nat ->
  parseInt s = Some (decimalValue s).
Proof.
  intros Hne Hd Hlen. pose proof (decimalValue_bounds s Hd) as Hb.
  assert (Hpow : 10 ^ Z.of_nat (String.length s) <= 10 ^ 9)
    by (apply Z.pow_le_mono_r; lia).
  destruct s as [| c s]; [contradiction |].
  pose proof Hd as Hd'. cbn [allDigits] in Hd'. apply andb_prop in Hd' as [Hc _].
  unfold isDigit in Hc. apply andb_prop in Hc as [H1 H2]. apply Z.leb_le in H1, H2.
  unfold parseInt. cbn [skipSpaces].
  assert (Hsp : isSpace c = false).
  { unfold isSpace. apply orb_false_intro; [apply Z.eqb_neq; lia |].
    apply andb_false_intro2. apply Z.leb_gt. lia. }
  rewrite Hsp.
  destruct (Z.eqb_spec (code c) 45) as [E | _]; [lia |].
  destruct (Z.eqb_spec (code c) 43) as [E | _]; [lia |].
  rewrite (readDigits_decimal _ 0 0%nat Hd). fold (decimalValue (String c s)).
  cbn [String.length Nat.add Nat.eqb].
  assert (Hr : (INT_MIN <=? decimalValue (String c s))
               && (decimalValue (String c s) <=? INT_MAX) = true).
  { apply andb_true_intro. unfold INT_MIN, INT_MAX.
    split; apply Z.leb_le; change (10 ^ 9) with 1000000000 in Hpow; lia. }
  rewrite Hr. reflexivity.
Qed.

#[export] Instance DecimalStoi : StringToInt := {|
  stoi := parseInt;
  stoi_decimal := parseInt_decimal
|}.

(** ** Scenarios on the map of [main] *)

(** The hospital of [main]: four parking places under (444, 0), ambulance
    ids from 1, four seconds on scene. *)
Definition cityHospital : Hospital (PQ := ScanQueue) :=
  Hospital_new (pt 444 0) [pt 374 30; pt 409 30; pt 479 30; pt 514 30] 1 f4.

(** A hospital with a single ambulance, parked at (374, 30). *)
Definition smallHospital : Hospital (PQ := ScanQueue) :=
  Hospital_new (pt 444 0) [pt 374 30] 1 f4.

(** An emergency as the form of [main] files it: [id] and [createdAt] are
    left at their defaults. *)
Definition call (who : string) (house prio : Z) (loc : Vector2) : Emergency :=
  {| em_id := 0;
     patient := {| name := who; age := 40; severity := "High"; desc := "";
                   houseNumber := house |};
     location := loc; priority := prio; createdAt := 0; assignedHospital := 0 |}.

(** 1/64 s, close to the 60 frames per second of [main]. *)
Definition frame : float := lit 1 (-6).

(** The state an operation leaves, [d] if it does not return. *)
Definition orElse (d : Hospital (PQ := ScanQueue)) (o : option (Hospital (PQ := ScanQueue)))
    : Hospital (PQ := ScanQueue) :=
  match o with Some h => h | None => d end.

(** Two calls come in at the city hospital ... *)
Definition cityCalled1 : Hospital (PQ := ScanQueue) :=
  orElse cityHospital (receiveEmergency 1 (call "Ann" 4 2 (pt 300 320)) cityHospital).
Definition cityCalled : Hospital (PQ := ScanQueue) :=
  orElse cityHospital (receiveEmergency 2 (call "Bob" 7 1 (pt 500 520)) cityCalled1).
(** ... both are dispatched ... *)
Definition citySent : Hospital (PQ := ScanQueue) :=
  orElse cityHospital (dispatchVehicles 20 cityGrid cityCalled).
(** ... and 600 frames pass. *)
Definition cityLater : Hospital (PQ := ScanQueue) :=
  orElse cityHospital (runTicks 600 20 cityGrid frame citySent).

(** A call from the very place where the single ambulance is parked: it is
    dispatched, found on scene by the next update, and released by an update
    whose frame lasted four seconds. *)
Definition smallCalled : Hospital (PQ := ScanQueue) :=
  orElse smallHospital (receiveEmergency 1 (call "Cy" 2 1 (pt 374 30)) smallHospital).
Definition smallSent : Hospital (PQ := ScanQueue) :=
  orElse smallHospital (dispatchVehicles 20 cityGrid smallCalled).
Definition smallOnScene : Hospital (PQ := ScanQueue) :=
  orElse smallHospital (updateAfterMovement 20 cityGrid frame smallSent).
Definition smallReturning : Hospital (PQ := ScanQueue) :=
  orElse smallHospital (updateAfterMovement 20 cityGrid f4 smallOnScene).

(** Three calls for a single ambulance: priorities 1, 2, 1 in order of
    arrival. *)
Definition smallBacklog : Hospital (PQ := ScanQueue) :=
  orElse smallHospital
    (receiveEmergency 3 (call "Flo" 9 1 (pt 650 150))
       (orElse smallHospital
          (receiveEmergency 2 (call "Eve" 5 2 (pt 500 520))
             (orElse smallHospital
                (receiveEmergency 1 (call "Dan" 3 1 (pt 300 320)) smallHospital))))).

(** ... and the dispatch that follows: the ambulance goes to the older
    priority-1 call; the other priority-1 call and the priority-2 call stay
    queued, in that order. *)
Definition smallBacklogSent : Hospital (PQ := ScanQueue) :=
  orElse smallHospital (dispatchVehicles 20 cityGrid smallBacklog).

(** The round trip: a call at (300, 320) is dispatched, and 700 frames pass. *)
Definition smallTripStart : Hospital (PQ := ScanQueue) :=
  orElse smallHospital
    (dispatchVehicles 20 cityGrid
       (orElse smallHospital
          (receiveEmergency 1 (call "Hal" 3 2 (pt 300 320)) smallHospital))).
Definition smallTripEnd : Hospital (PQ := ScanQueue) :=
  orElse smallHospital (runTicks 700 20 cityGrid frame smallTripStart).

(** A call whose location is (200, 2e9). *)
Definition smallFarCall : Hospital (PQ := ScanQueue) :=
  orElse smallHospital
    (receiveEmergency 1 (call "Gil" 1 1 (pt 200 2000000000)) smallHospital).

(** A priority-1 call from (3e19, 0), then a priority-3 call from
    (300, 320): the single ambulance is idle, and in binary32 the square of
    its distance to the first call is beyond [FLT_MAX]. *)
Definition smallFarFirst : Hospital (PQ := ScanQueue) :=
  orElse smallHospital
    (receiveEmergency 2 (call "Ida" 4 3 (pt 300 320))
       (orElse smallHospital
          (receiveEmergency 1 (call "Jon" 9 1 (pt 30000000000000000000 0))
             smallHospital))).
Definition smallFarFirstSent : Hospital (PQ := ScanQueue) :=
  orElse smallHospital (dispatchVehicles 20 cityGrid smallFarFirst).

(** The same hospital with the queue of libstdc++.  A first call takes the
    ambulance; four calls of one priority then arrive under one reading of
    the clock, and a dispatch finds no ambulance for any of them. *)
Definition heapOrElse (d : Hospital (PQ := HeapQueue))
    (o : option (Hospital (PQ := HeapQueue))) : Hospital (PQ := HeapQueue) :=
  match o with Some h => h | None => d end.


(** *** A session at the form *)

(** Two houses, numbered 1 and 2, with their doors at (180, 200) and
    (380, 400). *)
Definition twoHouses : list House :=
  [ {| body := {| rect_x := of_int 160; rect_y := of_int 150;
                  width := of_int 40; height := of_int 50 |};
       house_id := 1; hasEmergency := false |};
    {| body := {| rect_x := of_int 360; rect_y := of_int 350;
                  width := of_int 40; height := of_int 50 |};
       house_id := 2; hasEmergency := false |} ].

Definition quiet : Input :=
  {| frameDt := frame; clicked := None; clock := 0; gameClock := 0; chars := [];
     backspacePressed := false; tabPressed := false |}.

(** A click on one of the fields or buttons, followed by the keys typed in
    the same frame. *)
Definition clickAt (c : Click) (keys : list Z) : Input :=
  {| frameDt := frame; clicked := Some c; clock := 1; gameClock := 1; chars := keys;
     backspacePressed := false; tabPressed := false |}.

Definition nowhere : Click :=
  {| onName := false; onAge := false; onDesc := false; onHouse := false;
     onSeverity := false; onSubmit := false; onClear := false |}.
Definition atName : Click :=
  {| onName := true; onAge := false; onDesc := false; onHouse := false;
     onSeverity := false; onSubmit := false; onClear := false |}.
Definition atAge : Click :=
  {| onName := false; onAge := true; onDesc := false; onHouse := false;
     onSeverity := false; onSubmit := false; onClear := false |}.
Definition atHouse : Click :=
  {| onName := false; onAge := false; onDesc := false; onHouse := true;
     onSeverity := false; onSubmit := false; onClear := false |}.
Definition atSubmit : Click :=
  {| onName := false; onAge := false; onDesc := false; onHouse := false;
     onSeverity := false; onSubmit := true; onClear := false |}.

Definition appOrElse (d : App (PQ := ScanQueue)) (o : option (App (PQ := ScanQueue)))
    : App (PQ := ScanQueue) :=
  match o with Some app => app | None => d end.

(** "Al", aged 40, of house 2 is typed into the form ... *)
Definition formFilled : App (PQ := ScanQueue) :=
  appOrElse (App_new twoHouses)
    (runFrames (SI := DecimalStoi) 20
       [clickAt atName [65; 108]; clickAt atAge [52; 120; 48]; clickAt atHouse [50]]
       (App_new twoHouses)).
(** ... the submit button is pressed ... *)
Definition formSubmitted : App (PQ := ScanQueue) :=
  appOrElse (App_new twoHouses)
    (runFrames (SI := DecimalStoi) 20 [clickAt atSubmit []] formFilled).
(** ... and the next frame sends an ambulance. *)
Definition formDispatched : App (PQ := ScanQueue) :=
  appOrElse (App_new twoHouses)
    (runFrames (SI := DecimalStoi) 20 [quiet] formSubmitted).

(** ** The router *)

Lemma roadLoop_S (fuel : nat) (bs : float) (e cur : Vector2) (route : list Vector2) :
  roadLoop (S fuel) bs e cur route =
  if offRoadTarget cur e
  then roadLoop fuel bs e (roadStep bs cur e) (route ++ [roadStep bs cur e])
  else Some route.
Proof. reflexivity. Qed.

Lemma roadLoop_O (bs : float) (e cur : Vector2) (route : list Vector2) :
  roadLoop O bs e cur route = if offRoadTarget cur e then None else Some route.
Proof. reflexivity. Qed.

(** The loop only ever appends to the path it was given. *)
Lemma roadLoop_extends (fuel : nat) (bs : float) (e : Vector2) :
  forall cur route out,
    roadLoop fuel bs e cur route = Some out -> exists more, out = route ++ more.
Proof.
  induction fuel as [| fuel IH]; intros cur route out.
  - rewrite roadLoop_O. destruct (offRoadTarget cur e); [discriminate |].
    intros [= <-]. exists []. symmetry. apply app_nil_r.
  - rewrite roadLoop_S. destruct (offRoadTarget cur e).
    + intros H. apply IH in H as [more ->].
      exists (roadStep bs cur e :: more). rewrite <- app_assoc. reflexivity.
    + intros [= <-]. exists []. symmetry. apply app_nil_r.
Qed.

(** [|v - v| > 1] is false for every float, NaN and infinities included. *)
Lemma fsub_diag_aligned (v : float) : fgt (fabsf (fsub v v)) f1 = false.
Proof.
  destruct v as [s | s | | s m e]; try (destruct s; reflexivity); try reflexivity.
  unfold fsub, SFsub. rewrite Z.sub_diag. reflexivity.
Qed.

Lemma offRoadTarget_diag (e : Vector2) : offRoadTarget e e = false.
Proof. unfold offRoadTarget. rewrite !fsub_diag_aligned. reflexivity. Qed.

Lemma roadLoop_aligned (fuel : nat) (bs : float) (e cur : Vector2) (route : list Vector2) :
  offRoadTarget cur e = false -> roadLoop fuel bs e cur route = Some route.
Proof.
  intros H. destruct fuel; [rewrite roadLoop_O | rewrite roadLoop_S]; rewrite H; reflexivity.
Qed.

(** More fuel never changes a route that was already produced. *)
Lemma roadLoop_fuel_mono (fuel : nat) (bs : float) (e : Vector2) :
  forall cur route out,
    roadLoop fuel bs e cur route = Some out ->
    roadLoop (S fuel) bs e cur route = Some out.
Proof.
  induction fuel as [| fuel IH]; intros cur route out.
  - rewrite roadLoop_O, roadLoop_S. destruct (offRoadTarget cur e); [discriminate | auto].
  - rewrite (roadLoop_S (S fuel)), (roadLoop_S fuel).
    destruct (offRoadTarget cur e); [apply IH | auto].
Qed.

(** A route returned under one bound is returned under every larger bound. *)
Lemma findPathOnRoads_fuel_mono (fuel fuel' : nat) (start end_ : Vector2) (g : Grid)
    (route : list Vector2) :
  (fuel <= fuel')%nat ->
  findPathOnRoads fuel start end_ g = Some route ->
  findPathOnRoads fuel' start end_ g = Some route.
Proof.
  intros Hle. unfold findPathOnRoads.
  destruct (roadLoop fuel _ _ _ _) as [out |] eqn:Hloop; [| discriminate].
  intros [= <-].
  assert (H : roadLoop fuel' (blockSize g) (findNearestRoadPoint end_ g)
                (findNearestRoadPoint start g) [findNearestRoadPoint start g] = Some out).
  { induction Hle as [| m _ IH]; [exact Hloop | apply roadLoop_fuel_mono, IH]. }
  rewrite H. reflexivity.
Qed.

(** A route across the whole map of [main]: six cell steps between the
    snapped start and the raw end. *)
Example findPathOnRoads_across_city :
  exists route,
    findPathOnRoads 6 (pt 110 95) (pt 690 712) cityGrid = Some route
    /\ head route = Some (pt 100 100)
    /\ last route = Some (pt 690 712)
    /\ length route = 8%nat.
Proof. eexists. split; [vm_compute; reflexivity |]. repeat split. Qed.

Lemma scanRow_snapInv (target : Vector2) (g : Grid) (iy : Z) :
  forall seen st,
    snapInv target seen st ->
    snapInv target (seen ++ rowIntersections g iy) (scanRow target g st iy).
Proof.
  unfold scanRow, rowIntersections.
  induction (seqZ 0 (blocksX g + 1)) as [| ix l IH]; intros seen st Hst; simpl.
  - rewrite app_nil_r. exact Hst.
  - replace (seen ++ inter g ix iy :: map (fun ix0 => inter g ix0 iy) l)
      with ((seen ++ [inter g ix iy]) ++ map (fun ix0 => inter g ix0 iy) l)
      by (rewrite <- app_assoc; reflexivity).
    apply IH. unfold scanIntersection.
    destruct (flt (distance target (inter g ix iy)) (fst st)) eqn:Hlt.
    + right. simpl. apply in_or_app. right. left. reflexivity.
    + destruct Hst as [[-> Hall] | Hin].
      * left. split; [reflexivity |]. apply Forall_app. split; [exact Hall |].
        constructor; [exact Hlt | constructor].
      * right. apply in_or_app. left. exact Hin.
Qed.

(** The scan returns an intersection as soon as one lies nearer than 1e9;
    otherwise it returns the target itself. *)
Lemma findNearestRoadPoint_cases (target : Vector2) (g : Grid) :
  (findNearestRoadPoint target g = target /\ ~ inSnapRange g target)
  \/ onLattice g (findNearestRoadPoint target g).
Proof.
  unfold findNearestRoadPoint, onLattice, inSnapRange, intersections.
  assert (H : forall ys seen st,
             snapInv target seen st ->
             snapInv target (seen ++ flat_map (rowIntersections g) ys)
                     (fold_left (scanRow target g) ys st)).
  { induction ys as [| iy ys IH]; intros seen st Hst; simpl.
    - rewrite app_nil_r. exact Hst.
    - rewrite app_assoc. apply IH, scanRow_snapInv, Hst. }
  specialize (H (seqZ 0 (blocksY g + 1)) [] (f1e9, target)). simpl in H.
  destruct H as [[-> Hall] | Hin]; [left; split; [reflexivity | constructor] | |].
  - left. split; [reflexivity |]. intros Hex. destruct Hex as (p & Hp & Hlt).
    rewrite Forall_forall in Hall. apply list_elem_of_In, Hall in Hp. congruence.
  - right. exact Hin.
Qed.

Lemma inSnapRange_onLattice (target : Vector2) (g : Grid) :
  inSnapRange g target -> onLattice g (findNearestRoadPoint target g).
Proof.
  intros Hr. destruct (findNearestRoadPoint_cases target g) as [[_ Hn] | H]; tauto.
Qed.

(** On the map of [main] the loop needs at most six iterations between any
    two intersections. *)
Lemma roadLoop_city (s e : Vector2) :
  onLattice cityGrid s -> onLattice cityGrid e ->
  exists route, roadLoop 6 (blockSize cityGrid) e s [s] = Some route
                /\ (length route <= 7)%nat.
Proof.
  intros Hs He. vm_compute in Hs, He.
  repeat (destruct Hs as [<- | Hs]); try contradiction;
    repeat (destruct He as [<- | He]); try contradiction;
    (eexists; split; [vm_compute; reflexivity | simpl; lia]).
Qed.

Lemma findPathOnRoads_city_total (start end_ : Vector2) :
  inSnapRange cityGrid start -> inSnapRange cityGrid end_ ->
  exists route, findPathOnRoads 6 start end_ cityGrid = Some route
                /\ (length route <= 8)%nat.
Proof.
  intros Hs He. apply inSnapRange_onLattice in Hs, He.
  destruct (roadLoop_city _ _ Hs He) as (route & Hr & Hlen).
  unfold findPathOnRoads. rewrite Hr. eexists. split; [reflexivity |].
  rewrite length_app. simpl. lia.
Qed.

(** Around an end point left at (200, 2e9) the cursor alternates between
    x = 100 and x = 300 on the row y = 100, and the guard never fails. *)
Lemma roadLoop_far_cycle (fuel : nat) :
  forall route,
    roadLoop fuel (of_int 200) (pt 200 2000000000) (pt 100 100) route = None
    /\ roadLoop fuel (of_int 200) (pt 200 2000000000) (pt 300 100) route = None.
Proof.
  assert (G0 : offRoadTarget (pt 100 100) (pt 200 2000000000) = true)
    by (vm_compute; reflexivity).
  assert (G1 : offRoadTarget (pt 300 100) (pt 200 2000000000) = true)
    by (vm_compute; reflexivity).
  assert (S0 : roadStep (of_int 200) (pt 100 100) (pt 200 2000000000) = pt 300 100)
    by (vm_compute; reflexivity).
  assert (S1 : roadStep (of_int 200) (pt 300 100) (pt 200 2000000000) = pt 100 100)
    by (vm_compute; reflexivity).
  induction fuel as [| fuel IH]; intros route.
  - rewrite !roadLoop_O, G0, G1. split; reflexivity.
  - rewrite !roadLoop_S, G0, G1, S0, S1. split; apply IH.
Qed.

(** C8 fails on the code: a point at least 1e9 away from every intersection is
    not snapped at all ([minDist] starts at [1e9f], not at infinity), and the
    loop then steps back and forth around it for ever.  Here the end point is
    (200, 2e9) on the map of [main]; the cursor alternates between x = 100
    and x = 300, and no bound on the iterations yields a route. *)
Theorem findPathOnRoads_far_point_diverges :
  findNearestRoadPoint (pt 200 2000000000) cityGrid = pt 200 2000000000
  /\ forall fuel,
       findPathOnRoads fuel (pt 100 100) (pt 200 2000000000) cityGrid = None.
Proof.
  assert (He : findNearestRoadPoint (pt 200 2000000000) cityGrid = pt 200 2000000000)
    by (vm_compute; reflexivity).
  split; [exact He |].
  assert (Hs : findNearestRoadPoint (pt 100 100) cityGrid = pt 100 100)
    by (vm_compute; reflexivity).
  intros fuel. unfold findPathOnRoads. rewrite He, Hs.
  change (blockSize cityGrid) with (of_int 200).
  rewrite (proj1 (roadLoop_far_cycle fuel _)). reflexivity.
Qed.

(** Rounding alone can stall the loop as well, with both end points snapped:
    on a lattice of 3-unit cells that starts at x = 1e8, where binary32 has a
    spacing of 8, adding one cell to the cursor rounds back to the cursor. *)
Lemma findPathOnRoads_absorbed_step_diverges :
  findNearestRoadPoint (pt 100000000 0) fineGrid = inter fineGrid 0 0
  /\ findNearestRoadPoint (pt 100000032 0) fineGrid = inter fineGrid 10 0
  /\ forall fuel,
       findPathOnRoads fuel (pt 100000000 0) (pt 100000032 0) fineGrid = None.
Proof.
  assert (Hs : findNearestRoadPoint (pt 100000000 0) fineGrid = pt 100000000 0)
    by (vm_compute; reflexivity).
  assert (He : findNearestRoadPoint (pt 100000032 0) fineGrid = pt 100000032 0)
    by (vm_compute; reflexivity).
  split; [vm_compute; reflexivity |]. split; [vm_compute; reflexivity |].
  assert (G : offRoadTarget (pt 100000000 0) (pt 100000032 0) = true)
    by (vm_compute; reflexivity).
  assert (S : roadStep f3 (pt 100000000 0) (pt 100000032 0) = pt 100000000 0)
    by (vm_compute; reflexivity).
  assert (Hstall : forall fuel route,
             roadLoop fuel f3 (pt 100000032 0) (pt 100000000 0) route = None).
  { induction fuel as [| fuel IH]; intros route.
    - rewrite roadLoop_O, G. reflexivity.
    - rewrite roadLoop_S, G, S. apply IH. }
  intros fuel. unfold findPathOnRoads. rewrite He, Hs.
  change (blockSize fineGrid) with f3. rewrite Hstall. reflexivity.
Qed.

(** C6: a route that the router returns starts at the snapped start, ends
    with the raw, un-snapped end point and has at least two waypoints; when
    start and end snap to the same point the router returns, whatever the
    bound on its loop, exactly [snappedStart; end]; and on the map of [main]
    it returns such a route, of at most eight waypoints, for every start and
    end within snapping range - from the parking place (374, 30) to
    (500, 520) the route shown.  It does not produce a route for every start
    and end: the end point (200, 2e9) is not snapped ([minDist] starts at
    [1e9f]), the loop never reaches it, and no bound on the iterations yields
    a waypoint sequence.  This is the defect shown for C8. *)
Theorem findPathOnRoads_endpoints :
  (forall fuel start end_ g route,
      findPathOnRoads fuel start end_ g = Some route ->
      head route = Some (findNearestRoadPoint start g)
      /\ last route = Some end_
      /\ (2 <= length route)%nat)
  /\ (forall fuel start end_ g,
        findNearestRoadPoint start g = findNearestRoadPoint end_ g ->
        findPathOnRoads fuel start end_ g
        = Some [findNearestRoadPoint start g; end_])
  /\ (forall fuel start end_,
        (6 <= fuel)%nat ->
        inSnapRange cityGrid start -> inSnapRange cityGrid end_ ->
        exists route,
          findPathOnRoads fuel start end_ cityGrid = Some route
          /\ head route = Some (findNearestRoadPoint start cityGrid)
          /\ last route = Some end_
          /\ (2 <= length route <= 8)%nat)
  /\ findPathOnRoads 6 (pt 374 30) (pt 500 520) cityGrid
     = Some [pt 300 100; pt 500 100; pt 500 300; pt 500 500; pt 500 520]
  /\ findNearestRoadPoint (pt 200 2000000000) cityGrid = pt 200 2000000000
  /\ (forall fuel,
        findPathOnRoads fuel (pt 374 30) (pt 200 2000000000) cityGrid = None).
Proof.
  assert (Hends : forall fuel start end_ g route,
             findPathOnRoads fuel start end_ g = Some route ->
             head route = Some (findNearestRoadPoint start g)
             /\ last route = Some end_
             /\ (2 <= length route)%nat).
  { intros fuel start end_ g route. unfold findPathOnRoads.
    destruct (roadLoop _ _ _ _ _) as [out |] eqn:Hloop; [| discriminate].
    intros [= <-]. apply roadLoop_extends in Hloop as [more ->].
    split; [reflexivity |]. split; [apply last_snoc |].
    rewrite !length_app. simpl. lia. }
  split; [exact Hends |]. split; [| split; [| split; [| split]]].
  - intros fuel start end_ g E. unfold findPathOnRoads.
    rewrite <- E, roadLoop_aligned by apply offRoadTarget_diag. reflexivity.
  - intros fuel start end_ Hfuel Hs He.
    destruct (findPathOnRoads_city_total start end_ Hs He) as (route & Hr & Hlen).
    apply (findPathOnRoads_fuel_mono 6 fuel) in Hr; [| exact Hfuel].
    exists route. destruct (Hends _ _ _ _ _ Hr) as (Hh & Hl & H2).
    repeat (split; [assumption |]). lia.
  - vm_compute. reflexivity.
  - vm_compute. reflexivity.
  - assert (He : findNearestRoadPoint (pt 200 2000000000) cityGrid = pt 200 2000000000)
      by (vm_compute; reflexivity).
    assert (Hs : findNearestRoadPoint (pt 374 30) cityGrid = pt 300 100)
      by (vm_compute; reflexivity).
    intros fuel. unfold findPathOnRoads. rewrite He, Hs.
    change (blockSize cityGrid) with (of_int 200).
    rewrite (proj2 (roadLoop_far_cycle fuel _)). reflexivity.
Qed.

(** ** Comparison of floats *)

Ltac cmp_cases :=
  repeat match goal with
  | |- context [Pos.compare_cont Eq ?a ?b] =>
      change (Pos.compare_cont Eq a b) with (Pos.compare a b)
  | H : context [Pos.compare_cont Eq ?a ?b] |- _ =>
      change (Pos.compare_cont Eq a b) with (Pos.compare a b) in H
  | |- context [Z.compare ?a ?b] => destruct (Z.compare_spec a b); simpl
  | H : context [Z.compare ?a ?b] |- _ => destruct (Z.compare_spec a b); simpl in H
  | |- context [Pos.compare ?a ?b] => destruct (Pos.compare_spec a b); simpl
  | H : context [Pos.compare ?a ?b] |- _ => destruct (Pos.compare_spec a b); simpl in H
  end.

Ltac float_cases a b c :=
  destruct a as [[] | [] | | [] ? ?], b as [[] | [] | | [] ? ?], c as [[] | [] | | [] ? ?];
  simpl; try discriminate; try reflexivity;
  intros; cmp_cases; try discriminate; try reflexivity; try lia.

Lemma flt_irrefl (a : float) : flt a a = false.
Proof.
  unfold flt, SFltb. destruct a as [[] | [] | | [] m e]; simpl; try reflexivity;
    cmp_cases; try reflexivity; lia.
Qed.

Lemma flt_trans (a b c : float) : flt a b = true -> flt b c = true -> flt a c = true.
Proof. unfold flt, SFltb. float_cases a b c. Qed.

(** [a == b] and [b < c] give [a < c]; [SFeqb] is the [==] of C++ ([+0] and
    [-0] are equal, NaN equals nothing). *)
Lemma feq_flt (a b c : float) : SFeqb a b = true -> flt b c = true -> flt a c = true.
Proof. unfold flt, SFltb, SFeqb. float_cases a b c. Qed.

(** ** Nearest available ambulance *)

Lemma scanAmbulance_inv (target : Vector2) (seen : list Ambulance)
    (st : option nat * float) (a : Ambulance) :
  scanInv target seen st ->
  scanInv target (seen ++ [a]) (scanAmbulance target st (length seen) a).
Proof.
  intros [Hmin Hbest]. unfold scanAmbulance. fold (distTo target a).
  destruct (available a) eqn:Ha.
  - destruct (flt (distTo target a) (snd st)) eqn:Hlt.
    + (* a becomes the best *)
      split; simpl.
      * intros j b Hj Hb. apply lookup_snoc_Some in Hj as [[_ Hj] | [_ <-]].
        -- destruct (flt (distTo target b) (distTo target a)) eqn:E; [| reflexivity].
           rewrite <- (Hmin j b Hj Hb). symmetry. eapply flt_trans; eassumption.
        -- apply flt_irrefl.
      * exists a. split; [apply lookup_snoc_Some; right; auto |].
        split; [exact Ha |]. split; [reflexivity |]. split.
        -- destruct (fst st) as [k |].
           ++ destruct Hbest as (a0 & _ & _ & Hd & Hmax & _).
              rewrite Hd in Hlt. eapply flt_trans; eassumption.
           ++ rewrite Hbest in Hlt. exact Hlt.
        -- intros j b Hj Hb Heq. apply lookup_snoc_Some in Hj as [[_ Hj] | [-> _]]; [| lia].
           pose proof (feq_flt _ _ _ Heq Hlt) as C.
           rewrite (Hmin j b Hj Hb) in C. discriminate.
    + (* the best stays *)
      split.
      * intros j b Hj Hb. apply lookup_snoc_Some in Hj as [[_ Hj] | [_ <-]]; eauto.
      * destruct (fst st) as [k |]; [| exact Hbest].
        destruct Hbest as (a0 & Hk & Ha0 & Hd & Hmax & Hfirst).
        exists a0. split; [apply lookup_app_l_Some; exact Hk |].
        repeat (split; [assumption |]).
        intros j b Hj Hb Heq. apply lookup_snoc_Some in Hj as [[_ Hj] | [-> _]]; eauto.
        apply lookup_lt_Some in Hk. lia.
  - (* a is not available *)
    split.
    + intros j b Hj Hb. apply lookup_snoc_Some in Hj as [[_ Hj] | [_ <-]]; eauto.
      congruence.
    + destruct (fst st) as [k |]; [| exact Hbest].
      destruct Hbest as (a0 & Hk & Ha0 & Hd & Hmax & Hfirst).
      exists a0. split; [apply lookup_app_l_Some; exact Hk |].
      repeat (split; [assumption |]).
      intros j b Hj Hb Heq. apply lookup_snoc_Some in Hj as [[_ Hj] | [_ <-]]; eauto.
      congruence.
Qed.

Lemma nearestFrom_inv (target : Vector2) (rest : list Ambulance) :
  forall seen st,
    scanInv target seen st ->
    scanInv target (seen ++ rest) (nearestFrom target (length seen) rest st).
Proof.
  induction rest as [| a rest IH]; intros seen st Hinv; simpl.
  - rewrite app_nil_r. exact Hinv.
  - apply (scanAmbulance_inv _ _ _ a) in Hinv. apply IH in Hinv.
    rewrite length_app, Nat.add_1_r, <- app_assoc in Hinv. exact Hinv.
Qed.

Lemma findNearestAvailableAmbulance_spec (target : Vector2) (ambs : list Ambulance) :
  match findNearestAvailableAmbulance target ambs with
  | Some idx => nearestAvailable target ambs idx
  | None => forall j b, ambs !! j = Some b -> available b = true ->
                        flt (distTo target b) FLT_MAX = false
  end.
Proof.
  unfold findNearestAvailableAmbulance.
  assert (H0 : scanInv target [] (None, FLT_MAX)).
  { split; [intros j b Hj; rewrite lookup_nil in Hj; discriminate | reflexivity]. }
  apply (nearestFrom_inv target ambs) in H0. simpl in H0.
  destruct (nearestFrom target 0 ambs (None, FLT_MAX)) as [best bestd].
  destruct H0 as [Hmin Hbest]. simpl in *.
  destruct best as [k |].
  - destruct Hbest as (a & Hk & Ha & Hd & Hmax & Hfirst).
    exists a. subst bestd. auto.
  - subst bestd. exact Hmin.
Qed.


(** ** The queue: draining, pushing back *)

Section QueueFacts.

Context {PQ : PriorityQueue}.

Lemma pq_top_pop_length (n : nat) (q : pq) :
  S n = length (pq_elements q) ->
  exists e, pq_top q = Some e
    /\ pq_elements q ≡ₚ e :: pq_elements (pq_pop q)
    /\ Forall (fun e' => EmergencyCompare e e' = false) (pq_elements q)
    /\ n = length (pq_elements (pq_pop q)).
Proof.
  intros Hn.
  destruct (pq_top_pop_spec q) as (e & Htop & Hperm & Hbest).
  { intros E. rewrite E in Hn. discriminate. }
  exists e. repeat (split; [assumption |]).
  apply Permutation_length in Hperm. simpl in Hperm. lia.
Qed.

Lemma peekLoop_acc (n : nat) :
  forall (q : pq) out, peekLoop n q out = out ++ peekLoop n q [].
Proof.
  induction n as [| n IH]; intros q out; simpl.
  - symmetry. apply app_nil_r.
  - destruct (pq_top q) as [e |]; [| symmetry; apply app_nil_r].
    rewrite (IH _ (out ++ [e])), (IH _ [e]), <- app_assoc. reflexivity.
Qed.

Lemma peekLoop_S (n : nat) (q : pq) (e : Emergency) :
  pq_top q = Some e -> peekLoop (S n) q [] = e :: peekLoop n (pq_pop q) [].
Proof. intros H. simpl. rewrite H. apply (peekLoop_acc n _ [e]). Qed.

(** Popping a queue to exhaustion lists its elements best first. *)
Lemma peekLoop_sorted (n : nat) :
  forall q : pq,
    n = length (pq_elements q) ->
    peekLoop n q [] ≡ₚ pq_elements q /\ StronglySorted rankLe (peekLoop n q []).
Proof.
  induction n as [| n IH]; intros q Hn.
  - simpl. destruct (pq_elements q); [| discriminate]. split; constructor.
  - destruct (pq_top_pop_length n q Hn) as (e & Htop & Hperm & Hbest & Hn').
    rewrite (peekLoop_S _ _ _ Htop).
    destruct (IH _ Hn') as [Hp Hs]. split.
    + rewrite Hperm, Hp. reflexivity.
    + constructor; [exact Hs |].
      rewrite Hp. rewrite Hperm in Hbest. inversion Hbest as [| ? ? _ Hrest]; subst.
      eapply Forall_impl; [exact Hrest |]. intros c. apply EmergencyCompare_false.
Qed.

Lemma peekAllPending_sorted (h : Hospital) :
  peekAllPending h ≡ₚ pq_elements (queue_ h)
  /\ StronglySorted rankLe (peekAllPending h).
Proof. apply peekLoop_sorted, pq_size_spec. Qed.

(** The loop [for (auto &e : backlog) queue_.push(e)]. *)
Lemma push_backlog_elements (backlog : list Emergency) :
  forall q : pq,
    pq_elements (fold_left (fun q e => pq_push e q) backlog q)
    ≡ₚ backlog ++ pq_elements q.
Proof.
  induction backlog as [| e backlog IH]; intros q; simpl; [reflexivity |].
  rewrite IH, pq_push_spec. symmetry. apply Permutation_middle.
Qed.

(** The loop of [dispatchVehicles] over the queue is the pass over the list
    of emergencies in popping order, and leaves the queue empty. *)
Lemma dispatchLoop_pass (fuel : nat) (g : Grid) (n : nat) :
  forall (q : pq) st,
    n = length (pq_elements q) ->
    exists q', pq_elements q' = []
      /\ dispatchLoop fuel g n q st
         = (fun st' => (q', st')) <$> dispatchPass fuel g (peekLoop n q []) st.
Proof.
  induction n as [| n IH]; intros q st Hn.
  - exists q. split; [destruct (pq_elements q); [reflexivity | discriminate] |].
    reflexivity.
  - destruct (pq_top_pop_length n q Hn) as (e & Htop & _ & _ & Hn').
    rewrite (peekLoop_S _ _ _ Htop). simpl. rewrite Htop.
    destruct (dispatchOne fuel g e st) as [st' |].
    + apply IH, Hn'.
    + destruct (IH _ st Hn') as (q' & Hq' & _). exists q'. split; [exact Hq' | reflexivity].
Qed.

Lemma dispatchPass_app (fuel : nat) (g : Grid) (l1 l2 : list Emergency) :
  forall st,
    dispatchPass fuel g (l1 ++ l2) st
    = match dispatchPass fuel g l1 st with
      | Some st' => dispatchPass fuel g l2 st'
      | None => None
      end.
Proof.
  induction l1 as [| e l1 IH]; intros st; simpl; [reflexivity |].
  destruct (dispatchOne fuel g e st); [apply IH | reflexivity].
Qed.

(** The two outcomes of one iteration: the emergency joins the backlog and
    the roster is untouched, or the nearest available ambulance is sent. *)
Lemma dispatchOne_cases (fuel : nat) (g : Grid) (em : Emergency)
    (ambs ambs' : list Ambulance) (backlog backlog' : list Emergency) :
  dispatchOne fuel g em (ambs, backlog) = Some (ambs', backlog') ->
  (findNearestAvailableAmbulance (location em) ambs = None
   /\ ambs' = ambs /\ backlog' = backlog ++ [em])
  \/ (exists idx a route,
        findNearestAvailableAmbulance (location em) ambs = Some idx
        /\ nearestAvailable (location em) ambs idx
        /\ ambs !! idx = Some a
        /\ findPathOnRoads fuel (pos a) (location em) g = Some route
        /\ ambs' = <[idx := sendToScene a route em]> ambs
        /\ backlog' = backlog).
Proof.
  unfold dispatchOne.
  pose proof (findNearestAvailableAmbulance_spec (location em) ambs) as Hspec.
  destruct (findNearestAvailableAmbulance (location em) ambs) as [idx |].
  - pose proof Hspec as (a & Hk & _). rewrite Hk.
    destruct (findPathOnRoads fuel (pos a) (location em) g) as [route |] eqn:Hroute;
      [| discriminate].
    intros [= <- <-]. right. exists idx, a, route.
    split; [reflexivity |]. split; [exact Hspec |]. split; [exact Hk |]. auto.
  - intros [= <- <-]. left. auto.
Qed.

End QueueFacts.

(** ** Invariants of the dispatch state *)

Lemma assignedIds_app (l1 l2 : list Ambulance) :
  assignedIds (l1 ++ l2) = assignedIds l1 ++ assignedIds l2.
Proof.
  induction l1 as [| a l1 IH]; simpl; [reflexivity |].
  destruct (assignedEmergencyId a =? -1); rewrite IH; reflexivity.
Qed.

Lemma assignedIds_insert (ambs : list Ambulance) (idx : nat) (a a' : Ambulance) :
  ambs !! idx = Some a ->
  assignedEmergencyId a = -1 ->
  assignedEmergencyId a' <> -1 ->
  assignedIds (<[idx := a']> ambs) ≡ₚ assignedEmergencyId a' :: assignedIds ambs.
Proof.
  intros Hk Ha Ha'.
  rewrite insert_take_drop by (eapply lookup_lt_Some; exact Hk).
  rewrite <- (take_drop_middle ambs idx a Hk) at 3.
  rewrite !assignedIds_app. simpl.
  rewrite Ha. simpl. destruct (Z.eqb_spec (assignedEmergencyId a') (-1)); [contradiction |].
  symmetry. apply Permutation_middle.
Qed.

Lemma sendToScene_ok (a : Ambulance) (route : list Vector2) (em : Emergency) :
  1 <= em_id em -> ambulanceOk (sendToScene a route em).
Proof. intros H. repeat split; simpl; try lia; discriminate. Qed.

Lemma available_idle (a : Ambulance) : available a = true -> status a = IDLE.
Proof. unfold available. destruct (status a); [reflexivity | discriminate ..]. Qed.

Lemma moveAmbulance_fields (dt : float) (a : Ambulance) :
  status (moveAmbulance dt a) = status a
  /\ busy (moveAmbulance dt a) = busy a
  /\ assignedEmergencyId (moveAmbulance dt a) = assignedEmergencyId a
  /\ assignedPatientName (moveAmbulance dt a) = assignedPatientName a
  /\ assignedHouseId (moveAmbulance dt a) = assignedHouseId a
  /\ path (moveAmbulance dt a) = path a
  /\ (currentPathIndex (moveAmbulance dt a) = currentPathIndex a
      \/ (path a <> [] /\ currentPathIndex (moveAmbulance dt a) = currentPathIndex a + 1)).
Proof.
  assert (Hne : negb (Nat.eqb (length (path a)) 0) = true -> path a <> []).
  { intros H E. rewrite E in H. discriminate. }
  unfold moveAmbulance.
  destruct (negb (Nat.eqb (length (path a)) 0)); simpl.
  - destruct (currentPathIndex a <? pathSize a).
    + destruct (waypoint (path a) (currentPathIndex a)).
      * match goal with |- context [if ?c then _ else _] => destruct c end; simpl;
          repeat (split; [reflexivity |]); [left; reflexivity |].
        right. split; [apply Hne; reflexivity | reflexivity].
      * simpl. repeat (split; [reflexivity |]). left; reflexivity.
    + destruct (status a) eqn:Hs; simpl; rewrite ?Hs;
        try (repeat (split; [reflexivity |]); left; reflexivity).
      match goal with |- context [if ?c then _ else _] => destruct c end; simpl;
        rewrite ?Hs; repeat (split; [reflexivity |]); left; reflexivity.
  - destruct (status a) eqn:Hs; simpl; rewrite ?Hs;
      try (repeat (split; [reflexivity |]); left; reflexivity).
    match goal with |- context [if ?c then _ else _] => destruct c end; simpl;
      rewrite ?Hs; repeat (split; [reflexivity |]); left; reflexivity.
Qed.

Lemma moveAmbulance_ok (dt : float) (a : Ambulance) :
  ambulanceOk a -> ambulanceOk (moveAmbulance dt a).
Proof.
  intros (Hb & Hid & Hidle & Hidx).
  destruct (moveAmbulance_fields dt a) as (Es & Eb & Ei & En & Eh & Ep & Ec).
  unfold ambulanceOk. rewrite Es, Eb, Ei, En, Eh, Ep.
  split; [exact Hb |]. split; [exact Hid |]. split.
  - intros Hs. destruct (Hidle Hs) as [Hp H0]. split; [exact Hp |].
    destruct Ec as [-> | [Hne _]]; [exact H0 | contradiction].
  - destruct Ec as [-> | [_ ->]]; lia.
Qed.

Lemma assignedIds_move (dt : float) (ambs : list Ambulance) :
  assignedIds (map (moveAmbulance dt) ambs) = assignedIds ambs.
Proof.
  induction ambs as [| a ambs IH]; simpl; [reflexivity |].
  destruct (moveAmbulance_fields dt a) as (_ & _ & -> & _). rewrite IH. reflexivity.
Qed.

(** One ambulance through the state machine: the invariant is kept, and the
    assignment is either left alone or resolved (cleared, and counted). *)
Lemma updateAmbulance_ok (fuel : nat) (g : Grid) (frameTime duration : float)
    (a a' : Ambulance) (cnt cnt' : Z) :
  ambulanceOk a ->
  updateAmbulance fuel g frameTime duration a cnt = Some (a', cnt') ->
  ambulanceOk a'
  /\ ((assignedEmergencyId a' = assignedEmergencyId a /\ cnt' = cnt)
      \/ (assignedEmergencyId a <> -1 /\ assignedEmergencyId a' = -1
          /\ cnt' = cnt + 1)).
Proof.
  intros (Hb & Hid & Hidle & Hidx). unfold updateAmbulance, ambulanceOk.
  destruct (status a) eqn:Hs.
  - intros [= <- <-]. rewrite Hs. auto 10.
  - destruct (currentPathIndex a >=? pathSize a).
    + intros [= <- <-]. simpl. split; [| auto]. repeat split; auto; discriminate.
    + destruct (last (path a)) as [targ |].
      * destruct (flt (distance targ (pos a)) f4); intros [= <- <-]; simpl.
        -- split; [| auto]. repeat split; auto; try discriminate. unfold pathSize. lia.
        -- rewrite Hs. auto 10.
      * intros [= <- <-]. rewrite Hs. auto 10.
  - simpl. destruct (fle (fsub (onSceneTimer a) frameTime) f0).
    + destruct (findPathOnRoads _ _ _ _) as [route |]; [| discriminate].
      intros [= <- <-]. simpl. split.
      * repeat split; auto; try discriminate; lia.
      * right. repeat split; auto. lia.
    + intros [= <- <-]. simpl. rewrite Hs. split; [| auto].
      repeat split; auto; discriminate.
  - destruct (flt (distance (parkingPos a) (pos a)) f4 || (currentPathIndex a >=? pathSize a));
      intros [= <- <-]; simpl.
    + destruct Hid as (H1 & H2 & H3). split; [| auto]. repeat split; auto; lia.
    + rewrite Hs. auto 10.
Qed.

Lemma sublist_Forall {A} (P : A -> Prop) (l1 l2 : list A) :
  l1 `sublist_of` l2 -> Forall P l2 -> Forall P l1.
Proof.
  intros Hsub H. rewrite Forall_forall in *. intros c Hc. apply H.
  eapply elem_of_sublist; eassumption.
Qed.

Lemma updateLoop_ok (fuel : nat) (g : Grid) (frameTime duration : float)
    (ambs : list Ambulance) :
  forall cnt ambs' cnt',
    Forall ambulanceOk ambs ->
    updateLoop fuel g frameTime duration ambs cnt = Some (ambs', cnt') ->
    Forall ambulanceOk ambs'
    /\ assignedIds ambs' `sublist_of` assignedIds ambs
    /\ Z.of_nat (length (assignedIds ambs')) + cnt'
       = Z.of_nat (length (assignedIds ambs)) + cnt
    /\ cnt <= cnt'.
Proof.
  induction ambs as [| a ambs IH]; intros cnt ambs' cnt' Hok; simpl.
  - intros [= <- <-]. simpl. repeat split; [constructor | constructor | lia].
  - inversion Hok as [| ? ? Ha Hrest]; subst.
    destruct (updateAmbulance fuel g frameTime duration a cnt) as [[a1 c1] |] eqn:Hu;
      [| discriminate].
    destruct (updateLoop fuel g frameTime duration ambs c1) as [[rest' c2] |] eqn:Hl;
      [| discriminate].
    intros [= <- <-].
    destruct (updateAmbulance_ok _ _ _ _ _ _ _ _ Ha Hu) as [Ha1 Hcase].
    destruct (IH _ _ _ Hrest Hl) as (Hr & Hsub & Hcnt & Hle).
    split; [constructor; assumption |]. simpl.
    destruct Hcase as [[Eid ->] | (Hne & Eid & ->)]; rewrite Eid.
    + destruct (assignedEmergencyId a =? -1); simpl.
      * repeat split; [exact Hsub | lia | lia].
      * repeat split; [apply sublist_skip; exact Hsub | lia | lia].
    + destruct (Z.eqb_spec (assignedEmergencyId a) (-1)); [contradiction |].
      change (-1 =? -1) with true. cbv iota. simpl.
      repeat split; [apply sublist_cons; exact Hsub | lia | lia].
Qed.

Section Invariant.

Context {PQ : PriorityQueue}.

Lemma parkAmbulances_ok (parkingPositions : list Vector2) :
  forall aid,
    Forall ambulanceOk (parkAmbulances aid parkingPositions)
    /\ assignedIds (parkAmbulances aid parkingPositions) = [].
Proof.
  induction parkingPositions as [| p ps IH]; intros aid; simpl.
  - split; constructor.
  - destruct (IH (aid + 1)) as [Hok Hids]. split; [| exact Hids].
    constructor; [| exact Hok]. repeat split; simpl; lia.
Qed.

Lemma Hospital_new_ok loc parkingPositions startAmbId onSceneDuration :
  hospitalOk (Hospital_new loc parkingPositions startAmbId onSceneDuration).
Proof.
  destruct (parkAmbulances_ok parkingPositions startAmbId) as [Hok Hids].
  assert (Hheld : held (Hospital_new loc parkingPositions startAmbId onSceneDuration) = []).
  { unfold held. simpl. rewrite pq_elements_new, Hids. reflexivity. }
  constructor; rewrite ?Hheld; simpl; try (constructor; fail); try exact Hok;
    unfold INT_MAX; lia.
Qed.

Lemma receiveEmergency_held now incoming (h h' : Hospital) :
  receiveEmergency now incoming h = Some h' ->
  nextEmergencyId h < INT_MAX
  /\ held h' ≡ₚ nextEmergencyId h :: held h
  /\ nextEmergencyId h' = nextEmergencyId h + 1
  /\ handledCount h' = handledCount h
  /\ ambulances h' = ambulances h.
Proof.
  unfold receiveEmergency. destruct (Z.ltb_spec (nextEmergencyId h) INT_MAX); [| discriminate].
  intros [= <-]. unfold held. simpl. repeat split; auto.
  rewrite (Permutation_map em_id (pq_push_spec _ _)). reflexivity.
Qed.

Lemma receiveEmergency_ok now incoming (h h' : Hospital) :
  hospitalOk h -> receiveEmergency now incoming h = Some h' -> hospitalOk h'.
Proof.
  intros [Ha Hn Hr Hc Hh Hx] Hrecv.
  destruct (receiveEmergency_held _ _ _ _ Hrecv) as (Hlt & Hheld & Hnext & Hcnt & Hambs).
  constructor; rewrite ?Hheld, ?Hnext, ?Hcnt, ?Hambs; try assumption; try lia.
  - apply NoDup_cons. split; [| exact Hn].
    intros Hin. rewrite Forall_forall in Hr. apply Hr in Hin. lia.
  - constructor; [lia |]. eapply Forall_impl; [exact Hr |]. simpl. intros; lia.
  - simpl. lia.
Qed.

Lemma moveAmbulances_ok dt (h : Hospital) :
  hospitalOk h -> hospitalOk (moveAmbulances dt h).
Proof.
  intros [Ha Hn Hr Hc Hh Hx].
  assert (Hheld : held (moveAmbulances dt h) = held h).
  { unfold held. simpl. rewrite assignedIds_move. reflexivity. }
  constructor; rewrite ?Hheld; simpl; try assumption.
  apply Forall_forall. intros a Hin. apply list_elem_of_In, in_map_iff in Hin as (a0 & <- & Hin).
  apply moveAmbulance_ok. rewrite Forall_forall in Ha. apply Ha, list_elem_of_In, Hin.
Qed.

Lemma dispatchPass_ok (fuel : nat) (g : Grid) (ems : list Emergency) :
  forall ambs backlog ambs' backlog',
    dispatchPass fuel g ems (ambs, backlog) = Some (ambs', backlog') ->
    Forall ambulanceOk ambs ->
    Forall (fun e => 1 <= em_id e) ems ->
    Forall ambulanceOk ambs'
    /\ map em_id backlog' ++ assignedIds ambs'
       ≡ₚ map em_id ems ++ map em_id backlog ++ assignedIds ambs.
Proof.
  induction ems as [| em ems IH]; intros ambs backlog ambs' backlog'; cbn [dispatchPass].
  - intros [= <- <-]. auto.
  - destruct (dispatchOne fuel g em (ambs, backlog)) as [[ambs1 backlog1] |] eqn:Hone;
      [| discriminate].
    intros Hpass Hok Hids. inversion Hids as [| ? ? Hid Hids']; subst.
    apply dispatchOne_cases in Hone
      as [(_ & -> & ->) | (idx & a & route & _ & Hnear & Hk & _ & -> & ->)].
    + destruct (IH _ _ _ _ Hpass Hok Hids') as [Hok' Hperm]. split; [exact Hok' |].
      rewrite Hperm, map_app. simpl. rewrite <- !app_assoc. simpl.
      rewrite !app_assoc. symmetry. apply Permutation_middle.
    + destruct Hnear as (a0 & Hk0 & Hav & _). rewrite Hk in Hk0. injection Hk0 as <-.
      assert (Hida : assignedEmergencyId a = -1).
      { pose proof (Forall_lookup_1 _ _ _ _ Hok Hk) as (_ & Hi & _).
        rewrite (available_idle _ Hav) in Hi. apply Hi. }
      destruct (IH _ _ _ _ Hpass) as [Hok' Hperm]; [| exact Hids' |].
      { apply Forall_insert; [exact Hok | apply sendToScene_ok, Hid]. }
      split; [exact Hok' |].
      rewrite Hperm, (assignedIds_insert _ _ _ _ Hk Hida) by (simpl; lia). simpl.
      rewrite !app_assoc. symmetry. apply Permutation_middle.
Qed.

(** [dispatchVehicles] is the pass over the pending emergencies, best first,
    followed by the re-insertion of the backlog. *)
Lemma dispatchVehicles_pass (fuel : nat) (g : Grid) (h : Hospital) :
  match dispatchPass fuel g (peekAllPending h) (ambulances h, []) with
  | Some (ambs', backlog) =>
      exists h', dispatchVehicles fuel g h = Some h'
        /\ ambulances h' = ambs'
        /\ pq_elements (queue_ h') ≡ₚ backlog
        /\ nextEmergencyId h' = nextEmergencyId h
        /\ handledCount h' = handledCount h
        /\ onSceneDurationSec h' = onSceneDurationSec h
  | None => dispatchVehicles fuel g h = None
  end.
Proof.
  unfold dispatchVehicles, peekAllPending.
  pose proof (pq_size_spec (queue_ h)) as Hsize.
  destruct (Nat.eqb_spec (pq_size (queue_ h)) 0) as [E | E].
  - rewrite E. simpl. exists h. repeat split; auto.
    rewrite E in Hsize. destruct (pq_elements (queue_ h)); [constructor | discriminate].
  - destruct (dispatchLoop_pass fuel g _ (queue_ h) (ambulances h, []) Hsize)
      as (q' & Hq' & ->).
    destruct (dispatchPass fuel g _ _) as [[ambs' backlog] |]; simpl; [| reflexivity].
    eexists. split; [reflexivity |]. simpl. repeat split; auto.
    rewrite push_backlog_elements, Hq', app_nil_r. reflexivity.
Qed.

Lemma dispatchVehicles_inv (fuel : nat) (g : Grid) (h h' : Hospital) :
  dispatchVehicles fuel g h = Some h' ->
  exists backlog,
    dispatchPass fuel g (peekAllPending h) (ambulances h, [])
    = Some (ambulances h', backlog)
    /\ pq_elements (queue_ h') ≡ₚ backlog
    /\ nextEmergencyId h' = nextEmergencyId h
    /\ handledCount h' = handledCount h
    /\ onSceneDurationSec h' = onSceneDurationSec h.
Proof.
  intros Hd. pose proof (dispatchVehicles_pass fuel g h) as H.
  destruct (dispatchPass fuel g _ _) as [[ambs' backlog] |].
  - destruct H as (h1 & Hd1 & <- & Hq & Hn & Hc & Hs).
    rewrite Hd in Hd1. injection Hd1 as <-. exists backlog. auto.
  - rewrite Hd in H. discriminate.
Qed.

Lemma dispatchVehicles_ok (fuel : nat) (g : Grid) (h h' : Hospital) :
  hospitalOk h -> dispatchVehicles fuel g h = Some h' ->
  hospitalOk h' /\ held h' ≡ₚ held h.
Proof.
  intros [Ha Hn Hr Hc Hh Hx] Hd.
  apply dispatchVehicles_inv in Hd as (backlog & Hpass & Hq & Hnext & Hcnt & _).
  destruct (peekAllPending_sorted h) as [Hpeek _].
  assert (Hids : Forall (fun e => 1 <= em_id e) (peekAllPending h)).
  { rewrite Hpeek. pose proof Hr as Hq0. unfold held in Hq0.
    apply Forall_app in Hq0 as [Hq0 _].
    apply Forall_forall. intros e He.
    assert (1 <= em_id e < nextEmergencyId h); [| lia].
    rewrite Forall_forall in Hq0.
    apply Hq0, list_elem_of_In, in_map, list_elem_of_In, He. }
  destruct (dispatchPass_ok _ _ _ _ _ _ _ Hpass Ha Hids) as [Hok Hperm].
  assert (Hheld : held h' ≡ₚ held h).
  { unfold held. rewrite (Permutation_map em_id Hq), Hperm. simpl.
    rewrite (Permutation_map em_id Hpeek). reflexivity. }
  split; [| exact Hheld].
  constructor; rewrite ?Hheld, ?Hnext, ?Hcnt; assumption.
Qed.

Lemma updateAfterMovement_held (fuel : nat) (g : Grid) (frameTime : float)
    (h h' : Hospital) :
  hospitalOk h -> updateAfterMovement fuel g frameTime h = Some h' ->
  Forall ambulanceOk (ambulances h')
  /\ held h' `sublist_of` held h
  /\ Z.of_nat (length (held h')) + handledCount h'
     = Z.of_nat (length (held h)) + handledCount h
  /\ handledCount h <= handledCount h'
  /\ queue_ h' = queue_ h
  /\ nextEmergencyId h' = nextEmergencyId h.
Proof.
  intros [Ha _ _ _ _ _]. unfold updateAfterMovement.
  destruct (updateLoop _ _ _ _ _ _) as [[ambs cnt] |] eqn:Hl; [| discriminate].
  intros [= <-]. unfold held. simpl.
  destruct (updateLoop_ok _ _ _ _ _ _ _ _ Ha Hl) as (Hok & Hsub & Hcnt & Hle).
  split; [exact Hok |]. split; [apply sublist_app; [reflexivity | exact Hsub] |].
  rewrite !length_app. repeat split; auto; lia.
Qed.

Lemma updateAfterMovement_ok (fuel : nat) (g : Grid) (frameTime : float)
    (h h' : Hospital) :
  hospitalOk h -> updateAfterMovement fuel g frameTime h = Some h' -> hospitalOk h'.
Proof.
  intros Hok Hu.
  destruct (updateAfterMovement_held _ _ _ _ _ Hok Hu) as (Ha' & Hsub & Hcnt & Hle & _ & Hnext).
  destruct Hok as [Ha Hn Hr Hc Hh Hx].
  constructor; rewrite ?Hnext; try assumption; try lia.
  - eapply sublist_NoDup; eassumption.
  - eapply sublist_Forall; eassumption.
Qed.

Lemma step_ok (h h' : Hospital) : hospitalOk h -> step h h' -> hospitalOk h'.
Proof.
  intros Hok Hstep. destruct Hstep.
  - eapply receiveEmergency_ok; eassumption.
  - apply moveAmbulances_ok, Hok.
  - eapply dispatchVehicles_ok; eassumption.
  - eapply updateAfterMovement_ok; eassumption.
Qed.

Lemma reachable_ok (h : Hospital) : reachable h -> hospitalOk h.
Proof.
  induction 1 as [| h h' _ IH Hstep]; [apply Hospital_new_ok | eapply step_ok; eassumption].
Qed.

(** [handledCount++] cannot overflow: the count stays below the id counter. *)
Lemma handledCount_bounded (h : Hospital) :
  reachable h -> 0 <= handledCount h < nextEmergencyId h /\ nextEmergencyId h <= INT_MAX.
Proof. intros Hr. destruct (reachable_ok h Hr) as [_ _ _ Hc Hh Hx]. lia. Qed.

End Invariant.

(** ** The specified properties *)

Lemma StronglySorted_lookup_lt {A} (R : A -> A -> Prop) (l : list A) :
  StronglySorted R l ->
  forall i j a b, l !! i = Some a -> l !! j = Some b -> (i < j)%nat -> R a b.
Proof.
  induction 1 as [| c l Hs IH Hall]; intros i j a b Hi Hj Hlt.
  - rewrite lookup_nil in Hi. discriminate.
  - destruct j as [| j]; [lia |]. simpl in Hj. destruct i as [| i]; simpl in Hi.
    + injection Hi as ->. rewrite Forall_forall in Hall. apply Hall.
      apply list_elem_of_lookup. eauto.
    + eapply IH; eauto. lia.
Qed.

Lemma lookup_map {A B} (f : A -> B) (l : list A) (i : nat) :
  map f l !! i = option_map f (l !! i).
Proof.
  revert i. induction l as [| c l IH]; intros [| i]; simpl; auto.
Qed.

Section Specified.

Context {PQ : PriorityQueue}.

Lemma reachable_tick (fuel : nat) (g : Grid) (dt : float) (h h' : Hospital) :
  reachable h -> tick fuel g dt h = Some h' -> reachable h'.
Proof.
  unfold tick. intros Hr.
  destruct (dispatchVehicles fuel g (moveAmbulances dt h)) as [h1 |] eqn:Hd; [| discriminate].
  intros Hu. eapply reach_step; [| eapply step_update; exact Hu].
  eapply reach_step; [| eapply step_dispatch; exact Hd].
  eapply reach_step; [exact Hr | apply step_move].
Qed.

Lemma reachable_runTicks (n fuel : nat) (g : Grid) (dt : float) :
  forall h h', reachable h -> runTicks n fuel g dt h = Some h' -> reachable h'.
Proof.
  induction n as [| n IH]; intros h h' Hr; simpl.
  - intros [= <-]. exact Hr.
  - destruct (tick fuel g dt h) as [h1 |] eqn:Ht; [| discriminate].
    apply IH. eapply reachable_tick; eassumption.
Qed.

(** *** Roster order and ambulance ids *)

Lemma parkAmbulances_ids (parkingPositions : list Vector2) :
  forall aid,
    map amb_id (parkAmbulances aid parkingPositions)
    = seqZ aid (Z.of_nat (length parkingPositions))
    /\ length (parkAmbulances aid parkingPositions) = length parkingPositions.
Proof.
  induction parkingPositions as [| p ps IH]; intros aid; simpl.
  - split; reflexivity.
  - destruct (IH (aid + 1)) as [Hids Hlen]. rewrite Hids, Hlen. split; [| reflexivity].
    rewrite (seqZ_cons aid) by lia. f_equal. f_equal; lia.
Qed.

Lemma moveAmbulance_id (dt : float) (a : Ambulance) :
  amb_id (moveAmbulance dt a) = amb_id a.
Proof.
  unfold moveAmbulance.
  repeat match goal with
         | |- context [if ?c then _ else _] => destruct c
         | |- context [match ?c with _ => _ end] => destruct c
         end; reflexivity.
Qed.

Lemma updateAmbulance_id (fuel : nat) (g : Grid) (frameTime duration : float)
    (a a' : Ambulance) (cnt cnt' : Z) :
  updateAmbulance fuel g frameTime duration a cnt = Some (a', cnt') ->
  amb_id a' = amb_id a.
Proof.
  unfold updateAmbulance.
  repeat match goal with
         | |- context [if ?c then _ else _] => destruct c
         | |- context [match ?c with _ => _ end] => destruct c
         end; try discriminate; intros [= <- <-]; reflexivity.
Qed.

Lemma updateLoop_ids (fuel : nat) (g : Grid) (frameTime duration : float)
    (ambs : list Ambulance) :
  forall cnt ambs' cnt',
    updateLoop fuel g frameTime duration ambs cnt = Some (ambs', cnt') ->
    map amb_id ambs' = map amb_id ambs.
Proof.
  induction ambs as [| a ambs IH]; intros cnt ambs' cnt'; simpl.
  - intros [= <- <-]. reflexivity.
  - destruct (updateAmbulance fuel g frameTime duration a cnt) as [[a1 c1] |] eqn:Hu;
      [| discriminate].
    destruct (updateLoop fuel g frameTime duration ambs c1) as [[rest' c2] |] eqn:Hl;
      [| discriminate].
    intros [= <- <-]. simpl.
    rewrite (updateAmbulance_id _ _ _ _ _ _ _ _ Hu), (IH _ _ _ Hl). reflexivity.
Qed.

Lemma map_insert_same {A B} (f : A -> B) (l : list A) (i : nat) (a a' : A) :
  l !! i = Some a -> f a' = f a -> map f (<[i := a']> l) = map f l.
Proof.
  revert i. induction l as [| c l IH]; intros [| i] Hi Hf; simpl in *; try discriminate.
  - injection Hi as ->. rewrite Hf. reflexivity.
  - f_equal. eapply IH; eassumption.
Qed.

Lemma dispatchPass_ids (fuel : nat) (g : Grid) (ems : list Emergency) :
  forall ambs backlog ambs' backlog',
    dispatchPass fuel g ems (ambs, backlog) = Some (ambs', backlog') ->
    map amb_id ambs' = map amb_id ambs.
Proof.
  induction ems as [| em ems IH]; intros ambs backlog ambs' backlog'; cbn [dispatchPass].
  - intros [= <- <-]. reflexivity.
  - destruct (dispatchOne fuel g em (ambs, backlog)) as [[ambs1 backlog1] |] eqn:Hone;
      [| discriminate].
    intros Hpass. rewrite (IH _ _ _ _ Hpass).
    apply dispatchOne_cases in Hone
      as [(_ & -> & _) | (idx & a & route & _ & _ & Hk & _ & -> & _)]; [reflexivity |].
    eapply map_insert_same; [exact Hk | reflexivity].
Qed.

(** Ambulance ids are consecutive in roster order, in every reachable state:
    the first ambulance of the roster that qualifies is the one with the
    lowest id. *)
Lemma roster_ids (h : Hospital) :
  reachable h ->
  exists startAmbId,
    map amb_id (ambulances h) = seqZ startAmbId (Z.of_nat (length (ambulances h))).
Proof.
  induction 1 as [loc ps sid dur | h h' _ [sid IH] Hstep].
  - exists sid. simpl. destruct (parkAmbulances_ids ps sid) as [-> ->]. reflexivity.
  - exists sid.
    assert (E : map amb_id (ambulances h') = map amb_id (ambulances h)).
    { destruct Hstep as
        [now incoming h h' Hrecv | dt h | fuel g h h' Hd | fuel g ft h h' Hu].
      - apply receiveEmergency_held in Hrecv as (_ & _ & _ & _ & ->). reflexivity.
      - simpl. rewrite map_map. apply map_ext. intros a. apply moveAmbulance_id.
      - apply dispatchVehicles_inv in Hd as (backlog & Hpass & _).
        eapply dispatchPass_ids; exact Hpass.
      - unfold updateAfterMovement in Hu.
        destruct (updateLoop _ _ _ _ _ _) as [[ambs cnt] |] eqn:Hl; [| discriminate].
        injection Hu as <-. simpl. eapply updateLoop_ids; exact Hl. }
    rewrite E, IH. f_equal. f_equal.
    rewrite <- (length_map amb_id (ambulances h')), E, length_map. reflexivity.
Qed.

Lemma roster_order_is_id_order (h : Hospital) (i j : nat) (a b : Ambulance) :
  reachable h ->
  ambulances h !! i = Some a -> ambulances h !! j = Some b ->
  ((i <= j)%nat <-> amb_id a <= amb_id b).
Proof.
  intros Hr Hi Hj. destruct (roster_ids h Hr) as [sid Hids].
  assert (Hid : forall k c, ambulances h !! k = Some c -> amb_id c = sid + Z.of_nat k).
  { intros k c Hk.
    assert (Hm : map amb_id (ambulances h) !! k = Some (amb_id c))
      by (rewrite lookup_map, Hk; reflexivity).
    rewrite Hids in Hm. apply lookup_seqZ in Hm. lia. }
  rewrite (Hid _ _ Hi), (Hid _ _ Hj). lia.
Qed.

(** C1: [EmergencyCompare] is a strict weak ordering (irreflexive, transitive,
    with a transitive incomparability); whatever the state of the hospital,
    [peekAllPending] returns exactly the queued emergencies, sorted by priority
    ascending and then by [createdAt] ascending, so an emergency with a lower
    priority number stands ahead of every emergency with a higher one; and
    right after [receiveEmergency] the new emergency is listed ahead of every
    pending emergency with a higher priority number. *)
Theorem peekAllPending_best_first (h : Hospital) :
  ((forall a, EmergencyCompare a a = false)
   /\ (forall a b c, EmergencyCompare a b = true -> EmergencyCompare b c = true ->
                     EmergencyCompare a c = true)
   /\ (forall a b c,
         EmergencyCompare a b = false -> EmergencyCompare b a = false ->
         EmergencyCompare b c = false -> EmergencyCompare c b = false ->
         EmergencyCompare a c = false /\ EmergencyCompare c a = false))
  /\ peekAllPending h ≡ₚ pq_elements (queue_ h)
  /\ StronglySorted rankLe (peekAllPending h)
  /\ (forall i j a b,
        peekAllPending h !! i = Some a -> peekAllPending h !! j = Some b ->
        priority a < priority b -> (i < j)%nat)
  /\ (forall now incoming h',
        receiveEmergency now incoming h = Some h' ->
        exists i e,
          peekAllPending h' !! i = Some e
          /\ em_id e = nextEmergencyId h
          /\ priority e = priority incoming
          /\ createdAt e = now
          /\ forall j b, peekAllPending h' !! j = Some b ->
                         priority incoming < priority b -> (i < j)%nat).
Proof.
  assert (Hahead : forall h0 : Hospital, forall i j a b,
             peekAllPending h0 !! i = Some a -> peekAllPending h0 !! j = Some b ->
             priority a < priority b -> (i < j)%nat).
  { intros h0 i j a b Hi Hj Hlt.
    destruct (peekAllPending_sorted h0) as [_ Hs].
    destruct (Nat.lt_trichotomy i j) as [Hij | [-> | Hji]]; [exact Hij | |].
    - rewrite Hi in Hj. injection Hj as ->. lia.
    - pose proof (StronglySorted_lookup_lt _ _ Hs _ _ _ _ Hj Hi Hji) as [H | [H _]]; lia. }
  split; [| split; [| split; [| split]]].
  - split; [apply EmergencyCompare_irrefl |]. split; [apply EmergencyCompare_trans |].
    intros a b c Hab Hba Hbc Hcb. split.
    + destruct (EmergencyCompare a c) eqn:E; [| reflexivity].
      rewrite (EmergencyCompare_neg_trans _ _ _ E Hbc) in Hab. discriminate.
    + destruct (EmergencyCompare c a) eqn:E; [| reflexivity].
      rewrite (EmergencyCompare_neg_trans _ _ _ E Hba) in Hcb. discriminate.
  - apply peekAllPending_sorted.
  - apply peekAllPending_sorted.
  - apply Hahead.
  - intros now incoming h' Hrecv. unfold receiveEmergency in Hrecv.
    destruct (nextEmergencyId h <? INT_MAX); [| discriminate].
    injection Hrecv as <-.
    match goal with |- context [pq_push ?e0 _] => set (e := e0) end.
    match goal with |- context [peekAllPending ?h0] => set (h1 := h0) end.
    assert (Hin : e ∈ peekAllPending h1).
    { rewrite (proj1 (peekAllPending_sorted h1)). simpl.
      rewrite pq_push_spec. apply list_elem_of_here. }
    apply list_elem_of_lookup in Hin as [i Hi].
    exists i, e. repeat split; auto.
    intros j b Hj Hlt. eapply Hahead; eauto.
Qed.

Lemma assignedIds_In (ambs : list Ambulance) (i : nat) (a : Ambulance) :
  ambs !! i = Some a -> assignedEmergencyId a <> -1 ->
  In (assignedEmergencyId a) (assignedIds ambs).
Proof.
  revert i. induction ambs as [| c ambs IH]; intros i Hi Hne.
  - rewrite lookup_nil in Hi. discriminate.
  - simpl. destruct i as [| i]; simpl in Hi.
    + injection Hi as ->.
      destruct (Z.eqb_spec (assignedEmergencyId a) (-1)); [contradiction | left; reflexivity].
    + destruct (assignedEmergencyId c =? -1); [| right]; eapply IH; eauto.
Qed.

Lemma assignedIds_NoDup_inj (ambs : list Ambulance) :
  NoDup (assignedIds ambs) ->
  forall i j a b,
    ambs !! i = Some a -> ambs !! j = Some b ->
    assignedEmergencyId a <> -1 ->
    assignedEmergencyId a = assignedEmergencyId b -> i = j.
Proof.
  induction ambs as [| c ambs IH]; intros Hnd i j a b Hi Hj Hne Heq.
  - rewrite lookup_nil in Hi. discriminate.
  - simpl in Hnd.
    assert (Hhead : forall k d, ambs !! k = Some d ->
                      assignedEmergencyId d = assignedEmergencyId c ->
                      assignedEmergencyId c <> -1 -> False).
    { intros k d Hk Hd Hc. destruct (Z.eqb_spec (assignedEmergencyId c) (-1)); [contradiction |].
      apply NoDup_cons in Hnd as [Hnotin _]. apply Hnotin, list_elem_of_In.
      rewrite <- Hd. eapply assignedIds_In; eauto. congruence. }
    assert (Htail : NoDup (assignedIds ambs)).
    { destruct (assignedEmergencyId c =? -1); [exact Hnd |].
      apply NoDup_cons in Hnd. tauto. }
    destruct i as [| i], j as [| j]; simpl in Hi, Hj.
    + reflexivity.
    + injection Hi as ->. exfalso. eapply Hhead; eauto.
    + injection Hj as ->. exfalso. eapply Hhead; eauto. congruence.
    + f_equal. eapply IH; eauto.
Qed.

(** C3: in every reachable state - so after every tick - the ids in the queue
    together with the ids assigned to ambulances have no repetition: no id is
    queued twice, none is both queued and assigned, and no two ambulances
    carry the same id.  Every held id was issued (it lies in
    [1, nextEmergencyId)), and the issued ids that are no longer held are as
    many as the emergencies resolved so far ([handledCount]): an emergency
    leaves the queue and the roster only by being resolved. *)
Theorem emergency_in_one_place (h : Hospital) :
  reachable h ->
  NoDup (map em_id (pq_elements (queue_ h)))
  /\ (forall e i a, e ∈ pq_elements (queue_ h) -> ambulances h !! i = Some a ->
                    assignedEmergencyId a <> em_id e)
  /\ (forall i j a b,
        ambulances h !! i = Some a -> ambulances h !! j = Some b ->
        assignedEmergencyId a <> -1 ->
        assignedEmergencyId a = assignedEmergencyId b -> i = j)
  /\ NoDup (held h)
  /\ (forall id, In id (held h) -> 1 <= id < nextEmergencyId h)
  /\ Z.of_nat (length (held h)) + handledCount h = nextEmergencyId h - 1
  /\ (forall fuel g dt h', tick fuel g dt h = Some h' -> reachable h').
Proof.
  intros Hr. pose proof (reachable_ok h Hr) as [Ha Hn Hrg Hc Hh Hx].
  pose proof Hn as Hn'. unfold held in Hn'. apply NoDup_app in Hn' as (Hq & Hdisj & Hv).
  split; [exact Hq |]. split; [| split; [| split; [| split; [| split]]]].
  - intros e i a He Hi Heq.
    assert (Hin : em_id e ∈ map em_id (pq_elements (queue_ h))).
    { apply list_elem_of_In, in_map, list_elem_of_In, He. }
    apply (Hdisj _ Hin). apply list_elem_of_In. rewrite <- Heq.
    eapply assignedIds_In; [exact Hi |].
    rewrite Heq. unfold held in Hrg. apply Forall_app in Hrg as [Hrg _].
    rewrite Forall_forall in Hrg. apply Hrg in Hin. lia.
  - apply assignedIds_NoDup_inj, Hv.
  - exact Hn.
  - intros id Hid. rewrite Forall_forall in Hrg. apply Hrg, list_elem_of_In, Hid.
  - exact Hc.
  - intros fuel g dt h'. apply reachable_tick, Hr.
Qed.


(** Where each ambulance of the roster stands after a pass: as before, or it
    was available and has been sent to one of the emergencies of the pass. *)
Lemma dispatchPass_lookup (fuel : nat) (g : Grid) (ems : list Emergency) :
  forall ambs backlog ambs' backlog' i a,
    dispatchPass fuel g ems (ambs, backlog) = Some (ambs', backlog') ->
    ambs !! i = Some a ->
    ambs' !! i = Some a
    \/ (available a = true
        /\ exists route em, In em ems /\ ambs' !! i = Some (sendToScene a route em)).
Proof.
  induction ems as [| em ems IH]; intros ambs backlog ambs' backlog' i a;
    cbn [dispatchPass].
  - intros [= <- <-] Hi. left. exact Hi.
  - destruct (dispatchOne fuel g em (ambs, backlog)) as [[ambs1 backlog1] |] eqn:Hone;
      [| discriminate].
    intros Hpass Hi.
    apply dispatchOne_cases in Hone
      as [(_ & -> & ->) | (idx & a0 & route & _ & Hnear & Hk & _ & -> & ->)].
    + destruct (IH _ _ _ _ _ _ Hpass Hi) as [H | (Hav & r & e & He & H)]; [left; exact H |].
      right. split; [exact Hav |]. exists r, e. split; [right; exact He | exact H].
    + destruct (Nat.eq_dec idx i) as [-> | Hne].
      * rewrite Hi in Hk. injection Hk as <-.
        destruct Hnear as (a1 & Hk1 & Hav & _). rewrite Hi in Hk1. injection Hk1 as <-.
        right. split; [exact Hav |]. exists route, em. split; [left; reflexivity |].
        assert (Hi' : <[i := sendToScene a route em]> ambs !! i
                      = Some (sendToScene a route em)).
        { apply list_lookup_insert_eq. eapply lookup_lt_Some; exact Hi. }
        destruct (IH _ _ _ _ _ _ Hpass Hi') as [H | (Hav' & _)]; [exact H |].
        discriminate.
      * assert (Hi' : <[idx := sendToScene a0 route em]> ambs !! i = Some a).
        { rewrite list_lookup_insert_ne by exact Hne. exact Hi. }
        destruct (IH _ _ _ _ _ _ Hpass Hi') as [H | (Hav & r & e & He & H)];
          [left; exact H |].
        right. split; [exact Hav |]. exists r, e. split; [right; exact He | exact H].
Qed.

Lemma updateLoop_lookup (fuel : nat) (g : Grid) (frameTime duration : float)
    (ambs : list Ambulance) :
  forall cnt ambs' cnt' i a,
    updateLoop fuel g frameTime duration ambs cnt = Some (ambs', cnt') ->
    ambs !! i = Some a ->
    exists c a' c',
      updateAmbulance fuel g frameTime duration a c = Some (a', c')
      /\ ambs' !! i = Some a'.
Proof.
  induction ambs as [| a0 ambs IH]; intros cnt ambs' cnt' i a; simpl.
  - intros _ Hi. rewrite lookup_nil in Hi. discriminate.
  - destruct (updateAmbulance fuel g frameTime duration a0 cnt) as [[a1 c1] |] eqn:Hu;
      [| discriminate].
    destruct (updateLoop fuel g frameTime duration ambs c1) as [[rest' c2] |] eqn:Hl;
      [| discriminate].
    intros [= <- <-] Hi. destruct i as [| i]; simpl in *.
    + injection Hi as <-. eauto.
    + eapply IH; eauto.
Qed.

Lemma updateAmbulance_busy (fuel : nat) (g : Grid) (frameTime duration : float)
    (a a' : Ambulance) (cnt cnt' : Z) :
  updateAmbulance fuel g frameTime duration a cnt = Some (a', cnt') ->
  busy a = true -> busy a' = false ->
  status a = RETURNING /\ status a' = IDLE.
Proof.
  unfold updateAmbulance. destruct (status a) eqn:Hs.
  - intros [= <- <-]. congruence.
  - destruct (currentPathIndex a >=? pathSize a); [intros [= <- <-]; simpl; congruence |].
    destruct (last (path a)) as [targ |]; [| intros [= <- <-]; congruence].
    destruct (flt (distance targ (pos a)) f4); intros [= <- <-]; simpl; congruence.
  - simpl. destruct (fle (fsub (onSceneTimer a) frameTime) f0).
    + destruct (findPathOnRoads _ _ _ _); [| discriminate].
      intros [= <- <-]; simpl; congruence.
    + intros [= <- <-]; simpl; congruence.
  - destruct (flt (distance (parkingPos a) (pos a)) f4 || (currentPathIndex a >=? pathSize a));
      intros [= <- <-]; simpl; [auto | congruence].
Qed.

(** C4, as the code has it: in every reachable state an ambulance carries an
    assignment exactly while it is en route (TO_SCENE) or on scene; the id is
    then one that was issued.  An idle ambulance and a returning ambulance
    carry none (id -1, empty name, house -1), and an idle ambulance has an
    empty route and a cursor of 0. *)
Theorem assignment_iff_en_route_or_on_scene (h : Hospital) (i : nat) (a : Ambulance) :
  reachable h -> ambulances h !! i = Some a ->
  (assignedEmergencyId a <> -1 <-> status a = TO_SCENE \/ status a = ON_SCENE)
  /\ (status a = TO_SCENE \/ status a = ON_SCENE ->
      1 <= assignedEmergencyId a < nextEmergencyId h)
  /\ (status a = IDLE \/ status a = RETURNING ->
      assignedEmergencyId a = -1
      /\ assignedPatientName a = ""%string
      /\ assignedHouseId a = -1)
  /\ (status a = IDLE -> path a = [] /\ currentPathIndex a = 0).
Proof.
  intros Hr Hi. pose proof (reachable_ok h Hr) as [Ha _ Hrg _ _ _].
  pose proof (Forall_lookup_1 _ _ _ _ Ha Hi) as (_ & Hid & Hidle & _).
  assert (Hissued : assignedEmergencyId a <> -1 ->
                    1 <= assignedEmergencyId a < nextEmergencyId h).
  { intros Hne. unfold held in Hrg. apply Forall_app in Hrg as [_ Hrg].
    rewrite Forall_forall in Hrg. apply Hrg, list_elem_of_In.
    eapply assignedIds_In; eassumption. }
  destruct (status a).
  - split; [split; [intros Hne; destruct Hid; contradiction | intros [E | E]; discriminate] |].
    split; [intros [E | E]; discriminate |]. split; [intros _; exact Hid |].
    intros _. apply Hidle. reflexivity.
  - split; [split; [intros _; left; reflexivity | intros _; lia] |].
    split; [intros _; apply Hissued; lia |].
    split; [intros [E | E]; discriminate | discriminate].
  - split; [split; [intros _; right; reflexivity | intros _; lia] |].
    split; [intros _; apply Hissued; lia |].
    split; [intros [E | E]; discriminate | discriminate].
  - split; [split; [intros Hne; destruct Hid; contradiction | intros [E | E]; discriminate] |].
    split; [intros [E | E]; discriminate |]. split; [intros _; exact Hid | discriminate].
Qed.

(** C9: ambulances are constructed idle and not busy; a match sets [busy]
    together with TO_SCENE; in every reachable state [busy] is true exactly
    when the status is not IDLE, so the eligibility test is the test for IDLE;
    and an operation clears [busy] only on the way from RETURNING to IDLE. *)
Theorem busy_iff_not_idle :
  (forall loc parkingPositions startAmbId onSceneDuration i a,
      ambulances (Hospital_new loc parkingPositions startAmbId onSceneDuration) !! i
      = Some a ->
      status a = IDLE /\ busy a = false)
  /\ (forall a route em,
        busy (sendToScene a route em) = true
        /\ status (sendToScene a route em) = TO_SCENE)
  /\ (forall h : Hospital, reachable h ->
        forall i a, ambulances h !! i = Some a ->
          (busy a = true <-> status a <> IDLE)
          /\ available a = match status a with IDLE => true | _ => false end)
  /\ (forall h h' : Hospital, reachable h -> step h h' ->
        forall i a a',
          ambulances h !! i = Some a -> ambulances h' !! i = Some a' ->
          busy a = true -> busy a' = false ->
          status a = RETURNING /\ status a' = IDLE).
Proof.
  split; [| split; [| split]].
  - intros loc ps aid dur. simpl. revert aid.
    induction ps as [| p ps IH]; intros aid i a; simpl.
    + intros Hi. rewrite lookup_nil in Hi. discriminate.
    + destruct i as [| i]; simpl; [intros [= <-]; auto | apply IH].
  - intros a route em. split; reflexivity.
  - intros h Hr i a Hi. pose proof (reachable_ok h Hr) as [Ha _ _ _ _ _].
    pose proof (Forall_lookup_1 _ _ _ _ Ha Hi) as (Hb & _).
    unfold available. rewrite Hb. destruct (status a); split; try reflexivity;
      split; intros; try discriminate; congruence.
  - intros h h' Hr Hstep i a a' Hi Hi' Hb Hb'. destruct Hstep as
      [now incoming h h' Hrecv | dt h | fuel g h h' Hd | fuel g ft h h' Hu].
    + apply receiveEmergency_held in Hrecv as (_ & _ & _ & _ & E).
      rewrite E, Hi in Hi'. congruence.
    + simpl in Hi'. rewrite lookup_map, Hi in Hi'. simpl in Hi'.
      injection Hi' as <-. destruct (moveAmbulance_fields dt a) as (_ & E & _). congruence.
    + apply dispatchVehicles_inv in Hd as (backlog & Hpass & _).
      destruct (dispatchPass_lookup _ _ _ _ _ _ _ _ _ Hpass Hi)
        as [H | (_ & route & em & _ & H)]; rewrite H in Hi'; injection Hi' as <-.
      * congruence.
      * discriminate.
    + unfold updateAfterMovement in Hu.
      destruct (updateLoop _ _ _ _ _ _) as [[ambs cnt] |] eqn:Hl; [| discriminate].
      injection Hu as <-. simpl in Hi'.
      destruct (updateLoop_lookup _ _ _ _ _ _ _ _ _ _ Hl Hi) as (c & a1 & c1 & Hu1 & Hi1).
      rewrite Hi1 in Hi'. injection Hi' as ->.
      eapply updateAmbulance_busy; eassumption.
Qed.

(** C10: [receiveEmergency] keeps the payload, the location and the priority
    of its argument and overwrites the rest: the enqueued copy has the
    counter's value as id and the clock reading as [createdAt], whatever the
    argument carried.  The counter is 1 at construction, goes up by one per
    call and is touched by nothing else, and it exceeds every id held, so no
    id is issued twice. *)
Theorem receiveEmergency_stamps (now : Q) (incoming : Emergency) (h : Hospital) :
  nextEmergencyId h < INT_MAX ->
  (exists h',
      receiveEmergency now incoming h = Some h'
      /\ pq_elements (queue_ h')
         ≡ₚ {| em_id := nextEmergencyId h; patient := patient incoming;
               location := location incoming; priority := priority incoming;
               createdAt := now; assignedHospital := assignedHospital incoming |}
            :: pq_elements (queue_ h)
      /\ nextEmergencyId h' = nextEmergencyId h + 1
      /\ ambulances h' = ambulances h
      /\ handledCount h' = handledCount h)
  /\ (forall loc parkingPositions startAmbId onSceneDuration,
        nextEmergencyId (Hospital_new loc parkingPositions startAmbId onSceneDuration) = 1)
  /\ (forall dt, nextEmergencyId (moveAmbulances dt h) = nextEmergencyId h)
  /\ (forall fuel g h', dispatchVehicles fuel g h = Some h' ->
                        nextEmergencyId h' = nextEmergencyId h)
  /\ (forall fuel g frameTime h', updateAfterMovement fuel g frameTime h = Some h' ->
                                  nextEmergencyId h' = nextEmergencyId h)
  /\ (reachable h ->
      forall id, In id (held h) -> 1 <= id < nextEmergencyId h).
Proof.
  intros Hlt. split; [| split; [| split; [| split; [| split]]]].
  - unfold receiveEmergency. destruct (Z.ltb_spec (nextEmergencyId h) INT_MAX); [| lia].
    eexists. split; [reflexivity |]. simpl. repeat split; auto. apply pq_push_spec.
  - reflexivity.
  - reflexivity.
  - intros fuel g h' Hd. apply dispatchVehicles_inv in Hd as (_ & _ & _ & E & _). exact E.
  - intros fuel g ft h'. unfold updateAfterMovement.
    destruct (updateLoop _ _ _ _ _ _) as [[ambs cnt] |]; [| discriminate].
    intros [= <-]. reflexivity.
  - intros Hr id Hid. pose proof (reachable_ok h Hr) as [_ _ Hrg _ _ _].
    rewrite Forall_forall in Hrg. apply Hrg, list_elem_of_In, Hid.
Qed.

(** C7: in [updateAfterMovement] an ambulance that is en route (TO_SCENE)
    becomes ON_SCENE exactly when its cursor has consumed the route or the
    distance from its position to the last waypoint is below 4; it then has
    [onSceneTimer] equal to the configured duration, and otherwise it is left
    as it was. *)
Theorem to_scene_arrival (fuel : nat) (g : Grid) (frameTime : float)
    (h h' : Hospital) (i : nat) (a : Ambulance) :
  updateAfterMovement fuel g frameTime h = Some h' ->
  ambulances h !! i = Some a ->
  status a = TO_SCENE ->
  exists a',
    ambulances h' !! i = Some a'
    /\ (status a' = ON_SCENE <->
        pathSize a <= currentPathIndex a
        \/ exists targ, last (path a) = Some targ
                        /\ flt (distance targ (pos a)) f4 = true)
    /\ (status a' = ON_SCENE -> onSceneTimer a' = onSceneDurationSec h)
    /\ (status a' <> ON_SCENE -> a' = a).
Proof.
  unfold updateAfterMovement.
  destruct (updateLoop _ _ _ _ _ _) as [[ambs cnt] |] eqn:Hl; [| discriminate].
  intros [= <-] Hi Hs. simpl.
  destruct (updateLoop_lookup _ _ _ _ _ _ _ _ _ _ Hl Hi) as (c & a' & c' & Hu & Hi').
  exists a'. split; [exact Hi' |].
  unfold updateAmbulance in Hu. rewrite Hs in Hu.
  destruct (Z.geb_spec (currentPathIndex a) (pathSize a)) as [Hge | Hlt].
  - injection Hu as <- _. simpl.
    split; [split; [intros _; left; lia | reflexivity] |].
    split; [reflexivity | intros H; contradiction].
  - destruct (last (path a)) as [targ |] eqn:Hlast.
    + destruct (flt (distance targ (pos a)) f4) eqn:Hd; injection Hu as <- _; simpl.
      * split; [split; [intros _; right; eauto | reflexivity] |].
        split; [reflexivity | intros H; contradiction].
      * rewrite Hs.
        split; [split; [discriminate | intros [H | (t & [= <-] & H)]; [lia | congruence]] |].
        split; [discriminate | reflexivity].
    + injection Hu as <- _. rewrite Hs.
      split; [split; [discriminate | intros [H | (t & H & _)]; [lia | discriminate]] |].
      split; [discriminate | reflexivity].
Qed.

Lemma sendToScene_stays (fuel : nat) (g : Grid) (ems : list Emergency)
    (ambs ambs' : list Ambulance) (backlog backlog' : list Emergency)
    (idx : nat) (a : Ambulance) (route : list Vector2) (em : Emergency) :
  dispatchPass fuel g ems (ambs, backlog) = Some (ambs', backlog') ->
  ambs !! idx = Some (sendToScene a route em) ->
  ambs' !! idx = Some (sendToScene a route em)
  /\ forall target, findNearestAvailableAmbulance target ambs' <> Some idx.
Proof.
  intros Hpass Hk.
  assert (Hk' : ambs' !! idx = Some (sendToScene a route em)).
  { destruct (dispatchPass_lookup _ _ _ _ _ _ _ _ _ Hpass Hk) as [H | (Hav & _)];
      [exact H | discriminate]. }
  split; [exact Hk' |]. intros target Hf.
  pose proof (findNearestAvailableAmbulance_spec target ambs') as Hspec.
  rewrite Hf in Hspec. destruct Hspec as (a2 & Hk2 & Hav2 & _).
  rewrite Hk' in Hk2. injection Hk2 as <-. discriminate.
Qed.

(** On the map of [main] the call returns as soon as the ambulances and the
    pending emergencies are all within snapping range of the lattice. *)
Lemma dispatchPass_city_total (fuel : nat) (ems : list Emergency) :
  (6 <= fuel)%nat ->
  Forall (fun e => inSnapRange cityGrid (location e)) ems ->
  forall ambs backlog,
    Forall (fun a => inSnapRange cityGrid (pos a)) ambs ->
    exists st, dispatchPass fuel cityGrid ems (ambs, backlog) = Some st.
Proof.
  intros Hfuel. induction 1 as [| em ems Hem _ IH]; intros ambs backlog Hambs;
    cbn [dispatchPass].
  - eauto.
  - unfold dispatchOne.
    pose proof (findNearestAvailableAmbulance_spec (location em) ambs) as Hspec.
    destruct (findNearestAvailableAmbulance (location em) ambs) as [idx |].
    + destruct Hspec as (a & Hk & _). rewrite Hk.
      pose proof (Forall_lookup_1 _ _ _ _ Hambs Hk) as Ha. simpl in Ha.
      destruct (findPathOnRoads_city_total _ _ Ha Hem) as (route & Hroute & _).
      rewrite (findPathOnRoads_fuel_mono _ _ _ _ _ _ Hfuel Hroute).
      apply IH. apply Forall_insert; [exact Hambs | exact Ha].
    + apply IH, Hambs.
Qed.

Lemma dispatchVehicles_city_total (fuel : nat) (h : Hospital) :
  (6 <= fuel)%nat ->
  Forall (fun a => inSnapRange cityGrid (pos a)) (ambulances h) ->
  Forall (fun e => inSnapRange cityGrid (location e)) (pq_elements (queue_ h)) ->
  exists h', dispatchVehicles fuel cityGrid h = Some h'.
Proof.
  intros Hfuel Hambs Hems.
  assert (Hpeek : Forall (fun e => inSnapRange cityGrid (location e)) (peekAllPending h)).
  { rewrite (proj1 (peekAllPending_sorted h)). exact Hems. }
  destruct (dispatchPass_city_total fuel _ Hfuel Hpeek (ambulances h) [] Hambs)
    as ([ambs' backlog] & Hpass).
  pose proof (dispatchVehicles_pass fuel cityGrid h) as H. rewrite Hpass in H.
  destruct H as (h' & Hd & _). eauto.
Qed.

(** X25: one call of [dispatchVehicles] handles the pending emergencies in
    best-first order (priority ascending, then [createdAt] ascending).  When
    the turn of an emergency comes, after the emergencies [pre] ahead of it,
    and [findNearestAvailableAmbulance] selects an ambulance in the roster as
    it then stands, that ambulance is idle, at a computed distance below
    [FLT_MAX], with no idle ambulance strictly nearer (in the distance the
    program computes) and none equally near earlier in the roster.  It is
    TO_SCENE with this emergency from then on: whatever emergencies follow
    in the pass, it is never selected again, and it ends the call with this
    emergency.  When no ambulance is selected, no available ambulance is at a
    computed distance below [FLT_MAX]. *)
Theorem dispatchVehicles_nearest_first (fuel : nat) (g : Grid) (h h' : Hospital) :
  dispatchVehicles fuel g h = Some h' ->
  StronglySorted rankLe (peekAllPending h)
  /\ (exists backlog,
        dispatchPass fuel g (peekAllPending h) (ambulances h, [])
        = Some (ambulances h', backlog))
  /\ forall pre em post,
       peekAllPending h = pre ++ em :: post ->
       exists ambs backlog,
         dispatchPass fuel g pre (ambulances h, []) = Some (ambs, backlog)
         /\ match findNearestAvailableAmbulance (location em) ambs with
            | Some idx =>
                nearestAvailable (location em) ambs idx
                /\ exists a route,
                     ambs !! idx = Some a
                     /\ status a = IDLE
                     /\ findPathOnRoads fuel (pos a) (location em) g = Some route
                     /\ (forall later ambs2 backlog2,
                           dispatchPass fuel g (pre ++ em :: later) (ambulances h, [])
                           = Some (ambs2, backlog2) ->
                           ambs2 !! idx = Some (sendToScene a route em)
                           /\ forall target,
                                findNearestAvailableAmbulance target ambs2 <> Some idx)
                     /\ ambulances h' !! idx = Some (sendToScene a route em)
            | None =>
                forall j b, ambs !! j = Some b -> available b = true ->
                            flt (distTo (location em) b) FLT_MAX = false
            end.
Proof.
  intros Hd. apply dispatchVehicles_inv in Hd as (backlog & Hpass & _).
  split; [apply peekAllPending_sorted |]. split; [eauto |].
  intros pre em post Hsplit. rewrite Hsplit, dispatchPass_app in Hpass.
  destruct (dispatchPass fuel g pre (ambulances h, [])) as [[ambs bl] |] eqn:Hpre;
    [| discriminate].
  exists ambs, bl. split; [reflexivity |].
  cbn [dispatchPass] in Hpass.
  destruct (dispatchOne fuel g em (ambs, bl)) as [[ambs1 bl1] |] eqn:Hone; [| discriminate].
  pose proof Hone as Hcase.
  apply dispatchOne_cases in Hcase
    as [(Hnone & _ & _) | (idx & a & route & Hsome & Hnear & Hk & Hroute & -> & ->)].
  - pose proof (findNearestAvailableAmbulance_spec (location em) ambs) as Hspec.
    rewrite Hnone in *. exact Hspec.
  - rewrite Hsome. split; [exact Hnear |]. exists a, route.
    assert (Hsent : <[idx := sendToScene a route em]> ambs !! idx
                    = Some (sendToScene a route em)).
    { apply list_lookup_insert_eq. eapply lookup_lt_Some; exact Hk. }
    split; [exact Hk |]. split.
    { destruct Hnear as (a0 & Hk0 & Hav & _). rewrite Hk in Hk0. injection Hk0 as <-.
      apply available_idle, Hav. }
    split; [exact Hroute |]. split.
    + intros later ambs2 backlog2 Hl.
      rewrite dispatchPass_app, Hpre in Hl. cbn [dispatchPass] in Hl. rewrite Hone in Hl.
      eapply sendToScene_stays; eassumption.
    + eapply sendToScene_stays; eassumption.
Qed.

Lemma dispatchPass_backlog (fuel : nat) (g : Grid) (ems : list Emergency) :
  forall ambs backlog ambs' backlog',
    dispatchPass fuel g ems (ambs, backlog) = Some (ambs', backlog') ->
    exists kept, backlog' = backlog ++ kept /\ kept `sublist_of` ems.
Proof.
  induction ems as [| em ems IH]; intros ambs backlog ambs' backlog'; cbn [dispatchPass].
  - intros [= <- <-]. exists []. split; [symmetry; apply app_nil_r | constructor].
  - destruct (dispatchOne fuel g em (ambs, backlog)) as [[ambs1 backlog1] |] eqn:Hone;
      [| discriminate].
    intros Hpass. apply IH in Hpass as (kept & -> & Hsub).
    apply dispatchOne_cases in Hone
      as [(_ & _ & ->) | (idx & a & route & _ & _ & _ & _ & _ & ->)].
    + exists (em :: kept). rewrite <- app_assoc. split; [reflexivity |].
      apply sublist_skip, Hsub.
    + exists kept. split; [reflexivity | apply sublist_cons, Hsub].
Qed.




(** A best-first listing without ties - no two entries with the same priority
    and the same time stamp - is strictly ranked. *)
Lemma best_first_strict (l : list Emergency) :
  StronglySorted rankLe l ->
  (forall i j a b, l !! i = Some a -> l !! j = Some b -> (i < j)%nat ->
                   ~ (priority a = priority b /\ (createdAt a == createdAt b)%Q)) ->
  StronglySorted rankLt l.
Proof.
  induction 1 as [| c l Hs IH Hall]; intros Hties; constructor.
  - apply IH. intros i j a b Hi Hj Hlt. apply (Hties (S i) (S j)); auto. lia.
  - rewrite Forall_forall in *. intros b Hb.
    apply list_elem_of_lookup in Hb as Hb'. destruct Hb' as [j Hj].
    specialize (Hties 0%nat (S j) c b eq_refl Hj ltac:(lia)).
    destruct (Hall b Hb) as [Hp | [Hp Ht]]; [left; exact Hp |].
    right. split; [exact Hp |].
    apply Qle_lteq in Ht as [Ht | Ht]; [exact Ht | tauto].
Qed.











End Specified.


(** ** Further properties of the router, the hospital and the main loop *)

(** *** The router: the nearest intersection, the shape of a route *)

Lemma findPathOnRoads_length (fuel : nat) (start end_ : Vector2) (g : Grid)
    (route : list Vector2) :
  findPathOnRoads fuel start end_ g = Some route ->
  (2 <= length route)%nat /\ last route = Some end_.
Proof.
  unfold findPathOnRoads.
  destruct (roadLoop _ _ _ _ _) as [out |] eqn:Hloop; [| discriminate].
  intros [= <-]. apply roadLoop_extends in Hloop as [more ->].
  split; [rewrite !length_app; simpl; lia | apply last_snoc].
Qed.

Lemma scanIntersection_inv (target : Vector2) (g : Grid) (iy ix : Z)
    (seen : list Vector2) (st : float * Vector2) :
  nearestInv target seen st ->
  nearestInv target (seen ++ [inter g ix iy]) (scanIntersection target g iy ix st).
Proof.
  intros [Hmin Hbest]. unfold scanIntersection.
  set (p := inter g ix iy).
  destruct (flt (distance target p) (fst st)) eqn:Hlt.
  - split; simpl.
    + intros j q Hj. apply lookup_snoc_Some in Hj as [[_ Hj] | [_ <-]].
      * destruct (flt (distance target q) (distance target p)) eqn:E; [| reflexivity].
        rewrite <- (Hmin j q Hj). symmetry. eapply flt_trans; eassumption.
      * apply flt_irrefl.
    + right. split; [reflexivity |]. exists (length seen).
      split; [apply lookup_snoc_Some; right; auto |]. split; [| split].
      * destruct Hbest as [-> | [Hd (k & _ & Hmax & _)]]; [exact Hlt |].
        rewrite Hd in Hlt. eapply flt_trans; eassumption.
      * intros j q Hj. apply lookup_snoc_Some in Hj as [[_ Hj] | [_ <-]].
        -- destruct (flt (distance target q) (distance target p)) eqn:E; [| reflexivity].
           rewrite <- (Hmin j q Hj). symmetry. eapply flt_trans; eassumption.
        -- apply flt_irrefl.
      * intros j q Hj Heq. apply lookup_snoc_Some in Hj as [[_ Hj] | [-> _]]; [| lia].
        pose proof (feq_flt _ _ _ Heq Hlt) as C. rewrite (Hmin j q Hj) in C. discriminate.
  - split.
    + intros j q Hj. apply lookup_snoc_Some in Hj as [[_ Hj] | [_ <-]]; eauto.
    + destruct Hbest as [-> | [Hd (k & Hk & Hmax & Hleast & Hfirst)]]; [left; reflexivity |].
      right. split; [exact Hd |]. exists k.
      split; [apply lookup_app_l_Some; exact Hk |]. split; [exact Hmax |]. split.
      * intros j q Hj. apply lookup_snoc_Some in Hj as [[_ Hj] | [_ <-]]; [eauto |].
        rewrite <- Hd. exact Hlt.
      * intros j q Hj Heq. apply lookup_snoc_Some in Hj as [[_ Hj] | [-> _]]; [eauto |].
        apply lookup_lt_Some in Hk. lia.
Qed.

Lemma scanRow_inv (target : Vector2) (g : Grid) (iy : Z) :
  forall seen st,
    nearestInv target seen st ->
    nearestInv target (seen ++ rowIntersections g iy) (scanRow target g st iy).
Proof.
  unfold scanRow, rowIntersections.
  induction (seqZ 0 (blocksX g + 1)) as [| ix l IH]; intros seen st Hst; simpl.
  - rewrite app_nil_r. exact Hst.
  - replace (seen ++ inter g ix iy :: map (fun ix0 => inter g ix0 iy) l)
      with ((seen ++ [inter g ix iy]) ++ map (fun ix0 => inter g ix0 iy) l)
      by (rewrite <- app_assoc; reflexivity).
    apply IH, scanIntersection_inv, Hst.
Qed.

(** X1: [findNearestRoadPoint] returns the nearest intersection, the first one
    in scan order (row by row) among equally near ones, provided some
    intersection is nearer than 1e9 in the computed distance; otherwise it
    returns the target itself. *)
Theorem findNearestRoadPoint_nearest (target : Vector2) (g : Grid) :
  (inSnapRange g target ->
   nearestOf target (intersections g) (findNearestRoadPoint target g))
  /\ (~ inSnapRange g target -> findNearestRoadPoint target g = target).
Proof.
  unfold findNearestRoadPoint, inSnapRange, intersections.
  assert (H : forall ys seen st,
             nearestInv target seen st ->
             nearestInv target (seen ++ flat_map (rowIntersections g) ys)
                        (fold_left (scanRow target g) ys st)).
  { induction ys as [| iy ys IH]; intros seen st Hst; simpl.
    - rewrite app_nil_r. exact Hst.
    - rewrite app_assoc. apply IH, scanRow_inv, Hst. }
  specialize (H (seqZ 0 (blocksY g + 1)) [] (f1e9, target)). simpl in H.
  destruct H as [Hmin Hbest].
  { split; [intros j p Hj; rewrite lookup_nil in Hj; discriminate | left; reflexivity]. }
  destruct Hbest as [E | [_ Hnear]].
  - rewrite E in *. simpl in *. split; [| reflexivity].
    intros (p & Hp & Hlt). apply list_elem_of_In, list_elem_of_lookup in Hp as [j Hj].
    rewrite (Hmin j p Hj) in Hlt. discriminate.
  - split; [intros _; exact Hnear |].
    intros Hno. exfalso. apply Hno. destruct Hnear as (k & Hk & Hmax & _).
    eexists. split; [| exact Hmax].
    apply list_elem_of_In, list_elem_of_lookup. eauto.
Qed.

Lemma last_cons_default {A} (l : list A) :
  forall a d, List.last (a :: l) d = List.last l a.
Proof.
  induction l as [| b l IH]; intros a d; [reflexivity |].
  change (List.last (a :: b :: l) d) with (List.last (b :: l) d).
  rewrite !(IH b). reflexivity.
Qed.

Lemma roadStep_x (bs : float) (cur e : Vector2) :
  fgt (fabsf (fsub (x cur) (x e))) f1 = true -> xMove bs cur (roadStep bs cur e).
Proof.
  intros H. unfold roadStep, xMove. rewrite H. simpl. split; [reflexivity |].
  destruct (flt (x cur) (x e)); auto.
Qed.

Lemma roadStep_y (bs : float) (cur e : Vector2) :
  fgt (fabsf (fsub (x cur) (x e))) f1 = false ->
  offRoadTarget cur e = true ->
  yMove bs cur (roadStep bs cur e).
Proof.
  intros Hx Hoff. unfold offRoadTarget in Hoff. rewrite Hx in Hoff. simpl in Hoff.
  unfold roadStep, yMove. rewrite Hx, Hoff. simpl. split; [reflexivity |].
  destruct (flt (y cur) (y e)); auto.
Qed.

(** Once X is aligned the loop only moves along Y. *)
Lemma roadLoop_column (fuel : nat) (bs : float) (e : Vector2) :
  forall cur route out,
    fgt (fabsf (fsub (x cur) (x e))) f1 = false ->
    roadLoop fuel bs e cur route = Some out ->
    exists ys, out = route ++ ys
      /\ linked (yMove bs) cur ys
      /\ offRoadTarget (List.last ys cur) e = false.
Proof.
  induction fuel as [| fuel IH]; intros cur route out Hx.
  - rewrite roadLoop_O. destruct (offRoadTarget cur e) eqn:Hoff; [discriminate |].
    intros [= <-]. exists []. rewrite app_nil_r. simpl. auto.
  - rewrite roadLoop_S. destruct (offRoadTarget cur e) eqn:Hoff.
    + intros Hloop. pose proof (roadStep_y bs cur e Hx Hoff) as Hmove.
      assert (Hx' : fgt (fabsf (fsub (x (roadStep bs cur e)) (x e))) f1 = false).
      { destruct Hmove as [-> _]. exact Hx. }
      destruct (IH _ _ _ Hx' Hloop) as (ys & -> & Hl & Hend).
      exists (roadStep bs cur e :: ys). rewrite <- app_assoc. split; [reflexivity |].
      split; [split; assumption |].
      rewrite last_cons_default. exact Hend.
    + intros [= <-]. exists []. rewrite app_nil_r. simpl. auto.
Qed.

Lemma roadLoop_row_column (fuel : nat) (bs : float) (e : Vector2) :
  forall cur route out,
    roadLoop fuel bs e cur route = Some out ->
    exists xs ys, out = route ++ xs ++ ys
      /\ linked (xMove bs) cur xs
      /\ linked (yMove bs) (List.last xs cur) ys
      /\ offRoadTarget (List.last ys (List.last xs cur)) e = false.
Proof.
  induction fuel as [| fuel IH]; intros cur route out.
  - rewrite roadLoop_O. destruct (offRoadTarget cur e) eqn:Hoff; [discriminate |].
    intros [= <-]. exists [], []. rewrite app_nil_r. simpl. auto.
  - destruct (fgt (fabsf (fsub (x cur) (x e))) f1) eqn:Hx.
    + rewrite roadLoop_S. unfold offRoadTarget at 1. rewrite Hx. simpl.
      intros Hloop. destruct (IH _ _ _ Hloop) as (xs & ys & -> & Hlx & Hly & Hend).
      exists (roadStep bs cur e :: xs), ys. rewrite <- !app_assoc.
      split; [reflexivity |]. split; [split; [apply roadStep_x, Hx | exact Hlx] |].
      rewrite last_cons_default. auto.
    + intros Hloop. destruct (roadLoop_column _ _ _ _ _ _ Hx Hloop) as (ys & -> & Hl & Hend).
      exists [], ys. simpl. auto.
Qed.

(** X2: Shape of a route: after the snapped start the route runs cell by cell
    along X, on the row of the start, as long as X is more than 1 away from
    the snapped end, then cell by cell along Y on one column, until both
    coordinates are within 1 of the snapped end; the raw end point closes the
    route. *)
Theorem findPathOnRoads_row_then_column (fuel : nat) (start end_ : Vector2) (g : Grid)
    (route : list Vector2) :
  findPathOnRoads fuel start end_ g = Some route ->
  exists xs ys,
    route = findNearestRoadPoint start g :: xs ++ ys ++ [end_]
    /\ linked (xMove (blockSize g)) (findNearestRoadPoint start g) xs
    /\ linked (yMove (blockSize g)) (List.last xs (findNearestRoadPoint start g)) ys
    /\ offRoadTarget (List.last ys (List.last xs (findNearestRoadPoint start g)))
                     (findNearestRoadPoint end_ g) = false.
Proof.
  unfold findPathOnRoads.
  destruct (roadLoop _ _ _ _ _) as [out |] eqn:Hloop; [| discriminate].
  intros [= <-]. apply roadLoop_row_column in Hloop as (xs & ys & -> & Hlx & Hly & Hend).
  exists xs, ys. split; [| auto]. simpl. rewrite <- app_assoc. reflexivity.
Qed.

(** Between any two intersections of the map of [main] the loop passes
    through intersections only. *)
Lemma roadLoop_city_lattice (s e : Vector2) :
  onLattice cityGrid s -> onLattice cityGrid e ->
  exists route, roadLoop 6 (blockSize cityGrid) e s [s] = Some route
                /\ (length route <= 7)%nat
                /\ Forall (onLattice cityGrid) route.
Proof.
  intros Hs He. vm_compute in Hs, He.
  repeat (destruct Hs as [<- | Hs]); try contradiction;
    repeat (destruct He as [<- | He]); try contradiction;
    (eexists; split; [vm_compute; reflexivity |]; split; [simpl; lia |];
     repeat (apply List.Forall_cons;
             [unfold onLattice; vm_compute; repeat (first [left; reflexivity | right]) |]);
     apply List.Forall_nil).
Qed.

(** X3: On the map of [main] the router returns for any two points within
    snapping range, after at most six iterations of its loop; the route has at
    most eight waypoints, and all of them but the raw end point are
    intersections of the lattice. *)
Theorem findPathOnRoads_returns_in_city (fuel : nat) (start end_ : Vector2) :
  (6 <= fuel)%nat ->
  inSnapRange cityGrid start -> inSnapRange cityGrid end_ ->
  exists route, findPathOnRoads fuel start end_ cityGrid = Some route
                /\ (length route <= 8)%nat
                /\ Forall (onLattice cityGrid) (removelast route).
Proof.
  intros Hfuel Hs He. apply inSnapRange_onLattice in Hs, He.
  destruct (roadLoop_city_lattice _ _ Hs He) as (out & Hloop & Hlen & Hall).
  exists (out ++ [end_]).
  split; [| split; [rewrite length_app; simpl; lia | rewrite removelast_last; exact Hall]].
  apply (findPathOnRoads_fuel_mono 6 fuel _ _ _ _ Hfuel).
  unfold findPathOnRoads. rewrite Hloop. reflexivity.
Qed.

(** *** Properties of single ambulances that every operation keeps *)

Section RosterInvariant.

Context {PQ : PriorityQueue}.

Lemma dispatchPass_Forall (P : Ambulance -> Prop) (fuel : nat) (g : Grid) :
  (forall a em route,
      P a -> available a = true ->
      findPathOnRoads fuel (pos a) (location em) g = Some route ->
      P (sendToScene a route em)) ->
  forall ems ambs backlog ambs' backlog',
    dispatchPass fuel g ems (ambs, backlog) = Some (ambs', backlog') ->
    Forall P ambs -> Forall P ambs'.
Proof.
  intros Hsend. induction ems as [| em ems IH]; intros ambs backlog ambs' backlog';
    cbn [dispatchPass].
  - intros [= <- <-] H. exact H.
  - destruct (dispatchOne fuel g em (ambs, backlog)) as [[ambs1 backlog1] |] eqn:Hone;
      [| discriminate].
    intros Hpass Hall. apply (IH _ _ _ _ Hpass).
    apply dispatchOne_cases in Hone
      as [(_ & -> & _) | (idx & a & route & _ & Hnear & Hk & Hroute & -> & _)];
      [exact Hall |].
    destruct Hnear as (a1 & Hk1 & Hav & _). rewrite Hk in Hk1. injection Hk1 as <-.
    apply Forall_insert; [exact Hall |].
    apply Hsend; [| exact Hav | exact Hroute].
    rewrite Forall_lookup in Hall. exact (Hall _ _ Hk).
Qed.

Lemma updateLoop_Forall (P : Ambulance -> Prop) (fuel : nat) (g : Grid)
    (frameTime duration : float) :
  (forall a c a' c',
      P a -> updateAmbulance fuel g frameTime duration a c = Some (a', c') -> P a') ->
  forall ambs cnt ambs' cnt',
    updateLoop fuel g frameTime duration ambs cnt = Some (ambs', cnt') ->
    Forall P ambs -> Forall P ambs'.
Proof.
  intros Hupd. induction ambs as [| a ambs IH]; intros cnt ambs' cnt'; simpl.
  - intros [= <- <-] _. constructor.
  - destruct (updateAmbulance fuel g frameTime duration a cnt) as [[a1 c1] |] eqn:Hu;
      [| discriminate].
    destruct (updateLoop fuel g frameTime duration ambs c1) as [[rest' c2] |] eqn:Hl;
      [| discriminate].
    intros [= <- <-] Hall. inversion Hall as [| ? ? Ha Hrest]; subst.
    constructor; [eapply Hupd; eassumption | eapply IH; eassumption].
Qed.

(** A property of single ambulances that the constructor establishes and
    the motion step, the dispatch and the state machine keep holds of the
    whole roster in every reachable state. *)
Lemma reachable_Forall (P : Ambulance -> Prop) :
  (forall aid p, P (newAmbulance aid p)) ->
  (forall dt a, P a -> P (moveAmbulance dt a)) ->
  (forall fuel g a em route,
      P a -> available a = true ->
      findPathOnRoads fuel (pos a) (location em) g = Some route ->
      P (sendToScene a route em)) ->
  (forall fuel g frameTime duration a c a' c',
      P a -> updateAmbulance fuel g frameTime duration a c = Some (a', c') -> P a') ->
  forall h, reachable h -> Forall P (ambulances h).
Proof.
  intros Hnew Hmove Hsend Hupd h Hr.
  induction Hr as [loc ps sid dur | h h' _ IH Hstep].
  - simpl. revert sid. induction ps as [| p ps IHp]; intros sid; simpl; constructor;
      [apply Hnew | apply IHp].
  - destruct Hstep as
      [now incoming h h' Hrecv | dt h | fuel g h h' Hd | fuel g ft h h' Hu].
    + apply receiveEmergency_held in Hrecv as (_ & _ & _ & _ & ->). exact IH.
    + simpl. apply Forall_forall. intros a Ha.
      apply list_elem_of_In, in_map_iff in Ha as (a0 & <- & Ha0).
      apply Hmove. rewrite Forall_forall in IH. apply IH, list_elem_of_In, Ha0.
    + apply dispatchVehicles_inv in Hd as (backlog & Hpass & _).
      eapply dispatchPass_Forall; [| exact Hpass | exact IH].
      intros a em route. apply Hsend.
    + unfold updateAfterMovement in Hu.
      destruct (updateLoop _ _ _ _ _ _) as [[ambs cnt] |] eqn:Hl; [| discriminate].
      injection Hu as <-. simpl.
      eapply updateLoop_Forall; [| exact Hl | exact IH].
      intros a c a' c'. apply Hupd.
Qed.

End RosterInvariant.

(** *** The life cycle of an ambulance *)

Lemma fsub_diag_cases (v : float) : fsub v v = S754_zero false \/ fsub v v = S754_nan.
Proof.
  destruct v as [s | s | | s m e]; try (destruct s; auto; fail); auto.
  left. unfold fsub, SFsub. rewrite Z.sub_diag. reflexivity.
Qed.

(** The computed distance of a point to itself is never above 1, whatever
    the coordinates. *)
Lemma distance_self_small (u v : float) :
  fgt (fsqrt (fadd (fmul (fsub u u) (fsub u u)) (fmul (fsub v v) (fsub v v)))) f1 = false.
Proof.
  destruct (fsub_diag_cases u) as [-> | ->], (fsub_diag_cases v) as [-> | ->]; reflexivity.
Qed.

Lemma moveAmbulance_parked (dt : float) (a : Ambulance) :
  status a = IDLE -> pos a = parkingPos a -> path a = [] -> moveAmbulance dt a = a.
Proof.
  intros Hs Hp Hpath. unfold moveAmbulance. rewrite Hpath, Hs, Hp. simpl.
  rewrite distance_self_small. reflexivity.
Qed.

Lemma updateAmbulance_status (fuel : nat) (g : Grid) (frameTime duration : float)
    (a a' : Ambulance) (cnt cnt' : Z) :
  updateAmbulance fuel g frameTime duration a cnt = Some (a', cnt') ->
  status a' = status a \/ status a' = nextStatus (status a).
Proof.
  unfold updateAmbulance. destruct (status a) eqn:Hs.
  - intros [= <- <-]. left. exact Hs.
  - destruct (currentPathIndex a >=? pathSize a); [intros [= <- <-]; right; reflexivity |].
    destruct (last (path a)) as [targ |]; [| intros [= <- <-]; left; exact Hs].
    destruct (flt (distance targ (pos a)) f4); intros [= <- <-];
      [right; reflexivity | left; exact Hs].
  - simpl. destruct (fle (fsub (onSceneTimer a) frameTime) f0).
    + destruct (findPathOnRoads _ _ _ _); [| discriminate].
      intros [= <- <-]. right. reflexivity.
    + intros [= <- <-]. left. exact Hs.
  - destruct (flt (distance (parkingPos a) (pos a)) f4 || (currentPathIndex a >=? pathSize a));
      intros [= <- <-]; [right; reflexivity | left; exact Hs].
Qed.

Lemma updateLoop_length (fuel : nat) (g : Grid) (frameTime duration : float)
    (ambs : list Ambulance) :
  forall cnt ambs' cnt',
    updateLoop fuel g frameTime duration ambs cnt = Some (ambs', cnt') ->
    length ambs' = length ambs.
Proof.
  induction ambs as [| a ambs IH]; intros cnt ambs' cnt'; simpl.
  - intros [= <- <-]. reflexivity.
  - destruct (updateAmbulance fuel g frameTime duration a cnt) as [[a1 c1] |];
      [| discriminate].
    destruct (updateLoop fuel g frameTime duration ambs c1) as [[rest' c2] |] eqn:Hl;
      [| discriminate].
    intros [= <- <-]. simpl. f_equal. eapply IH; exact Hl.
Qed.

Section LifeCycle.

Context {PQ : PriorityQueue}.

Lemma dispatchPass_length (fuel : nat) (g : Grid) (ems : list Emergency) :
  forall ambs backlog ambs' backlog',
    dispatchPass fuel g ems (ambs, backlog) = Some (ambs', backlog') ->
    length ambs' = length ambs.
Proof.
  intros ambs backlog ambs' backlog' Hpass.
  apply dispatchPass_ids in Hpass.
  rewrite <- (length_map amb_id ambs'), Hpass, length_map. reflexivity.
Qed.

(** X4: Life cycle: one operation leaves the status of an ambulance as it is
    or moves it to the next stage of IDLE, TO_SCENE, ON_SCENE, RETURNING,
    IDLE; no stage is skipped and none is taken backwards, and the roster
    keeps its length. *)
Theorem status_advances_in_order (h h' : Hospital) :
  step h h' ->
  length (ambulances h') = length (ambulances h)
  /\ forall i a, ambulances h !! i = Some a ->
       exists a', ambulances h' !! i = Some a'
         /\ (status a' = status a \/ status a' = nextStatus (status a)).
Proof.
  intros Hstep. destruct Hstep as
    [now incoming h h' Hrecv | dt h | fuel g h h' Hd | fuel g ft h h' Hu].
  - apply receiveEmergency_held in Hrecv as (_ & _ & _ & _ & ->).
    split; [reflexivity |]. intros i a Hi. exists a. auto.
  - simpl. split; [apply length_map |]. intros i a Hi.
    exists (moveAmbulance dt a). rewrite lookup_map, Hi. split; [reflexivity |].
    left. apply moveAmbulance_fields.
  - apply dispatchVehicles_inv in Hd as (backlog & Hpass & _).
    split; [eapply dispatchPass_length; exact Hpass |]. intros i a Hi.
    destruct (dispatchPass_lookup _ _ _ _ _ _ _ _ _ Hpass Hi)
      as [H | (Hav & route & em & _ & H)].
    + exists a. auto.
    + exists (sendToScene a route em). split; [exact H |]. right.
      rewrite (available_idle _ Hav). reflexivity.
  - unfold updateAfterMovement in Hu.
    destruct (updateLoop _ _ _ _ _ _) as [[ambs cnt] |] eqn:Hl; [| discriminate].
    injection Hu as <-. simpl.
    split; [eapply updateLoop_length; exact Hl |]. intros i a Hi.
    destruct (updateLoop_lookup _ _ _ _ _ _ _ _ _ _ Hl Hi) as (c & a' & c' & Hu & Hi').
    exists a'. split; [exact Hi' |]. eapply updateAmbulance_status; exact Hu.
Qed.

(** *** What no operation changes *)

Lemma moveAmbulance_fixed (dt : float) (a : Ambulance) :
  fixedPart (moveAmbulance dt a) = fixedPart a.
Proof.
  unfold moveAmbulance.
  repeat match goal with
         | |- context [if ?c then _ else _] => destruct c
         | |- context [match ?c with _ => _ end] => destruct c
         end; reflexivity.
Qed.

Lemma updateAmbulance_fixed (fuel : nat) (g : Grid) (frameTime duration : float)
    (a a' : Ambulance) (cnt cnt' : Z) :
  updateAmbulance fuel g frameTime duration a cnt = Some (a', cnt') ->
  fixedPart a' = fixedPart a.
Proof.
  unfold updateAmbulance.
  repeat match goal with
         | |- context [if ?c then _ else _] => destruct c
         | |- context [match ?c with _ => _ end] => destruct c
         end; try discriminate; intros [= <- <-]; reflexivity.
Qed.

Lemma updateLoop_fixed (fuel : nat) (g : Grid) (frameTime duration : float)
    (ambs : list Ambulance) :
  forall cnt ambs' cnt',
    updateLoop fuel g frameTime duration ambs cnt = Some (ambs', cnt') ->
    map fixedPart ambs' = map fixedPart ambs.
Proof.
  induction ambs as [| a ambs IH]; intros cnt ambs' cnt'; simpl.
  - intros [= <- <-]. reflexivity.
  - destruct (updateAmbulance fuel g frameTime duration a cnt) as [[a1 c1] |] eqn:Hu;
      [| discriminate].
    destruct (updateLoop fuel g frameTime duration ambs c1) as [[rest' c2] |] eqn:Hl;
      [| discriminate].
    intros [= <- <-]. simpl.
    rewrite (updateAmbulance_fixed _ _ _ _ _ _ _ _ Hu), (IH _ _ _ Hl). reflexivity.
Qed.

Lemma dispatchPass_fixed (fuel : nat) (g : Grid) (ems : list Emergency) :
  forall ambs backlog ambs' backlog',
    dispatchPass fuel g ems (ambs, backlog) = Some (ambs', backlog') ->
    map fixedPart ambs' = map fixedPart ambs.
Proof.
  induction ems as [| em ems IH]; intros ambs backlog ambs' backlog'; cbn [dispatchPass].
  - intros [= <- <-]. reflexivity.
  - destruct (dispatchOne fuel g em (ambs, backlog)) as [[ambs1 backlog1] |] eqn:Hone;
      [| discriminate].
    intros Hpass. rewrite (IH _ _ _ _ Hpass).
    apply dispatchOne_cases in Hone
      as [(_ & -> & _) | (idx & a & route & _ & _ & Hk & _ & -> & _)]; [reflexivity |].
    eapply map_insert_same; [exact Hk | reflexivity].
Qed.

Lemma step_fixed (h h' : Hospital) :
  step h h' ->
  hosp_location h' = hosp_location h
  /\ onSceneDurationSec h' = onSceneDurationSec h
  /\ map fixedPart (ambulances h') = map fixedPart (ambulances h).
Proof.
  intros Hstep. destruct Hstep as
    [now incoming h h' Hrecv | dt h | fuel g h h' Hd | fuel g ft h h' Hu].
  - unfold receiveEmergency in Hrecv.
    destruct (nextEmergencyId h <? INT_MAX); [| discriminate].
    injection Hrecv as <-. auto.
  - simpl. repeat split. rewrite map_map. apply map_ext, moveAmbulance_fixed.
  - pose proof Hd as Hd'.
    apply dispatchVehicles_inv in Hd as (backlog & Hpass & _ & _ & _ & Hdur).
    split; [| split; [exact Hdur | eapply dispatchPass_fixed; exact Hpass]].
    unfold dispatchVehicles in Hd'.
    destruct (Nat.eqb _ _); [injection Hd' as <-; reflexivity |].
    destruct (dispatchLoop _ _ _ _ _) as [[q [ambs bl]] |]; [| discriminate].
    injection Hd' as <-. reflexivity.
  - unfold updateAfterMovement in Hu.
    destruct (updateLoop _ _ _ _ _ _) as [[ambs cnt] |] eqn:Hl; [| discriminate].
    injection Hu as <-. simpl. repeat split. eapply updateLoop_fixed; exact Hl.
Qed.

Lemma parkAmbulances_fixed (parkingPositions : list Vector2) :
  forall aid,
    map parkingPos (parkAmbulances aid parkingPositions) = parkingPositions
    /\ map pos (parkAmbulances aid parkingPositions) = parkingPositions
    /\ Forall (fun a => speed a = f150 /\ status a = IDLE)
              (parkAmbulances aid parkingPositions).
Proof.
  induction parkingPositions as [| p ps IH]; intros aid; simpl.
  - repeat split. constructor.
  - destruct (IH (aid + 1)) as (-> & -> & Hall). repeat split.
    constructor; [split; reflexivity | exact Hall].
Qed.

(** X5: The configuration given to the constructor is never changed: after any
    number of operations the hospital has its location and on-scene duration,
    one ambulance per parking position, in the order given, with consecutive
    ids from [startAmbId], its own parking position and the speed 150. *)
Theorem configuration_is_fixed loc parkingPositions startAmbId onSceneDuration
    (h : Hospital) :
  steps (Hospital_new loc parkingPositions startAmbId onSceneDuration) h ->
  hosp_location h = loc
  /\ onSceneDurationSec h = onSceneDuration
  /\ map parkingPos (ambulances h) = parkingPositions
  /\ map amb_id (ambulances h)
     = seqZ startAmbId (Z.of_nat (length parkingPositions))
  /\ Forall (fun a => speed a = f150) (ambulances h).
Proof.
  intros Hs.
  assert (H : hosp_location h = loc
              /\ onSceneDurationSec h = onSceneDuration
              /\ map fixedPart (ambulances h)
                 = map fixedPart (parkAmbulances startAmbId parkingPositions)).
  { remember (Hospital_new loc parkingPositions startAmbId onSceneDuration) as h0 eqn:E.
    induction Hs as [h | h h1 h' _ IH Hstep].
    - subst h. auto.
    - destruct (IH E) as (Hl & Hd & Hf).
      destruct (step_fixed _ _ Hstep) as (-> & -> & ->). auto. }
  destruct H as (Hl & Hd & Hf).
  destruct (parkAmbulances_fixed parkingPositions startAmbId) as (Hpark & _ & Hsp).
  destruct (parkAmbulances_ids parkingPositions startAmbId) as [Hids _].
  split; [exact Hl |]. split; [exact Hd |].
  assert (Hpp : map parkingPos (ambulances h) = parkingPositions).
  { rewrite <- Hpark.
    transitivity (map (fun t => snd (fst t)) (map fixedPart (ambulances h))).
    - rewrite map_map. reflexivity.
    - rewrite Hf, map_map. reflexivity. }
  split; [exact Hpp |]. split.
  - rewrite <- Hids.
    transitivity (map (fun t => fst (fst t)) (map fixedPart (ambulances h))).
    + rewrite map_map. reflexivity.
    + rewrite Hf, map_map. reflexivity.
  - assert (Hsp' : map speed (ambulances h)
                   = map speed (parkAmbulances startAmbId parkingPositions)).
    { transitivity (map (fun t => snd t) (map fixedPart (ambulances h))).
      - rewrite map_map. reflexivity.
      - rewrite Hf, map_map. reflexivity. }
    apply Forall_forall. intros a Ha.
    apply list_elem_of_In in Ha.
    apply (in_map speed) in Ha. rewrite Hsp' in Ha.
    apply in_map_iff in Ha as (b & Hb & Hin).
    rewrite Forall_forall in Hsp. apply list_elem_of_In, Hsp in Hin. destruct Hin as [E _].
    congruence.
Qed.

End LifeCycle.

(** *** Routes, cursors and counters in reachable states *)

(** The cursor advances only past a waypoint that exists. *)
Lemma moveAmbulance_cursor (dt : float) (a : Ambulance) :
  currentPathIndex (moveAmbulance dt a) = currentPathIndex a
  \/ (currentPathIndex a < pathSize a
      /\ currentPathIndex (moveAmbulance dt a) = currentPathIndex a + 1).
Proof.
  unfold moveAmbulance.
  destruct (negb (Nat.eqb (length (path a)) 0)); simpl.
  - destruct (Z.ltb_spec (currentPathIndex a) (pathSize a)) as [Hlt | Hge].
    + destruct (waypoint (path a) (currentPathIndex a)); [| left; reflexivity].
      match goal with |- context [if ?c then _ else _] => destruct c end; simpl;
        [left; reflexivity | right; split; [exact Hlt | reflexivity]].
    + destruct (status a); try (left; reflexivity).
      match goal with |- context [if ?c then _ else _] => destruct c end;
        left; reflexivity.
  - destruct (status a); try (left; reflexivity).
    match goal with |- context [if ?c then _ else _] => destruct c end;
      left; reflexivity.
Qed.

Lemma moveAmbulance_routeOk (dt : float) (a : Ambulance) :
  routeOk a -> routeOk (moveAmbulance dt a).
Proof.
  intros [Hc Hp]. destruct (moveAmbulance_fields dt a) as (Es & _ & _ & _ & _ & Ep & _).
  unfold routeOk, pathSize in *. rewrite Es, Ep. split; [| exact Hp].
  destruct (moveAmbulance_cursor dt a) as [-> | [Hlt ->]]; unfold pathSize in *; lia.
Qed.

Lemma updateAmbulance_routeOk (fuel : nat) (g : Grid) (frameTime duration : float)
    (a a' : Ambulance) (cnt cnt' : Z) :
  routeOk a -> updateAmbulance fuel g frameTime duration a cnt = Some (a', cnt') ->
  routeOk a'.
Proof.
  intros [Hc Hp]. unfold updateAmbulance, routeOk, pathSize in *.
  destruct (status a) eqn:Hs.
  - intros [= <- <-]. rewrite Hs. auto.
  - destruct (currentPathIndex a >=? Z.of_nat (length (path a)));
      [intros [= <- <-]; simpl; auto |].
    destruct (last (path a)) as [targ |]; [| intros [= <- <-]; rewrite Hs; auto].
    destruct (flt (distance targ (pos a)) f4); intros [= <- <-]; simpl;
      rewrite ?Hs; auto.
    split; [lia | exact Hp].
  - simpl. destruct (fle (fsub (onSceneTimer a) frameTime) f0).
    + destruct (findPathOnRoads _ _ _ _) as [route |] eqn:Hroute; [| discriminate].
      intros [= <- <-]. simpl. apply findPathOnRoads_length in Hroute as [Hlen _].
      split; [lia | exact Hlen].
    + intros [= <- <-]. simpl. rewrite Hs. auto.
  - destruct (flt (distance (parkingPos a) (pos a)) f4
              || (currentPathIndex a >=? Z.of_nat (length (path a))));
      intros [= <- <-]; simpl; rewrite ?Hs; auto.
    split; [lia | reflexivity].
Qed.

Lemma updateAmbulance_parked (fuel : nat) (g : Grid) (frameTime duration : float)
    (a a' : Ambulance) (cnt cnt' : Z) :
  parkedWhenIdle a -> updateAmbulance fuel g frameTime duration a cnt = Some (a', cnt') ->
  parkedWhenIdle a'.
Proof.
  intros Hp. unfold updateAmbulance, parkedWhenIdle in *.
  destruct (status a) eqn:Hs.
  - intros [= <- <-]. rewrite Hs. auto.
  - destruct (currentPathIndex a >=? pathSize a);
      [intros [= <- <-]; simpl; discriminate |].
    destruct (last (path a)) as [targ |]; [| intros [= <- <-]; rewrite Hs; discriminate].
    destruct (flt (distance targ (pos a)) f4); intros [= <- <-]; simpl;
      rewrite ?Hs; discriminate.
  - simpl. destruct (fle (fsub (onSceneTimer a) frameTime) f0).
    + destruct (findPathOnRoads _ _ _ _) as [route |]; [| discriminate].
      intros [= <- <-]. simpl. discriminate.
    + intros [= <- <-]. simpl. rewrite Hs. discriminate.
  - destruct (flt (distance (parkingPos a) (pos a)) f4 || (currentPathIndex a >=? pathSize a));
      intros [= <- <-]; simpl; rewrite ?Hs; [auto | discriminate].
Qed.

(** The count of [handledCount] grows by one for each ambulance released. *)
Lemma updateAmbulance_count (fuel : nat) (g : Grid) (frameTime duration : float)
    (a a' : Ambulance) (cnt cnt' : Z) :
  updateAmbulance fuel g frameTime duration a cnt = Some (a', cnt') ->
  cnt' = cnt + (if released frameTime a then 1 else 0).
Proof.
  unfold updateAmbulance, released. destruct (status a) eqn:Hs.
  - intros [= <- <-]. lia.
  - destruct (currentPathIndex a >=? pathSize a); [intros [= <- <-]; lia |].
    destruct (last (path a)) as [targ |]; [| intros [= <- <-]; lia].
    destruct (flt (distance targ (pos a)) f4); intros [= <- <-]; lia.
  - simpl. destruct (fle (fsub (onSceneTimer a) frameTime) f0).
    + destruct (findPathOnRoads _ _ _ _); [| discriminate].
      intros [= <- <-]. reflexivity.
    + intros [= <- <-]. lia.
  - destruct (flt (distance (parkingPos a) (pos a)) f4 || (currentPathIndex a >=? pathSize a));
      intros [= <- <-]; lia.
Qed.

Lemma updateLoop_count (fuel : nat) (g : Grid) (frameTime duration : float)
    (ambs : list Ambulance) :
  forall cnt ambs' cnt',
    updateLoop fuel g frameTime duration ambs cnt = Some (ambs', cnt') ->
    cnt' = cnt + Z.of_nat (length (List.filter (released frameTime) ambs)).
Proof.
  induction ambs as [| a ambs IH]; intros cnt ambs' cnt'; simpl.
  - intros [= <- <-]. lia.
  - destruct (updateAmbulance fuel g frameTime duration a cnt) as [[a1 c1] |] eqn:Hu;
      [| discriminate].
    destruct (updateLoop fuel g frameTime duration ambs c1) as [[rest' c2] |] eqn:Hl;
      [| discriminate].
    intros [= <- <-]. apply IH in Hl. apply updateAmbulance_count in Hu.
    destruct (released frameTime a); simpl; lia.
Qed.

(** Active ambulances are those that carry an emergency id. *)
Lemma assignedIds_active (ambs : list Ambulance) :
  Forall ambulanceOk ambs ->
  length (assignedIds ambs) = length (List.filter isActive ambs).
Proof.
  induction 1 as [| a ambs (_ & Hid & _) _ IH]; simpl; [reflexivity |].
  assert (Hact : isActive a
                 = match status a with TO_SCENE | ON_SCENE => true | _ => false end)
    by reflexivity.
  rewrite Hact. destruct (status a); cbv beta iota in Hid.
  - destruct Hid as (-> & _). simpl. exact IH.
  - destruct (Z.eqb_spec (assignedEmergencyId a) (-1)); [lia | simpl; lia].
  - destruct (Z.eqb_spec (assignedEmergencyId a) (-1)); [lia | simpl; lia].
  - destruct Hid as (-> & _). simpl. exact IH.
Qed.

Section StateMachine.

Context {PQ : PriorityQueue}.

Lemma reachable_routeOk (h : Hospital) : reachable h -> Forall routeOk (ambulances h).
Proof.
  apply reachable_Forall.
  - intros aid p. split; [unfold pathSize; simpl; lia | reflexivity].
  - intros dt a. apply moveAmbulance_routeOk.
  - intros fuel g a em route _ _ Hroute. apply findPathOnRoads_length in Hroute as [Hlen _].
    split; [unfold pathSize; simpl; lia | exact Hlen].
  - intros fuel g ft dur a c a' c'. apply updateAmbulance_routeOk.
Qed.

Lemma reachable_parkedWhenIdle (h : Hospital) :
  reachable h -> Forall parkedWhenIdle (ambulances h).
Proof.
  apply reachable_Forall.
  - intros aid p _. split; reflexivity.
  - intros dt a Hp Hs. destruct (moveAmbulance_fields dt a) as (Es & _).
    rewrite Es in Hs. destruct (Hp Hs) as [Hpos Hpath].
    rewrite (moveAmbulance_parked dt a Hs Hpos Hpath). auto.
  - intros fuel g a em route _ _ _. intros Hs. discriminate.
  - intros fuel g ft dur a c a' c'. apply updateAmbulance_parked.
Qed.

(** X6: No read outside a route: in every reachable state the cursor of an
    ambulance lies between 0 and the size of its route, so the waypoint
    [path[currentPathIndex]] that the motion step reads exists whenever its
    guard holds; an idle ambulance has no route, and every other ambulance has
    a route of at least two waypoints, so [path.back()] is defined. *)
Theorem cursor_within_route (h : Hospital) (i : nat) (a : Ambulance) :
  reachable h -> ambulances h !! i = Some a ->
  0 <= currentPathIndex a <= pathSize a
  /\ (status a = IDLE <-> path a = [])
  /\ (status a <> IDLE ->
      (2 <= length (path a))%nat /\ exists targ, last (path a) = Some targ)
  /\ (currentPathIndex a < pathSize a ->
      exists t, waypoint (path a) (currentPathIndex a) = Some t).
Proof.
  intros Hr Hi. pose proof (reachable_routeOk h Hr) as Hall.
  rewrite Forall_lookup in Hall. destruct (Hall _ _ Hi) as [Hc Hp].
  assert (Hne : status a <> IDLE -> (2 <= length (path a))%nat).
  { intros Hs. destruct (status a); [contradiction | exact Hp ..]. }
  split; [exact Hc |]. split; [| split].
  - split.
    + intros Hs. rewrite Hs in Hp. exact Hp.
    + intros Hnil. destruct (status a) eqn:Hs; [reflexivity | ..];
        rewrite Hnil in Hp; simpl in Hp; lia.
  - intros Hs. split; [exact (Hne Hs) |].
    destruct (last (path a)) as [targ |] eqn:Hlast; [eauto |].
    apply last_None in Hlast. specialize (Hne Hs). rewrite Hlast in Hne. simpl in Hne. lia.
  - intros Hlt. unfold waypoint, pathSize in *.
    destruct (Z.ltb_spec (currentPathIndex a) 0) as [Hneg | _]; [lia |].
    destruct (path a !! Z.to_nat (currentPathIndex a)) as [t |] eqn:Hw; [eauto |].
    apply lookup_ge_None in Hw. lia.
Qed.

(** X7: In every reachable state an idle ambulance stands exactly on its
    parking position, and the motion step leaves it as it is: the branch that
    lets an idle ambulance drift home never moves one. *)
Theorem idle_ambulance_stays_parked (h : Hospital) (i : nat) (a : Ambulance) :
  reachable h -> ambulances h !! i = Some a -> status a = IDLE ->
  pos a = parkingPos a /\ forall dt, moveAmbulance dt a = a.
Proof.
  intros Hr Hi Hs. pose proof (reachable_parkedWhenIdle h Hr) as Hall.
  rewrite Forall_lookup in Hall. destruct (Hall _ _ Hi Hs) as [Hpos Hpath].
  split; [exact Hpos |]. intros dt. apply moveAmbulance_parked; assumption.
Qed.

(** X8: The ON_SCENE branch of [updateAfterMovement]: the timer loses the
    frame time; when the result is at most 0 and the routing call returns, the
    ambulance turns RETURNING with the route from where it stands to its
    parking position, cursor 0 and no assignment, still busy and not moved;
    otherwise only the timer has changed. [handledCount] grows by the number
    of ambulances released in the call. *)
Theorem on_scene_release (fuel : nat) (g : Grid) (frameTime : float)
    (h h' : Hospital) (i : nat) (a : Ambulance) :
  updateAfterMovement fuel g frameTime h = Some h' ->
  ambulances h !! i = Some a ->
  status a = ON_SCENE ->
  handledCount h'
  = handledCount h + Z.of_nat (length (List.filter (released frameTime) (ambulances h)))
  /\ exists a',
       ambulances h' !! i = Some a'
       /\ onSceneTimer a' = fsub (onSceneTimer a) frameTime
       /\ (fle (fsub (onSceneTimer a) frameTime) f0 = true ->
           findPathOnRoads fuel (pos a) (parkingPos a) g = Some (path a')
           /\ a' = startReturn (setTimer a (fsub (onSceneTimer a) frameTime)) (path a')
           /\ status a' = RETURNING /\ assignedEmergencyId a' = -1
           /\ busy a' = busy a /\ pos a' = pos a)
       /\ (fle (fsub (onSceneTimer a) frameTime) f0 = false ->
           a' = setTimer a (fsub (onSceneTimer a) frameTime)
           /\ status a' = ON_SCENE).
Proof.
  unfold updateAfterMovement.
  destruct (updateLoop _ _ _ _ _ _) as [[ambs cnt] |] eqn:Hl; [| discriminate].
  intros [= <-] Hi Hs. simpl.
  split; [eapply updateLoop_count; exact Hl |].
  destruct (updateLoop_lookup _ _ _ _ _ _ _ _ _ _ Hl Hi) as (c & a' & c' & Hu & Hi').
  exists a'. split; [exact Hi' |].
  unfold updateAmbulance in Hu. rewrite Hs in Hu. simpl in Hu.
  destruct (fle (fsub (onSceneTimer a) frameTime) f0).
  - destruct (findPathOnRoads _ _ _ _) as [route |] eqn:Hroute; [| discriminate].
    injection Hu as <- _. simpl. split; [reflexivity |].
    split; [| discriminate]. intros _. auto 7.
  - injection Hu as <- _. simpl. split; [reflexivity |].
    split; [discriminate |]. intros _. auto.
Qed.

(** X9: The RETURNING branch of [updateAfterMovement]: the ambulance becomes
    IDLE exactly when the computed distance to its parking position is below 4
    or its cursor has consumed the route; it is then put exactly on the
    parking position, with an empty route, cursor 0 and [busy] false;
    otherwise it is left as it was. *)
Theorem returning_arrival (fuel : nat) (g : Grid) (frameTime : float)
    (h h' : Hospital) (i : nat) (a : Ambulance) :
  updateAfterMovement fuel g frameTime h = Some h' ->
  ambulances h !! i = Some a ->
  status a = RETURNING ->
  exists a',
    ambulances h' !! i = Some a'
    /\ (status a' = IDLE <->
        flt (distance (parkingPos a) (pos a)) f4 = true
        \/ pathSize a <= currentPathIndex a)
    /\ (status a' = IDLE ->
        pos a' = parkingPos a /\ path a' = [] /\ currentPathIndex a' = 0
        /\ busy a' = false /\ a' = parkAtBase a)
    /\ (status a' <> IDLE -> a' = a).
Proof.
  unfold updateAfterMovement.
  destruct (updateLoop _ _ _ _ _ _) as [[ambs cnt] |] eqn:Hl; [| discriminate].
  intros [= <-] Hi Hs. simpl.
  destruct (updateLoop_lookup _ _ _ _ _ _ _ _ _ _ Hl Hi) as (c & a' & c' & Hu & Hi').
  exists a'. split; [exact Hi' |].
  unfold updateAmbulance in Hu. rewrite Hs in Hu.
  destruct (flt (distance (parkingPos a) (pos a)) f4) eqn:Hd; simpl in Hu.
  - injection Hu as <- _. simpl.
    split; [split; [intros _; left; reflexivity | reflexivity] |].
    split; [auto 6 | intros H; contradiction].
  - destruct (Z.geb_spec (currentPathIndex a) (pathSize a)) as [Hge | Hlt];
      injection Hu as <- _; simpl.
    + split; [split; [intros _; right; lia | reflexivity] |].
      split; [auto 6 | intros H; contradiction].
    + rewrite Hs.
      split; [split; [discriminate | intros [H | H]; [discriminate | lia]] |].
      split; [discriminate | reflexivity].
Qed.

(** X10: [findNearestAvailableAmbulance] answers -1 exactly when no available
    ambulance has a computed distance below [FLT_MAX] (none is available, or
    every distance is infinite or NaN); an index it returns is within the
    roster and designates an available ambulance. *)
Theorem findNearestAvailableAmbulance_answers (target : Vector2) (ambs : list Ambulance) :
  (findNearestAvailableAmbulance target ambs = None <->
   forall j b, ambs !! j = Some b -> available b = true ->
               flt (distTo target b) FLT_MAX = false)
  /\ (forall idx, findNearestAvailableAmbulance target ambs = Some idx ->
        (idx < length ambs)%nat
        /\ exists a, ambs !! idx = Some a /\ available a = true
                     /\ flt (distTo target a) FLT_MAX = true).
Proof.
  pose proof (findNearestAvailableAmbulance_spec target ambs) as H.
  destruct (findNearestAvailableAmbulance target ambs) as [k |].
  - destruct H as (a & Hk & Hav & Hmax & _). split.
    + split; [discriminate |]. intros Hall. rewrite (Hall _ _ Hk Hav) in Hmax. discriminate.
    + intros idx [= <-]. split; [eapply lookup_lt_Some; exact Hk | eauto].
  - split; [split; [intros _; exact H | reflexivity] | discriminate].
Qed.

(** X11: The dashboard adds up: in every reachable state the number of
    emergencies received so far is the number of those handled, plus those
    pending, plus the number of ambulances en route or on scene; and
    [pendingCount] is the length of the listing [peekAllPending]. *)
Theorem counters_add_up (h : Hospital) :
  reachable h ->
  handled h + pendingCount h
  + Z.of_nat (length (List.filter isActive (ambulances h)))
  = nextEmergencyId h - 1
  /\ pendingCount h = Z.of_nat (length (peekAllPending h))
  /\ 0 <= handled h.
Proof.
  intros Hr. pose proof (reachable_ok h Hr) as [Ha _ _ Hc Hh _].
  destruct (peekAllPending_sorted h) as [Hpeek _].
  unfold handled, pendingCount. rewrite pq_size_spec.
  split; [| split; [rewrite Hpeek; reflexivity | exact Hh]].
  unfold held in Hc. rewrite length_app, length_map, (assignedIds_active _ Ha) in Hc. lia.
Qed.

End StateMachine.

(** *** On scene; the counters over time *)

Lemma waypoint_last (route : list Vector2) (i : Z) (t : Vector2) :
  waypoint route i = Some t -> i + 1 = Z.of_nat (length route) -> last route = Some t.
Proof.
  unfold waypoint. destruct (Z.ltb_spec i 0) as [| Hi]; [discriminate |].
  intros Hw Hlen. rewrite last_lookup. rewrite <- Hw. f_equal. lia.
Qed.

Lemma moveAmbulance_still (dt : float) (a : Ambulance) :
  status a <> IDLE -> currentPathIndex a = pathSize a -> moveAmbulance dt a = a.
Proof.
  intros Hs Hc. unfold moveAmbulance. rewrite Hc, Z.ltb_irrefl, andb_false_r.
  destruct (status a); [contradiction | reflexivity ..].
Qed.

Lemma moveAmbulance_sceneOk (dt : float) (a : Ambulance) :
  routeOk a /\ sceneOk a -> routeOk (moveAmbulance dt a) /\ sceneOk (moveAmbulance dt a).
Proof.
  intros [Hr Hsc]. split; [apply moveAmbulance_routeOk, Hr |].
  unfold sceneOk in *. destruct (status a) eqn:Hs.
  - destruct (moveAmbulance_fields dt a) as (-> & _). rewrite Hs. exact I.
  - unfold moveAmbulance.
    destruct (negb (Nat.eqb (length (path a)) 0)
              && (currentPathIndex a <? pathSize a)) eqn:Hguard.
    + apply andb_prop in Hguard as [_ Hlt]. apply Z.ltb_lt in Hlt.
      destruct (waypoint (path a) (currentPathIndex a)) as [t |] eqn:Hw;
        [| rewrite Hs; exact Hsc].
      match goal with |- context [if ?c then _ else _] => destruct c eqn:Hfar end;
        simpl; rewrite Hs.
      * unfold pathSize. simpl. fold (pathSize a). intros E. lia.
      * unfold pathSize. simpl. intros E.
        exists t. split; [eapply waypoint_last; [exact Hw | exact E] | exact Hfar].
    + rewrite Hs, Hs. exact Hsc.
  - destruct Hsc as [Hc Hat].
    rewrite (moveAmbulance_still dt a) by (rewrite ?Hs; congruence || exact Hc).
    rewrite Hs. auto.
  - destruct (moveAmbulance_fields dt a) as (-> & _). rewrite Hs. exact I.
Qed.

Lemma updateAmbulance_sceneOk (fuel : nat) (g : Grid) (frameTime duration : float)
    (a a' : Ambulance) (cnt cnt' : Z) :
  routeOk a /\ sceneOk a ->
  updateAmbulance fuel g frameTime duration a cnt = Some (a', cnt') ->
  routeOk a' /\ sceneOk a'.
Proof.
  intros [Hr Hsc] Hu. split; [eapply updateAmbulance_routeOk; eassumption |].
  destruct Hr as [Hc _]. revert Hu. unfold updateAmbulance, sceneOk in *.
  destruct (status a) eqn:Hs.
  - intros [= <- <-]. rewrite Hs. exact I.
  - destruct (Z.geb_spec (currentPathIndex a) (pathSize a)) as [Hge | Hlt].
    + intros [= <- <-]. simpl.
      assert (E : currentPathIndex a = pathSize a) by lia.
      split; [exact E |]. destruct (Hsc E) as (targ & Hl & Hnear). eauto.
    + destruct (last (path a)) as [targ |] eqn:Hlast;
        [| intros [= <- <-]; rewrite Hs; intros E; lia].
      destruct (flt (distance targ (pos a)) f4) eqn:Hd; intros [= <- <-]; simpl.
      * split; [reflexivity |]. exists targ. auto.
      * rewrite Hs. intros E. lia.
  - simpl. destruct (fle (fsub (onSceneTimer a) frameTime) f0).
    + destruct (findPathOnRoads _ _ _ _); [| discriminate].
      intros [= <- <-]. exact I.
    + intros [= <- <-]. simpl. rewrite Hs. exact Hsc.
  - destruct (flt (distance (parkingPos a) (pos a)) f4 || (currentPathIndex a >=? pathSize a));
      intros [= <- <-]; simpl; rewrite ?Hs; exact I.
Qed.

Section OnScene.

Context {PQ : PriorityQueue}.

Lemma reachable_sceneOk (h : Hospital) :
  reachable h -> Forall (fun a => routeOk a /\ sceneOk a) (ambulances h).
Proof.
  apply reachable_Forall.
  - intros aid p. split; [split; [unfold pathSize; simpl; lia | reflexivity] | exact I].
  - intros dt a. apply moveAmbulance_sceneOk.
  - intros fuel g a em route _ _ Hroute.
    apply findPathOnRoads_length in Hroute as [Hlen _]. split.
    + split; [unfold pathSize; simpl; lia | exact Hlen].
    + unfold sceneOk, pathSize. simpl. intros E. lia.
  - intros fuel g ft dur a c a' c'. apply updateAmbulance_sceneOk.
Qed.

(** X12: On scene means at the scene: in every reachable state an ambulance
    that is ON_SCENE has consumed its route, is not moved by the motion step,
    and stands less than 4 away from the end of its route, or not more than 3
    away, in the distance that the program computes. *)
Theorem on_scene_is_at_the_scene (h : Hospital) (i : nat) (a : Ambulance) :
  reachable h -> ambulances h !! i = Some a -> status a = ON_SCENE ->
  currentPathIndex a = pathSize a
  /\ (forall dt, moveAmbulance dt a = a)
  /\ exists targ, last (path a) = Some targ
                  /\ (flt (distance targ (pos a)) f4 = true
                      \/ fgt (distance targ (pos a)) f3 = false).
Proof.
  intros Hr Hi Hs. pose proof (reachable_sceneOk h Hr) as Hall.
  rewrite Forall_lookup in Hall. destruct (Hall _ _ Hi) as [_ Hsc].
  unfold sceneOk in Hsc. rewrite Hs in Hsc. destruct Hsc as [Hc Hat].
  split; [exact Hc |]. split; [| exact Hat].
  intros dt. apply moveAmbulance_still; [congruence | exact Hc].
Qed.

Lemma step_counters (h h' : Hospital) :
  step h h' ->
  handledCount h <= handledCount h' /\ nextEmergencyId h <= nextEmergencyId h'
  /\ nextEmergencyId h' <= nextEmergencyId h + 1.
Proof.
  intros Hstep. destruct Hstep as
    [now incoming h h' Hrecv | dt h | fuel g h h' Hd | fuel g ft h h' Hu].
  - apply receiveEmergency_held in Hrecv as (_ & _ & Hn & Hc & _). lia.
  - simpl. lia.
  - apply dispatchVehicles_inv in Hd as (_ & _ & _ & Hn & Hc & _). lia.
  - unfold updateAfterMovement in Hu.
    destruct (updateLoop _ _ _ _ _ _) as [[ambs cnt] |] eqn:Hl; [| discriminate].
    injection Hu as <-. simpl. apply updateLoop_count in Hl. lia.
Qed.

(** X13: The counters only grow: over any number of operations on a reachable
    hospital [handledCount] and [nextEmergencyId] never decrease, and
    [handledCount] stays below [nextEmergencyId]. *)
Theorem counters_never_decrease (h h' : Hospital) :
  reachable h -> steps h h' ->
  handledCount h <= handledCount h'
  /\ nextEmergencyId h <= nextEmergencyId h'
  /\ handledCount h' < nextEmergencyId h'.
Proof.
  intros Hr Hs.
  assert (H : reachable h' /\ handledCount h <= handledCount h'
              /\ nextEmergencyId h <= nextEmergencyId h').
  { induction Hs as [h | h h1 h' _ IH Hstep]; [split; [exact Hr | lia] |].
    destruct (IH Hr) as (Hr1 & Hc & Hn).
    destruct (step_counters _ _ Hstep) as (Hc' & Hn' & _).
    split; [eapply reach_step; eassumption | lia]. }
  destruct H as (Hr' & Hc & Hn). split; [exact Hc |]. split; [exact Hn |].
  pose proof (reachable_ok h' Hr') as [_ _ _ Hcount _ _]. lia.
Qed.

End OnScene.

(** *** What a dispatch leaves alone *)

Section Dispatch.

Context {PQ : PriorityQueue}.

Lemma dispatchPass_lookup_route (fuel : nat) (g : Grid) (ems : list Emergency) :
  forall ambs backlog ambs' backlog' i a,
    dispatchPass fuel g ems (ambs, backlog) = Some (ambs', backlog') ->
    ambs !! i = Some a ->
    ambs' !! i = Some a
    \/ (available a = true
        /\ exists route em,
             In em ems
             /\ findPathOnRoads fuel (pos a) (location em) g = Some route
             /\ ambs' !! i = Some (sendToScene a route em)).
Proof.
  induction ems as [| em ems IH]; intros ambs backlog ambs' backlog' i a;
    cbn [dispatchPass].
  - intros [= <- <-] Hi. left. exact Hi.
  - destruct (dispatchOne fuel g em (ambs, backlog)) as [[ambs1 backlog1] |] eqn:Hone;
      [| discriminate].
    intros Hpass Hi.
    apply dispatchOne_cases in Hone
      as [(_ & -> & ->) | (idx & a0 & route & _ & Hnear & Hk & Hroute & -> & ->)].
    + destruct (IH _ _ _ _ _ _ Hpass Hi) as [H | (Hav & r & e & He & Hr & H)];
        [left; exact H |].
      right. split; [exact Hav |]. exists r, e. split; [right; exact He | auto].
    + destruct (Nat.eq_dec idx i) as [-> | Hne].
      * rewrite Hi in Hk. injection Hk as <-.
        destruct Hnear as (a1 & Hk1 & Hav & _). rewrite Hi in Hk1. injection Hk1 as <-.
        right. split; [exact Hav |]. exists route, em. split; [left; reflexivity |].
        split; [exact Hroute |].
        assert (Hi' : <[i := sendToScene a route em]> ambs !! i
                      = Some (sendToScene a route em)).
        { apply list_lookup_insert_eq. eapply lookup_lt_Some; exact Hi. }
        destruct (IH _ _ _ _ _ _ Hpass Hi') as [H | (Hav' & _)]; [exact H |].
        discriminate.
      * assert (Hi' : <[idx := sendToScene a0 route em]> ambs !! i = Some a).
        { rewrite list_lookup_insert_ne by exact Hne. exact Hi. }
        destruct (IH _ _ _ _ _ _ Hpass Hi') as [H | (Hav & r & e & He & Hr & H)];
          [left; exact H |].
        right. split; [exact Hav |]. exists r, e. split; [right; exact He | auto].
Qed.

(** X14: [dispatchVehicles] never touches an ambulance that is not available:
    a busy ambulance is neither re-assigned nor re-routed. An available one is
    left as it is or sent out for one pending emergency: it keeps its
    position, and its new route is the one the router computes from that
    position, ending at the location of the emergency. *)
Theorem dispatchVehicles_spares_busy (fuel : nat) (g : Grid) (h h' : Hospital)
    (i : nat) (a : Ambulance) :
  dispatchVehicles fuel g h = Some h' ->
  ambulances h !! i = Some a ->
  exists a',
    ambulances h' !! i = Some a'
    /\ pos a' = pos a
    /\ (available a = false -> a' = a)
    /\ (a' = a
        \/ exists em route,
             In em (peekAllPending h)
             /\ findPathOnRoads fuel (pos a) (location em) g = Some route
             /\ last route = Some (location em)
             /\ a' = sendToScene a route em).
Proof.
  intros Hd Hi. apply dispatchVehicles_inv in Hd as (backlog & Hpass & _).
  destruct (dispatchPass_lookup_route _ _ _ _ _ _ _ _ _ Hpass Hi)
    as [H | (Hav & route & em & Hem & Hroute & H)].
  - exists a. auto.
  - exists (sendToScene a route em). split; [exact H |]. split; [reflexivity |].
    split; [intros Hno; congruence |]. right. exists em, route.
    split; [exact Hem |]. split; [exact Hroute |].
    split; [apply (findPathOnRoads_length _ _ _ _ _ Hroute) | reflexivity].
Qed.

(** X15: On the map of [main], [dispatchVehicles] returns whenever the
    ambulances and the pending emergencies are all within snapping range of
    the lattice, each routing call taking at most six iterations. *)
Theorem dispatchVehicles_returns_in_city (fuel : nat) (h : Hospital) :
  (6 <= fuel)%nat ->
  Forall (fun a => inSnapRange cityGrid (pos a)) (ambulances h) ->
  Forall (fun e => inSnapRange cityGrid (location e)) (peekAllPending h) ->
  exists h', dispatchVehicles fuel cityGrid h = Some h'
             /\ length (ambulances h') = length (ambulances h).
Proof.
  intros Hfuel Hambs Hems.
  assert (Hq : Forall (fun e => inSnapRange cityGrid (location e)) (pq_elements (queue_ h))).
  { rewrite <- (proj1 (peekAllPending_sorted h)). exact Hems. }
  destruct (dispatchVehicles_city_total fuel h Hfuel Hambs Hq) as (h' & Hd).
  exists h'. split; [exact Hd |].
  apply dispatchVehicles_inv in Hd as (backlog & Hpass & _).
  eapply dispatchPass_length; exact Hpass.
Qed.

End Dispatch.

Lemma StronglySorted_app_In {A} (R : A -> A -> Prop) (l1 l2 : list A) (a b : A) :
  StronglySorted R (l1 ++ l2) -> In a l1 -> In b l2 -> R a b.
Proof.
  induction l1 as [| c l1 IH]; simpl; [contradiction |].
  intros Hs [-> | Ha] Hb; inversion Hs as [| ? ? Hrest Hall]; subst.
  - rewrite Forall_forall in Hall. apply Hall, list_elem_of_In, in_or_app. right. exact Hb.
  - apply IH; assumption.
Qed.

Section Pending.

Context {PQ : PriorityQueue}.

(** X16: The queue panel shows the most urgent pending emergencies: at most
    three, the first of the best-first listing, each ranked no later than
    every emergency it leaves out; the line "+N more" appears exactly when
    more than three are pending, with N the number left out. *)
Theorem queue_panel_shows_most_urgent (h : Hospital) :
  shownPending (peekAllPending h) ++ drop 3 (peekAllPending h) = peekAllPending h
  /\ Z.of_nat (length (shownPending (peekAllPending h))) = Z.min 3 (pendingCount h)
  /\ (forall e e', In e (shownPending (peekAllPending h)) ->
                   In e' (drop 3 (peekAllPending h)) -> rankLe e e')
  /\ (forall n, morePending (peekAllPending h) = Some n <->
                3 < pendingCount h /\ n = pendingCount h - 3)
  /\ (morePending (peekAllPending h) = None <->
      drop 3 (peekAllPending h) = []).
Proof.
  destruct (peekAllPending_sorted h) as [Hperm Hsorted].
  assert (Hlen : pendingCount h = Z.of_nat (length (peekAllPending h))).
  { unfold pendingCount. rewrite pq_size_spec, Hperm. reflexivity. }
  unfold shownPending, morePending. rewrite Hlen.
  split; [apply take_drop |]. split; [rewrite length_take; lia |]. split.
  - intros e e' He He'. rewrite <- (take_drop 3 (peekAllPending h)) in Hsorted.
    eapply StronglySorted_app_In; eassumption.
  - split.
    + intros n. destruct (Nat.ltb_spec 3 (length (peekAllPending h))) as [Hlt | Hge].
      * split; [intros [= <-]; lia | intros [_ ->]; reflexivity].
      * split; [discriminate | lia].
    + destruct (Nat.ltb_spec 3 (length (peekAllPending h))) as [Hlt | Hge].
      * split; [discriminate |]. intros Hnil.
        apply (f_equal (@length Emergency)) in Hnil. rewrite length_drop in Hnil.
        simpl in Hnil. lia.
      * split; [intros _; apply drop_ge; lia | reflexivity].
Qed.

(** *** A second call of [dispatchVehicles] *)






End Pending.

(** *** The house flags *)

Lemma markHouses_map (amb : Ambulance) (houses : list House) :
  markHouses houses amb
  = map (fun h => if isActive amb
                     && match last (path amb) with
                        | Some target => atDoor h target
                        | None => false
                        end
                  then setEmergency h true else h) houses.
Proof.
  unfold markHouses, isActive, markHouse.
  destruct (status amb); simpl; try (symmetry; apply map_id).
  - apply map_ext. intros h. destruct (last (path amb)); reflexivity.
  - apply map_ext. intros h. destruct (last (path amb)); reflexivity.
Qed.

Lemma fold_markHouses (ambs : list Ambulance) :
  forall houses,
    fold_left markHouses ambs houses
    = map (fun h => setEmergency h (hasEmergency h || calledTo ambs h)) houses.
Proof.
  induction ambs as [| amb ambs IH]; intros houses; simpl.
  - rewrite <- (map_id houses) at 1. apply map_ext. intros [b i e]. unfold setEmergency.
    simpl. rewrite orb_false_r. reflexivity.
  - rewrite IH, markHouses_map, map_map. apply map_ext. intros h.
    unfold calledTo at 2. cbn [existsb]. fold (calledTo ambs h).
    unfold atDoor, setEmergency.
    destruct (isActive amb && _) eqn:E; simpl.
    + rewrite orb_true_r. reflexivity.
    + reflexivity.
Qed.

(** The three loops compute, for each house, whether some ambulance en
    route or on scene has its route ending at the door. *)
Lemma updateHouseFlags_map (ambs : list Ambulance) (houses : list House) :
  updateHouseFlags ambs houses = map (fun h => setEmergency h (calledTo ambs h)) houses.
Proof.
  unfold updateHouseFlags. rewrite fold_markHouses, map_map. apply map_ext.
  intros h. reflexivity.
Qed.

Lemma atDoor_doorstep (h : House) :
  isFinite (x (doorstep (body h))) = true ->
  isFinite (y (doorstep (body h))) = true ->
  atDoor h (doorstep (body h)) = true.
Proof.
  unfold atDoor. intros Hx Hy.
  assert (H : forall v, isFinite v = true -> flt (fabsf (fsub v v)) f5 = true).
  { intros v Hv. destruct v as [s | s | | s m e]; try discriminate.
    - destruct s; reflexivity.
    - unfold fsub, SFsub. rewrite Z.sub_diag. reflexivity. }
  rewrite (H _ Hx), (H _ Hy). reflexivity.
Qed.

(** X18: The house flags are recomputed from nothing in every frame: a house
    is flagged exactly when some ambulance that is en route or on scene has a
    route whose last waypoint lies less than 5 from the door of the house in
    both coordinates; returning and idle ambulances flag nothing, and neither
    the bodies nor the ids of the houses change. A house whose door has finite
    coordinates is flagged as soon as such a route ends exactly at its door.
    *)
Theorem updateHouseFlags_flags (ambs : list Ambulance) (houses : list House) :
  map body (updateHouseFlags ambs houses) = map body houses
  /\ map house_id (updateHouseFlags ambs houses) = map house_id houses
  /\ (forall k h, houses !! k = Some h ->
        exists h', updateHouseFlags ambs houses !! k = Some h'
          /\ (hasEmergency h' = true <->
              exists amb target,
                In amb ambs
                /\ (status amb = TO_SCENE \/ status amb = ON_SCENE)
                /\ last (path amb) = Some target
                /\ atDoor h target = true)
          /\ (forall amb, In amb ambs -> isActive amb = true ->
                last (path amb) = Some (doorstep (body h)) ->
                isFinite (x (doorstep (body h))) = true ->
                isFinite (y (doorstep (body h))) = true ->
                hasEmergency h' = true)).
Proof.
  rewrite updateHouseFlags_map, !map_map. split; [reflexivity |]. split; [reflexivity |].
  intros k h Hk. exists (setEmergency h (calledTo ambs h)).
  split; [rewrite lookup_map, Hk; reflexivity |].
  assert (Hiff : calledTo ambs h = true <->
                 exists amb target,
                   In amb ambs
                   /\ (status amb = TO_SCENE \/ status amb = ON_SCENE)
                   /\ last (path amb) = Some target
                   /\ atDoor h target = true).
  { unfold calledTo. rewrite existsb_exists. split.
    - intros (amb & Hin & H). apply andb_prop in H as [Hact Hd].
      destruct (last (path amb)) as [target |] eqn:Hlast; [| discriminate].
      exists amb, target. split; [exact Hin |]. split; [| auto].
      unfold isActive in Hact. destruct (status amb); try discriminate; auto.
    - intros (amb & target & Hin & Hs & Hlast & Hd). exists amb. split; [exact Hin |].
      rewrite Hlast, Hd, andb_true_r. unfold isActive. destruct Hs as [-> | ->]; reflexivity. }
  split; [exact Hiff |].
  intros amb Hin Hact Hlast Hx Hy. simpl. apply Hiff. exists amb, (doorstep (body h)).
  split; [exact Hin |]. split; [| split; [exact Hlast | apply atDoor_doorstep; assumption]].
  unfold isActive in Hact. destruct (status amb); try discriminate; auto.
Qed.

(** *** The form keeps its shape *)

Lemma Form_new_ok : formOk Form_new.
Proof. constructor; simpl; repeat split; try reflexivity; try lia; discriminate. Qed.

Ltac split_ok H :=
  destruct H as [(Hm1 & Hm2 & Hm3 & Hm4) (Hs1 & Hs2 & Hs3 & Hs4) (Hd1 & Hd2)
                 Hf (Ha1 & Ha2 & Ha3 & Ha4) Hsev Herr].

Lemma size_push_back (tf : TextField) (c : ascii) :
  size (setText tf (push_back (text tf) c)) = size tf + 1.
Proof. unfold size. simpl. rewrite length_push_back. lia. Qed.

Lemma size_pop_back (tf : TextField) :
  size (setText tf (pop_back (text tf))) <= size tf.
Proof. unfold size. simpl. pose proof (length_pop_back (text tf)). lia. Qed.

Lemma typeChar_ok (key : Z) (f : Form) : formOk f -> formOk (typeChar key f).
Proof.
  intros H. unfold typeChar.
  destruct (Z.eqb_spec (activeField f) 0) as [E0 | _]; simpl.
  - destruct (Z.ltb_spec (size (tfName f)) (maxLen (tfName f))) as [Hlt | _]; simpl.
    + split_ok H. constructor; simpl; auto.
      rewrite size_push_back. repeat split; auto; lia.
    + destruct (Z.eqb_spec (activeField f) 1); [lia |]. simpl.
      destruct (Z.eqb_spec (activeField f) 2); [lia |]. simpl.
      destruct (Z.eqb_spec (activeField f) 3); [lia |]. simpl. exact H.
  - destruct (Z.eqb_spec (activeField f) 1) as [E1 | _]; simpl.
    + destruct (Z.ltb_spec (size (tfAge f)) (maxLen (tfAge f))) as [Hlt | _]; simpl.
      * destruct (isDigit (toChar key)) eqn:Hc; [| exact H].
        split_ok H. constructor; simpl; auto.
        -- rewrite size_push_back. repeat split; auto; lia.
        -- rewrite allDigits_push_back, Hd1, Hc. auto.
      * destruct (Z.eqb_spec (activeField f) 2); [lia |]. simpl.
        destruct (Z.eqb_spec (activeField f) 3); [lia |]. simpl. exact H.
    + destruct (Z.eqb_spec (activeField f) 2) as [E2 | _]; simpl.
      * destruct (Z.ltb_spec (size (tfDesc f)) (maxLen (tfDesc f))) as [Hlt | _]; simpl.
        -- split_ok H. constructor; simpl; auto.
           rewrite size_push_back. repeat split; auto; lia.
        -- destruct (Z.eqb_spec (activeField f) 3); [lia |]. simpl. exact H.
      * destruct (Z.eqb_spec (activeField f) 3) as [E3 | _]; simpl; [| exact H].
        destruct (Z.ltb_spec (size (tfHouse f)) (maxLen (tfHouse f))) as [Hlt | _]; simpl;
          [| exact H].
        destruct (isDigit (toChar key)) eqn:Hc; [| exact H].
        split_ok H. constructor; simpl; auto.
        -- rewrite size_push_back. repeat split; auto; lia.
        -- rewrite allDigits_push_back, Hd2, Hc. auto.
Qed.

Lemma typeChars_ok (keys : list Z) :
  forall f, formOk f -> formOk (typeChars keys f).
Proof.
  induction keys as [| key keys IH]; intros f H; simpl; [exact H |].
  destruct (0 <? key); [apply IH, typeChar_ok, H | exact H].
Qed.

Lemma backspace_ok (f : Form) : formOk f -> formOk (backspace f).
Proof.
  intros H. unfold backspace.
  assert (H1 : formOk (if (activeField f =? 0) && negb (isEmpty (tfName f))
                       then withName f (setText (tfName f) (pop_back (text (tfName f))))
                       else f)).
  { destruct (_ && _); [| exact H]. split_ok H. constructor; simpl; auto.
    pose proof (size_pop_back (tfName f)). repeat split; auto; lia. }
  revert H1. generalize (if (activeField f =? 0) && negb (isEmpty (tfName f))
                         then withName f (setText (tfName f) (pop_back (text (tfName f))))
                         else f).
  clear f H. intros f H. cbv zeta.
  assert (H1 : formOk (if (activeField f =? 1) && negb (isEmpty (tfAge f))
                       then withAge f (setText (tfAge f) (pop_back (text (tfAge f))))
                       else f)).
  { destruct (_ && _); [| exact H]. split_ok H. constructor; simpl; auto.
    - pose proof (size_pop_back (tfAge f)). repeat split; auto; lia.
    - split; [apply allDigits_pop_back, Hd1 | exact Hd2]. }
  revert H1. generalize (if (activeField f =? 1) && negb (isEmpty (tfAge f))
                         then withAge f (setText (tfAge f) (pop_back (text (tfAge f))))
                         else f).
  clear f H. intros f H.
  assert (H1 : formOk (if (activeField f =? 2) && negb (isEmpty (tfDesc f))
                       then withDesc f (setText (tfDesc f) (pop_back (text (tfDesc f))))
                       else f)).
  { destruct (_ && _); [| exact H]. split_ok H. constructor; simpl; auto.
    pose proof (size_pop_back (tfDesc f)). repeat split; auto; lia. }
  revert H1. generalize (if (activeField f =? 2) && negb (isEmpty (tfDesc f))
                         then withDesc f (setText (tfDesc f) (pop_back (text (tfDesc f))))
                         else f).
  clear f H. intros f H.
  destruct (_ && _); [| exact H]. split_ok H. constructor; simpl; auto.
  - pose proof (size_pop_back (tfHouse f)). repeat split; auto; lia.
  - split; [exact Hd1 | apply allDigits_pop_back, Hd2].
Qed.

Lemma focus_ok (i : Z) (f : Form) : -1 <= i <= 3 -> formOk f -> formOk (focus i f).
Proof. intros Hi H. split_ok H. constructor; simpl; auto. Qed.

Lemma pressTab_ok (f : Form) : formOk f -> formOk (pressTab f).
Proof.
  intros H. apply focus_ok; [| exact H]. destruct H as [_ _ _ Hf _ _ _].
  pose proof (Z.rem_bound_pos (activeField f + 1) 4). lia.
Qed.

Lemma clickFocus_ok (c : Click) (f : Form) : formOk f -> formOk (clickFocus c f).
Proof.
  intros H. unfold clickFocus.
  destruct (onName c), (onAge c), (onDesc c), (onHouse c); apply focus_ok; auto; lia.
Qed.

Lemma clearErrors_ok (f : Form) : formOk f -> formOk (clearErrors f).
Proof. intros H. split_ok H. constructor; simpl; auto; discriminate. Qed.

Lemma clearTexts_ok (f : Form) : formOk f -> formOk (clearTexts f).
Proof.
  intros H. split_ok H. constructor; simpl; auto.
  unfold size. simpl. lia.
Qed.

Lemma cycleSeverity_ok (f : Form) : formOk f -> formOk (cycleSeverity f).
Proof.
  intros H. split_ok H. constructor; simpl; auto.
  change (Z.of_nat (length severities)) with 3.
  pose proof (Z.rem_bound_pos (severityIdx f + 1) 3). lia.
Qed.

Lemma isEmpty_false (tf : TextField) : isEmpty tf = false -> text tf <> EmptyString.
Proof. unfold isEmpty. destruct (text tf); [discriminate | discriminate]. Qed.

Section FormChecks.

Context {PQ : PriorityQueue} {SI : StringToInt}.

(** A field of digits that the form accepts always converts. *)
Lemma stoi_field (tf : TextField) (n : Z) :
  allDigits (text tf) = true -> size tf <= n -> n <= 9 -> isEmpty tf = false ->
  stoi (text tf) = Some (decimalValue (text tf))
  /\ 0 <= decimalValue (text tf) < 10 ^ n.
Proof.
  intros Hd Hs Hn He. unfold size in Hs. split.
  - apply stoi_decimal; [apply isEmpty_false, He | exact Hd | lia].
  - pose proof (decimalValue_bounds _ Hd) as Hb.
    assert (10 ^ Z.of_nat (String.length (text tf)) <= 10 ^ n)
      by (apply Z.pow_le_mono_r; lia). lia.
Qed.

Lemma validate_ok (f : Form) (hs : list House) :
  formOk f -> formOk (fst (fst (fst (validate f hs)))).
Proof.
  intros H. unfold validate.
  assert (H1 : formOk (fst (if isEmpty (tfName f)
                            then (withName f (setError (tfName f) "Name required"), false)
                            else (f, true)))).
  { destruct (isEmpty (tfName f)); [| exact H]. split_ok H. constructor; simpl; auto. }
  destruct (if isEmpty (tfName f) then _ else _) as [f1 valid1]. simpl in H1.
  clear H. rename H1 into H.
  assert (H1 : formOk (fst (if isEmpty (tfAge f1)
                            then (withAge f1 (setError (tfAge f1) "Age required"), false)
                            else (f1, valid1)))).
  { destruct (isEmpty (tfAge f1)); [| exact H]. split_ok H. constructor; simpl; auto. }
  destruct (if isEmpty (tfAge f1) then _ else _) as [f2 valid2]. simpl in H1.
  clear H. rename H1 into H.
  destruct (isEmpty (tfHouse f2)) eqn:He.
  - destruct (findHouse 0 hs (-1)); simpl; [exact H |].
    split_ok H. constructor; simpl; auto; discriminate.
  - pose proof H as H0. split_ok H.
    destruct (stoi_field (tfHouse f2) 6 Hd2 Hs4 ltac:(lia) He) as [-> _].
    destruct (findHouse 0 hs _); simpl; [exact H0 |].
    constructor; simpl; auto; discriminate.
Qed.

End FormChecks.

(** *** Emergencies on their way *)

Lemma moveAmbulance_carries (dt : float) (a : Ambulance) (e : Emergency) :
  carries a e -> carries (moveAmbulance dt a) e.
Proof.
  destruct (moveAmbulance_fields dt a) as (_ & _ & Ei & En & Eh & Ep & _).
  unfold carries. rewrite Ei, En, Eh, Ep. auto.
Qed.

Lemma updateAmbulance_active (fuel : nat) (g : Grid) (frameTime duration : float)
    (a a' : Ambulance) (cnt cnt' : Z) :
  updateAmbulance fuel g frameTime duration a cnt = Some (a', cnt') ->
  isActive a' = true ->
  isActive a = true /\ forall e, carries a e -> carries a' e.
Proof.
  unfold updateAmbulance, isActive. destruct (status a) eqn:Hs.
  - intros [= <- <-]. rewrite Hs. discriminate.
  - intros Hu _. split; [reflexivity |]. revert Hu.
    destruct (currentPathIndex a >=? pathSize a); [intros [= <- <-]; auto |].
    destruct (last (path a)) as [targ |]; [| intros [= <- <-]; auto].
    destruct (flt (distance targ (pos a)) f4); intros [= <- <-]; auto.
  - simpl. destruct (fle (fsub (onSceneTimer a) frameTime) f0).
    + destruct (findPathOnRoads _ _ _ _); [| discriminate].
      intros [= <- <-]. simpl. discriminate.
    + intros [= <- <-]. auto.
  - destruct (flt (distance (parkingPos a) (pos a)) f4 || (currentPathIndex a >=? pathSize a));
      intros [= <- <-]; simpl; rewrite ?Hs; discriminate.
Qed.

Section Holding.

Context {PQ : PriorityQueue}.

Variable P : Emergency -> Prop.

Lemma Hospital_new_holdsOnly loc parkingPositions startAmbId onSceneDuration :
  holdsOnly P (Hospital_new loc parkingPositions startAmbId onSceneDuration).
Proof.
  split; simpl.
  - rewrite pq_elements_new. constructor.
  - destruct (parkAmbulances_fixed parkingPositions startAmbId) as (_ & _ & Hall).
    eapply Forall_impl; [exact Hall |]. simpl. intros a [_ Hs] Hact.
    unfold isActive in Hact. rewrite Hs in Hact. discriminate.
Qed.

Lemma receiveEmergency_holdsOnly now incoming (h h' : Hospital) :
  (forall e, patient e = patient incoming -> location e = location incoming ->
             priority e = priority incoming -> P e) ->
  holdsOnly P h -> receiveEmergency now incoming h = Some h' -> holdsOnly P h'.
Proof.
  intros HP [Hq Ha]. unfold receiveEmergency.
  destruct (nextEmergencyId h <? INT_MAX); [| discriminate].
  intros [= <-]. split; simpl; [| exact Ha].
  rewrite pq_push_spec. constructor; [apply HP; reflexivity | exact Hq].
Qed.

Lemma moveAmbulances_holdsOnly dt (h : Hospital) :
  holdsOnly P h -> holdsOnly P (moveAmbulances dt h).
Proof.
  intros [Hq Ha]. split; simpl; [exact Hq |].
  apply Forall_forall. intros a Hin.
  apply list_elem_of_In, in_map_iff in Hin as (a0 & <- & Hin).
  rewrite Forall_forall in Ha. apply list_elem_of_In in Hin.
  intros Hact. destruct (moveAmbulance_fields dt a0) as (Es & _).
  unfold isActive in Hact. rewrite Es in Hact.
  destruct (Ha _ Hin Hact) as (e & He & Hc).
  exists e. split; [exact He | apply moveAmbulance_carries, Hc].
Qed.

Lemma dispatchVehicles_holdsOnly (fuel : nat) (g : Grid) (h h' : Hospital) :
  holdsOnly P h -> dispatchVehicles fuel g h = Some h' -> holdsOnly P h'.
Proof.
  intros [Hq Ha] Hd. apply dispatchVehicles_inv in Hd as (backlog & Hpass & Hq' & _).
  destruct (peekAllPending_sorted h) as [Hpeek _].
  assert (Hems : Forall P (peekAllPending h)) by (rewrite Hpeek; exact Hq).
  split.
  - rewrite Hq'. apply dispatchPass_backlog in Hpass as (kept & -> & Hsub). simpl.
    eapply sublist_Forall; eassumption.
  - apply Forall_lookup. intros i a' Hi'.
    pose proof (dispatchPass_length _ _ _ _ _ _ _ Hpass) as Hlen.
    destruct (ambulances h !! i) as [a |] eqn:Hi.
    + destruct (dispatchPass_lookup_route _ _ _ _ _ _ _ _ _ Hpass Hi)
        as [H | (_ & route & em & Hem & Hroute & H)];
        rewrite Hi' in H; injection H as ->.
      * rewrite Forall_lookup in Ha. exact (Ha _ _ Hi).
      * intros _. exists em. split.
        -- rewrite Forall_forall in Hems. apply Hems, list_elem_of_In, Hem.
        -- unfold carries. simpl.
           rewrite (proj2 (findPathOnRoads_length _ _ _ _ _ Hroute)). auto.
    + apply lookup_ge_None in Hi. apply lookup_lt_Some in Hi'. lia.
Qed.

Lemma updateAfterMovement_holdsOnly (fuel : nat) (g : Grid) (frameTime : float)
    (h h' : Hospital) :
  holdsOnly P h -> updateAfterMovement fuel g frameTime h = Some h' -> holdsOnly P h'.
Proof.
  intros [Hq Ha]. unfold updateAfterMovement.
  destruct (updateLoop _ _ _ _ _ _) as [[ambs cnt] |] eqn:Hl; [| discriminate].
  intros [= <-]. split; simpl; [exact Hq |].
  apply Forall_lookup. intros i a' Hi'.
  pose proof (updateLoop_length _ _ _ _ _ _ _ _ Hl) as Hlen.
  destruct (ambulances h !! i) as [a |] eqn:Hi.
  - destruct (updateLoop_lookup _ _ _ _ _ _ _ _ _ _ Hl Hi) as (c & a1 & c' & Hu & H).
    rewrite Hi' in H. injection H as <-. intros Hact.
    destruct (updateAmbulance_active _ _ _ _ _ _ _ _ Hu Hact) as [Hact0 Hc].
    rewrite Forall_lookup in Ha. destruct (Ha _ _ Hi Hact0) as (e & He & Hce).
    exists e. auto.
  - apply lookup_ge_None in Hi. apply lookup_lt_Some in Hi'. lia.
Qed.

Lemma tick_holdsOnly (fuel : nat) (g : Grid) (dt : float) (h h' : Hospital) :
  holdsOnly P h -> tick fuel g dt h = Some h' -> holdsOnly P h'.
Proof.
  unfold tick. intros H.
  destruct (dispatchVehicles fuel g (moveAmbulances dt h)) as [h1 |] eqn:Hd; [| discriminate].
  intros Hu. eapply updateAfterMovement_holdsOnly; [| exact Hu].
  eapply dispatchVehicles_holdsOnly; [| exact Hd].
  apply moveAmbulances_holdsOnly, H.
Qed.

End Holding.

(** *** The submit button *)

Lemma findHouse_Some (hs : list House) (num : Z) :
  forall i0 i,
    findHouse i0 hs num = Some i ->
    (i0 <= i)%nat
    /\ exists h, hs !! (i - i0)%nat = Some h
         /\ house_id h = num
         /\ forall j h', (j < i - i0)%nat -> hs !! j = Some h' -> house_id h' <> num.
Proof.
  induction hs as [| h hs IH]; intros i0 i; simpl; [discriminate |].
  destruct (Z.eqb_spec (house_id h) num) as [E | Hne].
  - intros [= <-]. split; [lia |]. rewrite Nat.sub_diag. exists h.
    split; [reflexivity |]. split; [exact E |]. intros j h' Hj. lia.
  - intros H. apply IH in H as (Hle & h1 & Hi & Hid & Hfirst).
    split; [lia |]. exists h1.
    replace (i - i0)%nat with (S (i - S i0)) by lia.
    split; [exact Hi |]. split; [exact Hid |].
    intros [| j] h' Hj; simpl.
    + intros [= <-]. exact Hne.
    + apply Hfirst. lia.
Qed.

Lemma findHouse_None (hs : list House) (num : Z) :
  forall i0, findHouse i0 hs num = None -> Forall (fun h => house_id h <> num) hs.
Proof.
  induction hs as [| h hs IH]; intros i0; simpl; [constructor |].
  destruct (Z.eqb_spec (house_id h) num) as [E | Hne]; [discriminate |].
  intros H. constructor; [exact Hne | eapply IH; exact H].
Qed.

Lemma findHouse_ids (hs hs' : list House) (num : Z) :
  map house_id hs = map house_id hs' ->
  forall i0, findHouse i0 hs num = findHouse i0 hs' num.
Proof.
  revert hs'. induction hs as [| h hs IH]; intros [| h' hs'] E i0; try discriminate;
    simpl in *; [reflexivity |].
  injection E as -> E. rewrite (IH _ E). reflexivity.
Qed.

Lemma pushLog_length (entry : EmergencyLog) (log : list EmergencyLog) (n : Z) :
  0 <= n -> Z.of_nat (length log) = Z.min 8 n ->
  Z.of_nat (length (pushLog entry log)) = Z.min 8 (n + 1).
Proof.
  intros Hn Hlen. unfold pushLog.
  destruct (Nat.ltb_spec 8 (length (entry :: log))) as [Hlt | Hge].
  - rewrite removelast_firstn_len, length_take. simpl in *. lia.
  - simpl in *. lia.
Qed.

Section SubmitButton.

Context {PQ : PriorityQueue} {SI : StringToInt}.

(** The two outcomes of the submit button. *)
Lemma submit_cases (now gameTime : Q) (app app' : App) :
  submit now gameTime app = Some app' ->
  (exists n i h sev,
      isEmpty (tfName (form app)) = false
      /\ isEmpty (tfAge (form app)) = false
      /\ enteredHouse (form app) = Some n
      /\ findHouse 0 (houses app) n = Some i
      /\ houses app !! i = Some h
      /\ severityAt (severityIdx (form app)) = Some sev
      /\ receiveEmergency now (formEmergency (form app) sev n h) (hospital app)
         = Some (hospital app')
      /\ app' = {| houses := houses app;
                   hospital := hospital app';
                   form := clearTexts (form app);
                   activityLog := pushLog (formLog (form app) sev gameTime)
                                          (activityLog app);
                   totalEmergencies := totalEmergencies app + 1 |})
  \/ ((isEmpty (tfName (form app)) = true
       \/ isEmpty (tfAge (form app)) = true
       \/ enteredHouse (form app) = None
       \/ exists n, enteredHouse (form app) = Some n
                    /\ findHouse 0 (houses app) n = None)
      /\ app' = withForm app (fst (fst (fst (validate (form app) (houses app)))))).
Proof.
  unfold submit, validate, enteredHouse.
  destruct (isEmpty (tfName (form app))) eqn:En;
    cbn [tfName tfAge tfDesc tfHouse withName withAge withHouse];
    destruct (isEmpty (tfAge (form app))) eqn:Ea;
    cbn [tfName tfAge tfDesc tfHouse withName withAge withHouse];
    (destruct (isEmpty (tfHouse (form app))) eqn:Eh;
     cbn [tfName tfAge tfDesc tfHouse withName withAge withHouse];
     [ destruct (findHouse 0 (houses app) (-1)) as [i |] eqn:Ef
     | destruct (stoi (text (tfHouse (form app)))) as [n |] eqn:Est;
       [ destruct (findHouse 0 (houses app) n) as [i |] eqn:Ef
       | destruct (findHouse 0 (houses app) (-1)) as [i |] eqn:Ef ] ]);
    cbn [fst snd];
    try (intros [= <-]; right; split; [| reflexivity]; eauto 8; fail).
  - (* empty house field, a house numbered -1 *)
    destruct (findHouse_Some _ _ _ _ Ef) as (_ & h & Hi & _). rewrite Nat.sub_0_r in Hi.
    rewrite Hi. destruct (severityAt (severityIdx (form app))) as [sev |]; [| discriminate].
    destruct (receiveEmergency _ _ _) as [hosp |] eqn:Hrecv; [| discriminate].
    destruct (totalEmergencies app <? INT_MAX); [| discriminate].
    intros [= <-]. left. exists (-1), i, h, sev. simpl. auto 10.
  - destruct (findHouse_Some _ _ _ _ Ef) as (_ & h & Hi & _). rewrite Nat.sub_0_r in Hi.
    rewrite Hi. destruct (severityAt (severityIdx (form app))) as [sev |]; [| discriminate].
    destruct (receiveEmergency _ _ _) as [hosp |] eqn:Hrecv; [| discriminate].
    destruct (totalEmergencies app <? INT_MAX); [| discriminate].
    intros [= <-]. left. exists n, i, h, sev. simpl. auto 10.
Qed.

End SubmitButton.

(** *** The main loop *)

Lemma severityAt_In (i : Z) (sev : string) : severityAt i = Some sev -> In sev severities.
Proof.
  unfold severityAt. destruct (i <? 0); [discriminate |].
  intros H. apply list_elem_of_In. eapply list_elem_of_lookup_2; exact H.
Qed.

Lemma severityAt_defined (i : Z) : 0 <= i <= 2 -> exists sev, severityAt i = Some sev.
Proof.
  intros Hi. assert (H : i = 0 \/ i = 1 \/ i = 2) by lia.
  destruct H as [-> | [-> | ->]]; eexists; reflexivity.
Qed.

Section MainLoop.

Context {PQ : PriorityQueue} {SI : StringToInt}.

Lemma held_count (h : Hospital) :
  reachable h ->
  handledCount h + Z.of_nat (pq_size (queue_ h))
  + Z.of_nat (length (List.filter isActive (ambulances h)))
  = nextEmergencyId h - 1.
Proof.
  intros Hr. pose proof (reachable_ok h Hr) as [Ha _ _ Hc _ _].
  rewrite pq_size_spec.
  unfold held in Hc. rewrite length_app, length_map, (assignedIds_active _ Ha) in Hc. lia.
Qed.

Lemma tick_next (fuel : nat) (g : Grid) (dt : float) (h h' : Hospital) :
  tick fuel g dt h = Some h' -> nextEmergencyId h' = nextEmergencyId h.
Proof.
  unfold tick.
  destruct (dispatchVehicles fuel g (moveAmbulances dt h)) as [h1 |] eqn:Hd; [| discriminate].
  apply dispatchVehicles_inv in Hd as (_ & _ & _ & Hn & _).
  unfold updateAfterMovement.
  destruct (updateLoop _ _ _ _ _ _) as [[ambs cnt] |]; [| discriminate].
  intros [= <-]. simpl. exact Hn.
Qed.

Lemma App_new_ok (hs : list House) : appOk hs (App_new hs).
Proof.
  constructor; simpl; try reflexivity.
  - apply Form_new_ok.
  - apply reach_new.
  - apply Hospital_new_holdsOnly.
Qed.

Lemma formEmergency_filed (hs : list House) (app : App) (n : Z) (i : nat) (h : House)
    (sev : string) (e : Emergency) :
  map body (houses app) = map body hs ->
  map house_id (houses app) = map house_id hs ->
  isEmpty (tfName (form app)) = false ->
  findHouse 0 (houses app) n = Some i ->
  houses app !! i = Some h ->
  severityAt (severityIdx (form app)) = Some sev ->
  patient e = patient (formEmergency (form app) sev n h) ->
  location e = location (formEmergency (form app) sev n h) ->
  priority e = priority (formEmergency (form app) sev n h) ->
  filed hs e.
Proof.
  intros Hb Hids Hname Hfound Hi Hsev Hp Hl Hpr. unfold filed.
  rewrite Hp, Hl, Hpr. simpl.
  split; [apply isEmpty_false, Hname |].
  split; [eapply severityAt_In; exact Hsev |]. split; [reflexivity |].
  rewrite (findHouse_ids _ _ n Hids) in Hfound.
  assert (Hbody : map body hs !! i = Some (body h))
    by (rewrite <- Hb, lookup_map, Hi; reflexivity).
  rewrite lookup_map in Hbody.
  destruct (hs !! i) as [h0 |] eqn:Hi0; [| discriminate].
  injection Hbody as Hbody. exists i, h0. rewrite Hbody. auto.
Qed.

Lemma submit_ok (hs : list House) (now gameTime : Q) (app app' : App) :
  appOk hs app -> submit now gameTime app = Some app' -> appOk hs app'.
Proof.
  intros [Hform Hreach Htotal Hlog Hbodies Hids Hfiled] Hsub.
  apply submit_cases in Hsub
    as [(n & i & h & sev & Hname & Hage & Hent & Hfound & Hi & Hsev & Hrecv & ->)
       | (_ & ->)].
  - pose proof (reachable_ok _ Hreach) as [_ _ _ _ _ Hnext].
    destruct (receiveEmergency_held _ _ _ _ Hrecv) as (_ & _ & Hn & _).
    constructor; simpl; try assumption.
    + apply clearTexts_ok, Hform.
    + eapply reach_step; [exact Hreach | eapply step_receive; exact Hrecv].
    + lia.
    + apply pushLog_length; [lia | exact Hlog].
    + eapply receiveEmergency_holdsOnly; [| exact Hfiled | exact Hrecv].
      intros e Hp Hl Hpr. eapply formEmergency_filed; eassumption.
  - constructor; simpl; try assumption. apply validate_ok, Hform.
Qed.

Lemma withForm_ok (hs : list House) (app : App) (f : Form) :
  appOk hs app -> formOk f -> appOk hs (withForm app f).
Proof. intros [? ? ? ? ? ? ?] Hf. constructor; simpl; assumption. Qed.

Lemma handleClick_ok (hs : list House) (c : Click) (now gameTime : Q) (app app' : App) :
  appOk hs app -> handleClick c now gameTime app = Some app' -> appOk hs app'.
Proof.
  intros Hok. unfold handleClick.
  set (f2 := if onSeverity c then _ else _).
  assert (Hf2 : formOk f2).
  { unfold f2. pose proof (clickFocus_ok c _ (clearErrors_ok _ (app_form _ _ Hok))) as H.
    destruct (onSeverity c); [apply cycleSeverity_ok, H | exact H]. }
  pose proof (withForm_ok hs app f2 Hok Hf2) as Hok2.
  destruct (if onSubmit c then _ else _) as [app1 |] eqn:Hs; [| discriminate].
  assert (Hok1 : appOk hs app1).
  { destruct (onSubmit c); [eapply submit_ok; eassumption |].
    injection Hs as <-. exact Hok2. }
  intros [= <-]. destruct (onClear c); [| exact Hok1].
  apply withForm_ok; [exact Hok1 |].
  apply clearErrors_ok, clearTexts_ok, (app_form _ _ Hok1).
Qed.

Lemma mainLoopBody_ok (hs : list House) (fuel : nat) (inp : Input) (app app' : App) :
  appOk hs app -> mainLoopBody fuel inp app = Some app' -> appOk hs app'.
Proof.
  intros [Hform Hreach Htotal Hlog Hbodies Hids Hfiled]. unfold mainLoopBody.
  destruct (tick fuel cityGrid (frameDt inp) (hospital app)) as [hosp |] eqn:Ht;
    [| discriminate].
  set (app1 := {| houses := _; hospital := hosp; form := form app;
                  activityLog := activityLog app;
                  totalEmergencies := totalEmergencies app |}).
  assert (Hok1 : appOk hs app1).
  { constructor; simpl; try assumption.
    - eapply reachable_tick; eassumption.
    - rewrite (tick_next _ _ _ _ _ Ht). exact Htotal.
    - rewrite updateHouseFlags_map, map_map. exact Hbodies.
    - rewrite updateHouseFlags_map, map_map. exact Hids.
    - eapply tick_holdsOnly; eassumption. }
  destruct (match clicked inp with Some c => _ | None => _ end) as [app2 |] eqn:Hc;
    [| discriminate].
  assert (Hok2 : appOk hs app2).
  { destruct (clicked inp) as [c |]; [eapply handleClick_ok; eassumption |].
    injection Hc as <-. exact Hok1. }
  intros [= <-]. apply withForm_ok; [exact Hok2 |].
  pose proof (typeChars_ok (chars inp) _ (app_form _ _ Hok2)) as H3.
  assert (H4 : formOk (if backspacePressed inp
                       then backspace (typeChars (chars inp) (form app2))
                       else typeChars (chars inp) (form app2)))
    by (destruct (backspacePressed inp); [apply backspace_ok, H3 | exact H3]).
  destruct (tabPressed inp); [apply pressTab_ok, H4 | exact H4].
Qed.

Lemma running_ok (hs : list House) (app : App) : running hs app -> appOk hs app.
Proof.
  induction 1 as [| fuel inp app app' _ IH Hbody]; [apply App_new_ok |].
  eapply mainLoopBody_ok; eassumption.
Qed.

(** X19: The submit button files an emergency exactly when the name and the
    age are not empty and the house field holds the number of a house. The
    emergency is then located at the door of the first house with that number
    and has the priority of the selected severity; the hospital receives it,
    the total grows by one, an entry is logged and the four texts are cleared.
    Otherwise the hospital, the total, the log and the texts are left as they
    are and only error messages are set. *)
Theorem submit_outcome (now gameTime : Q) (app app' : App) :
  submit now gameTime app = Some app' ->
  houses app' = houses app
  /\ ((exists n i h sev,
         isEmpty (tfName (form app)) = false
         /\ isEmpty (tfAge (form app)) = false
         /\ enteredHouse (form app) = Some n
         /\ houses app !! i = Some h /\ house_id h = n
         /\ (forall j h', (j < i)%nat -> houses app !! j = Some h' -> house_id h' <> n)
         /\ severityAt (severityIdx (form app)) = Some sev
         /\ receiveEmergency now (formEmergency (form app) sev n h) (hospital app)
            = Some (hospital app')
         /\ location (formEmergency (form app) sev n h) = doorstep (body h)
         /\ priority (formEmergency (form app) sev n h) = 3 - severityIdx (form app)
         /\ totalEmergencies app' = totalEmergencies app + 1
         /\ activityLog app'
            = pushLog (formLog (form app) sev gameTime) (activityLog app)
         /\ form app' = clearTexts (form app))
      \/ ((isEmpty (tfName (form app)) = true
           \/ isEmpty (tfAge (form app)) = true
           \/ enteredHouse (form app) = None
           \/ exists n, enteredHouse (form app) = Some n
                        /\ Forall (fun h => house_id h <> n) (houses app))
          /\ hospital app' = hospital app
          /\ totalEmergencies app' = totalEmergencies app
          /\ activityLog app' = activityLog app
          /\ text (tfName (form app')) = text (tfName (form app))
          /\ text (tfAge (form app')) = text (tfAge (form app))
          /\ text (tfDesc (form app')) = text (tfDesc (form app))
          /\ text (tfHouse (form app')) = text (tfHouse (form app)))).
Proof.
  intros Hsub. apply submit_cases in Hsub
    as [(n & i & h & sev & Hname & Hage & Hent & Hfound & Hi & Hsev & Hrecv & ->)
       | (Hwhy & ->)].
  - split; [reflexivity |]. left. exists n, i, h, sev.
    destruct (findHouse_Some _ _ _ _ Hfound) as (_ & h1 & Hi1 & Hid & Hfirst).
    rewrite Nat.sub_0_r in Hi1, Hfirst. rewrite Hi in Hi1. injection Hi1 as <-.
    repeat (split; [assumption || reflexivity |]).
    split; [| auto].
    simpl. unfold severityAt in Hsev.
    destruct (Z.ltb_spec (severityIdx (form app)) 0) as [| Hge]; [discriminate |].
    destruct (Z.to_nat (severityIdx (form app))) as [| [| [| k]]] eqn:Ek;
      simpl in Hsev; try discriminate; injection Hsev as <-;
      match goal with
      | |- ?p = _ => let v := eval vm_compute in p in change p with v
      end; lia.
  - split; [reflexivity |]. right. split.
    + destruct Hwhy as [H | [H | [H | (n & Hn & Hnone)]]]; auto.
      right. right. right. exists n. split; [exact Hn |].
      eapply findHouse_None; exact Hnone.
    + simpl. unfold validate.
      destruct (isEmpty (tfName (form app)));
        cbn [tfName tfAge tfDesc tfHouse withName withAge withHouse];
        destruct (isEmpty (tfAge (form app)));
        cbn [tfName tfAge tfDesc tfHouse withName withAge withHouse];
        (destruct (isEmpty (tfHouse (form app)));
         cbn [tfName tfAge tfDesc tfHouse withName withAge withHouse];
         [ destruct (findHouse 0 (houses app) (-1))
         | destruct (stoi (text (tfHouse (form app)))) as [n |];
           [ destruct (findHouse 0 (houses app) n)
           | destruct (findHouse 0 (houses app) (-1)) ] ]);
        simpl; auto 8.
Qed.

(** X20: The form stays well formed throughout the main loop: the four texts
    never exceed 32, 4, 200 and 6 characters, the age and the house number
    consist of digits only, at most one field is active and it is the one that
    [activeField] designates, and the severity index stays within the vector
    of severities. As a result the conversions of the age and of the house
    number never fail, and the message "Invalid number" is never shown. *)
Theorem form_stays_well_formed (hs : list House) (app : App) :
  running hs app ->
  formOk (form app)
  /\ (isEmpty (tfAge (form app)) = false ->
      exists n, stoi (text (tfAge (form app))) = Some n /\ 0 <= n < 10000)
  /\ (isEmpty (tfHouse (form app)) = false ->
      exists n, stoi (text (tfHouse (form app))) = Some n /\ 0 <= n < 1000000)
  /\ (exists sev, severityAt (severityIdx (form app)) = Some sev)
  /\ errorMsg (tfHouse (fst (fst (fst (validate (form app) (houses app))))))
     <> "Invalid number"%string.
Proof.
  intros Hrun. pose proof (app_form _ _ (running_ok _ _ Hrun)) as Hok.
  split; [exact Hok |]. pose proof Hok as Hok'. split_ok Hok'.
  split; [| split; [| split]].
  - intros He. destruct (stoi_field (tfAge (form app)) 4 Hd1 Hs2 ltac:(lia) He) as [E Hb].
    eexists. split; [exact E |]. change (10 ^ 4) with 10000 in Hb. exact Hb.
  - intros He. destruct (stoi_field (tfHouse (form app)) 6 Hd2 Hs4 ltac:(lia) He) as [E Hb].
    eexists. split; [exact E |]. change (10 ^ 6) with 1000000 in Hb. exact Hb.
  - apply severityAt_defined, Hsev.
  - apply (validate_ok _ (houses app) Hok).
Qed.

(** X21: The dashboard adds up throughout the main loop: the total that [main]
    counts is the number of emergencies handled, plus those pending, plus the
    number of ambulances en route or on scene; the activity log holds one
    entry per emergency filed, up to eight. *)
Theorem dashboard_adds_up (hs : list House) (app : App) :
  running hs app ->
  totalEmergencies app
  = handled (hospital app) + pendingCount (hospital app)
    + Z.of_nat (length (List.filter isActive (ambulances (hospital app))))
  /\ totalEmergencies app = nextEmergencyId (hospital app) - 1
  /\ Z.of_nat (length (activityLog app)) = Z.min 8 (totalEmergencies app).
Proof.
  intros Hrun. destruct (running_ok _ _ Hrun) as [_ Hreach Htotal Hlog _ _ _].
  split; [| split; assumption].
  rewrite Htotal. symmetry. apply held_count, Hreach.
Qed.

(** X22: Throughout the main loop an ambulance en route or on scene is out for
    a house that exists: [assignedHouseId] is the number of a house, the route
    of the ambulance ends at the door of the first house with that number, and
    the next pass over the house flags marks that house, provided the
    coordinates of its door are finite. The houses keep their bodies and
    numbers. *)
Theorem calling_house_is_flagged (hs : list House) (app : App) (k : nat) (a : Ambulance) :
  running hs app ->
  ambulances (hospital app) !! k = Some a ->
  isActive a = true ->
  map body (houses app) = map body hs
  /\ map house_id (houses app) = map house_id hs
  /\ exists i h,
       houses app !! i = Some h
       /\ house_id h = assignedHouseId a
       /\ (forall j h', (j < i)%nat -> houses app !! j = Some h' ->
                        house_id h' <> assignedHouseId a)
       /\ last (path a) = Some (doorstep (body h))
       /\ (isFinite (x (doorstep (body h))) = true ->
           isFinite (y (doorstep (body h))) = true ->
           exists h', updateHouseFlags (ambulances (hospital app)) (houses app) !! i
                      = Some h'
                      /\ hasEmergency h' = true).
Proof.
  intros Hrun Hk Hact.
  destruct (running_ok _ _ Hrun) as [_ _ _ _ Hbodies Hids [_ Hfiled]].
  split; [exact Hbodies |]. split; [exact Hids |].
  rewrite Forall_lookup in Hfiled.
  destruct (Hfiled _ _ Hk Hact) as (e & (_ & _ & _ & i & h0 & Hfound & Hi0 & Hloc) & Hc).
  destruct Hc as (_ & _ & Hhouse & Hlast).
  rewrite <- (findHouse_ids _ _ _ Hids) in Hfound.
  destruct (findHouse_Some _ _ _ _ Hfound) as (_ & h & Hi & Hid & Hfirst).
  rewrite Nat.sub_0_r in Hi, Hfirst.
  assert (Hbody : body h = body h0).
  { assert (E : map body (houses app) !! i = Some (body h))
      by (rewrite lookup_map, Hi; reflexivity).
    rewrite Hbodies, lookup_map, Hi0 in E. injection E as E. symmetry. exact E. }
  exists i, h. rewrite Hhouse. split; [exact Hi |]. split; [exact Hid |].
  split; [exact Hfirst |]. rewrite Hbody.
  split; [rewrite Hlast, Hloc; reflexivity |].
  intros Hx Hy. rewrite updateHouseFlags_map, lookup_map, Hi. simpl.
  eexists. split; [reflexivity |]. simpl.
  unfold calledTo. apply existsb_exists. exists a.
  split; [apply list_elem_of_In; eapply list_elem_of_lookup_2; exact Hk |].
  rewrite Hact, Hlast, Hloc. simpl.
  rewrite <- Hbody in *. apply atDoor_doorstep; assumption.
Qed.

(** X23: Throughout the main loop the status panel shows a patient for an
    ambulance exactly while the ambulance is en route or on scene. *)
Theorem patient_shown_iff_active (hs : list House) (app : App) (k : nat) (a : Ambulance) :
  running hs app ->
  ambulances (hospital app) !! k = Some a ->
  showsPatient a = isActive a.
Proof.
  intros Hrun Hk.
  destruct (running_ok _ _ Hrun) as [_ Hreach _ _ _ _ [_ Hfiled]].
  pose proof (reachable_ok _ Hreach) as [Hambs _ _ _ _ _].
  rewrite Forall_lookup in Hambs, Hfiled.
  destruct (Hambs _ _ Hk) as (_ & Hid & _). specialize (Hfiled _ _ Hk).
  unfold showsPatient, isActive in *.
  destruct (status a); cbv beta iota in Hid.
  - apply andb_false_r.
  - destruct (Hfiled eq_refl) as (e & (Hname & _) & (_ & Hn & _)).
    rewrite Hn. destruct (String.eqb_spec (name (patient e)) ""); [contradiction | reflexivity].
  - destruct (Hfiled eq_refl) as (e & (Hname & _) & (_ & Hn & _)).
    rewrite Hn. destruct (String.eqb_spec (name (patient e)) ""); [contradiction | reflexivity].
  - destruct Hid as (_ & -> & _). reflexivity.
Qed.

End MainLoop.

Lemma push_back_nonempty (s : string) (c : ascii) : push_back s c <> s.
Proof.
  intros H. apply (f_equal String.length) in H. rewrite length_push_back in H. lia.
Qed.

Lemma isEmpty_push_back (tf : TextField) (c : ascii) :
  isEmpty (setText tf (push_back (text tf) c)) = false.
Proof. unfold isEmpty. simpl. destruct (text tf); reflexivity. Qed.

(** X24: A character key is typed exactly when a field has the focus, that
    field is not full and, for the age and the house number, the character
    is a digit.  A key that is not typed leaves the form as it was; a key
    that is typed appends its character to the text of the focused field,
    which grows by one, and changes nothing else, and the backspace
    handling that follows restores the form exactly. *)
Theorem backspace_undoes_key (key : Z) (f : Form) :
  (accepts key f = false -> typeChar key f = f)
  /\ (accepts key f = true ->
      exists tf,
        field (activeField f) f = Some tf
        /\ size tf < maxLen tf
        /\ field (activeField f) (typeChar key f)
           = Some (setText tf (push_back (text tf) (toChar key)))
        /\ size (setText tf (push_back (text tf) (toChar key))) = size tf + 1
        /\ (forall i, i <> activeField f -> field i (typeChar key f) = field i f)
        /\ severityIdx (typeChar key f) = severityIdx f
        /\ activeField (typeChar key f) = activeField f
        /\ typeChar key f <> f
        /\ backspace (typeChar key f) = f).
Proof.
  assert (Hsize : forall tf c, size (setText tf (push_back (text tf) c)) = size tf + 1).
  { intros tf c. unfold size. simpl. rewrite length_push_back. lia. }
  assert (Hne : forall s c, match push_back s c with
                            | EmptyString => true
                            | String _ _ => false
                            end = false)
    by (intros [| a s] c; reflexivity).
  destruct f as [[t1 a1 m1 e1] [t2 a2 m2 e2] [t3 a3 m3 e3] [t4 a4 m4 e4] sv af].
  unfold accepts, typeChar, field, digitsOnly.
  cbn [activeField tfName tfAge tfDesc tfHouse].
  destruct (Z.eqb_spec af 0) as [-> | N0]; cbn [andb orb negb].
  { destruct (Z.ltb_spec (size (mkField t1 a1 m1 e1)) (maxLen (mkField t1 a1 m1 e1)))
      as [Hlt | Hge]; cbn [andb].
    - split; [discriminate |]. intros _. eexists. split; [reflexivity |].
      split; [exact Hlt |]. split; [reflexivity |]. split; [apply Hsize |].
      split.
      { intros i Hi. cbn [activeField] in Hi.
        destruct (Z.eqb_spec i 0); [congruence | reflexivity]. }
      split; [reflexivity |]. split; [reflexivity |]. split.
      + intros H. injection H as H. exact (push_back_nonempty _ _ H).
      + unfold backspace, isEmpty, withName, setText. simpl.
        rewrite Hne, pop_back_push_back. reflexivity.
    - split; [reflexivity | discriminate]. }
  destruct (Z.eqb_spec af 1) as [-> | N1]; cbn [andb orb negb].
  { destruct (Z.ltb_spec (size (mkField t2 a2 m2 e2)) (maxLen (mkField t2 a2 m2 e2)))
      as [Hlt | Hge]; cbn [andb]; [| split; [reflexivity | discriminate]].
    destruct (isDigit (toChar key)); [| split; [reflexivity | discriminate]].
    split; [discriminate |]. intros _. eexists. split; [reflexivity |].
    split; [exact Hlt |]. split; [reflexivity |]. split; [apply Hsize |].
    split.
    { intros i Hi. cbn [activeField] in Hi.
      destruct (Z.eqb_spec i 0); [reflexivity |].
      destruct (Z.eqb_spec i 1); [congruence | reflexivity]. }
    split; [reflexivity |]. split; [reflexivity |]. split.
    + intros H. injection H as H. exact (push_back_nonempty _ _ H).
    + unfold backspace, isEmpty, withAge, setText. simpl.
      rewrite Hne, pop_back_push_back. reflexivity. }
  destruct (Z.eqb_spec af 2) as [-> | N2]; cbn [andb orb negb].
  { destruct (Z.ltb_spec (size (mkField t3 a3 m3 e3)) (maxLen (mkField t3 a3 m3 e3)))
      as [Hlt | Hge]; cbn [andb]; [| split; [reflexivity | discriminate]].
    split; [discriminate |]. intros _. eexists. split; [reflexivity |].
    split; [exact Hlt |]. split; [reflexivity |]. split; [apply Hsize |].
    split.
    { intros i Hi. cbn [activeField] in Hi.
      destruct (Z.eqb_spec i 0); [reflexivity |].
      destruct (Z.eqb_spec i 1); [reflexivity |].
      destruct (Z.eqb_spec i 2); [congruence | reflexivity]. }
    split; [reflexivity |]. split; [reflexivity |]. split.
    + intros H. injection H as H. exact (push_back_nonempty _ _ H).
    + unfold backspace, isEmpty, withDesc, setText. simpl.
      rewrite Hne, pop_back_push_back. reflexivity. }
  destruct (Z.eqb_spec af 3) as [-> | N3]; cbn [andb orb negb];
    [| split; [reflexivity | discriminate]].
  destruct (Z.ltb_spec (size (mkField t4 a4 m4 e4)) (maxLen (mkField t4 a4 m4 e4)))
    as [Hlt | Hge]; cbn [andb]; [| split; [reflexivity | discriminate]].
  destruct (isDigit (toChar key)); [| split; [reflexivity | discriminate]].
  split; [discriminate |]. intros _. eexists. split; [reflexivity |].
  split; [exact Hlt |]. split; [reflexivity |]. split; [apply Hsize |].
  split.
  { intros i Hi. cbn [activeField] in Hi.
    destruct (Z.eqb_spec i 0); [reflexivity |].
    destruct (Z.eqb_spec i 1); [reflexivity |].
    destruct (Z.eqb_spec i 2); [reflexivity |].
    destruct (Z.eqb_spec i 3); [congruence | reflexivity]. }
  split; [reflexivity |]. split; [reflexivity |]. split.
  + intros H. injection H as H. exact (push_back_nonempty _ _ H).
  + unfold backspace, isEmpty, withHouse, setText. simpl.
    rewrite Hne, pop_back_push_back. reflexivity.
Qed.

(** Keys at the empty form: a letter for the name, a letter and a digit for
    the age, a letter with no field focused. *)
Example key_typed :
  accepts 65 (focus 0 Form_new) = true
  /\ text (tfName (typeChar 65 (focus 0 Form_new))) = "A"%string
  /\ accepts 65 (focus 1 Form_new) = false
  /\ accepts 55 (focus 1 Form_new) = true
  /\ text (tfAge (typeChar 55 (focus 1 Form_new))) = "7"%string
  /\ accepts 65 Form_new = false.
Proof. repeat (split; [vm_compute; reflexivity |]). vm_compute. reflexivity. Qed.

(** ** The scenarios, run *)

Lemma reachable_orElse (d : Hospital (PQ := ScanQueue)) o :
  reachable d -> (forall h, o = Some h -> reachable h) -> reachable (orElse d o).
Proof. intros Hd Ho. destruct o as [h |]; simpl; auto. Qed.

Lemma reachable_heapOrElse (d : Hospital (PQ := HeapQueue)) o :
  reachable d -> (forall h, o = Some h -> reachable h) -> reachable (heapOrElse d o).
Proof. intros Hd Ho. destruct o as [h |]; simpl; auto. Qed.

Ltac reach :=
  repeat match goal with
  | |- reachable (orElse _ _) => apply reachable_orElse; [| intros ? ?]
  | |- reachable (heapOrElse _ _) => apply reachable_heapOrElse; [| intros ? ?]
  | |- reachable (Hospital_new _ _ _ _) => apply reach_new
  | H : runTicks _ _ _ _ _ = Some ?h |- reachable ?h =>
      eapply reachable_runTicks; [| exact H]
  | H : receiveEmergency _ _ _ = Some ?h |- reachable ?h =>
      eapply reach_step; [| eapply step_receive; exact H]
  | H : dispatchVehicles _ _ _ = Some ?h |- reachable ?h =>
      eapply reach_step; [| eapply step_dispatch; exact H]
  | H : updateAfterMovement _ _ _ _ = Some ?h |- reachable ?h =>
      eapply reach_step; [| eapply step_update; exact H]
  end.

Lemma cityLater_reachable : reachable cityLater.
Proof. unfold cityLater, citySent, cityCalled, cityCalled1, cityHospital. reach. Qed.

Lemma smallReturning_reachable : reachable smallReturning.
Proof.
  unfold smallReturning, smallOnScene, smallSent, smallCalled, smallHospital. reach.
Qed.

Lemma citySent_reachable : reachable citySent.
Proof. unfold citySent, cityCalled, cityCalled1, cityHospital. reach. Qed.



Lemma dispatchVehicles_far_call_diverges :
  reachable smallFarCall
  /\ forall fuel, dispatchVehicles fuel cityGrid smallFarCall = None.
Proof.
  split; [unfold smallFarCall, smallHospital; reach |].
  assert (Hpeek : exists em, peekAllPending smallFarCall = [em]
                             /\ location em = pt 200 2000000000).
  { vm_compute. eexists. split; reflexivity. }
  destruct Hpeek as (em & Hpeek & Hloc).
  assert (Hambs : ambulances smallFarCall = [newAmbulance 1 (pt 374 30)])
    by (vm_compute; reflexivity).
  assert (Hnear : findNearestAvailableAmbulance (pt 200 2000000000)
                    [newAmbulance 1 (pt 374 30)] = Some 0%nat)
    by (vm_compute; reflexivity).
  assert (He : findNearestRoadPoint (pt 200 2000000000) cityGrid = pt 200 2000000000)
    by (vm_compute; reflexivity).
  assert (Hs : findNearestRoadPoint (pt 374 30) cityGrid = pt 300 100)
    by (vm_compute; reflexivity).
  intros fuel.
  assert (Hroute : findPathOnRoads fuel (pt 374 30) (pt 200 2000000000) cityGrid = None).
  { unfold findPathOnRoads. rewrite He, Hs. change (blockSize cityGrid) with (of_int 200).
    rewrite (proj2 (roadLoop_far_cycle fuel _)). reflexivity. }
  assert (Hone : dispatchOne fuel cityGrid em ([newAmbulance 1 (pt 374 30)], []) = None).
  { unfold dispatchOne. rewrite Hloc, Hnear.
    change ([newAmbulance 1 (pt 374 30)] !! 0%nat) with (Some (newAmbulance 1 (pt 374 30))).
    cbv beta iota.
    change (pos (newAmbulance 1 (pt 374 30))) with (pt 374 30).
    rewrite Hroute. reflexivity. }
  pose proof (dispatchVehicles_pass fuel cityGrid smallFarCall) as H.
  rewrite Hpeek, Hambs in H. cbn [dispatchPass] in H. rewrite Hone in H. exact H.
Qed.

(** C2 fails on the code.  The hospital has one ambulance, idle; a
    priority-1 call from (3e19, 0) is pending ahead of a priority-3 call from
    (300, 320).  In binary32 the squared distance of the ambulance to the
    first call is beyond [FLT_MAX], so the computed distance is +infinity,
    the test [d < bestd] against [bestd = FLT_MAX] fails and
    [findNearestAvailableAmbulance] finds nobody: the priority-1 call is
    queued again although an ambulance is idle, and the ambulance is given to
    the priority-3 call. *)
Theorem dispatchVehicles_skips_far_call :
  reachable smallFarFirst
  /\ map (fun e => (em_id e, priority e)) (peekAllPending smallFarFirst) = [(1, 1); (2, 3)]
  /\ map status (ambulances smallFarFirst) = [IDLE]
  /\ map available (ambulances smallFarFirst) = [true]
  /\ map (distTo (pt 30000000000000000000 0)) (ambulances smallFarFirst)
     = [S754_infinity false]
  /\ flt (S754_infinity false) FLT_MAX = false
  /\ findNearestAvailableAmbulance (pt 30000000000000000000 0) (ambulances smallFarFirst)
     = None
  /\ dispatchVehicles 20 cityGrid smallFarFirst = Some smallFarFirstSent
  /\ map (fun a => (status a, assignedEmergencyId a)) (ambulances smallFarFirstSent)
     = [(TO_SCENE, 2)]
  /\ map (fun e => (em_id e, priority e)) (peekAllPending smallFarFirstSent) = [(1, 1)].
Proof.
  split; [unfold smallFarFirst, smallHospital; reach |].
  repeat (split; [vm_compute; reflexivity |]). vm_compute. reflexivity.
Qed.


(** The round trip, run: the ambulance is back at its parking place, idle,
    with one emergency handled and none pending. *)
Example round_trip :
  map status (ambulances smallTripStart) = [TO_SCENE]
  /\ runTicks 700 20 cityGrid frame smallTripStart = Some smallTripEnd
  /\ map status (ambulances smallTripEnd) = [IDLE]
  /\ map pos (ambulances smallTripEnd) = [pt 374 30]
  /\ handledCount smallTripEnd = 1
  /\ peekAllPending smallTripEnd = [].
Proof. repeat (split; [vm_compute; reflexivity |]). vm_compute. reflexivity. Qed.

(** The backlog scenario, run. *)
Example backlog_scenario :
  map em_id (peekAllPending smallBacklog) = [1; 3; 2]
  /\ dispatchVehicles 20 cityGrid smallBacklog = Some smallBacklogSent
  /\ map assignedEmergencyId (ambulances smallBacklogSent) = [1]
  /\ map em_id (peekAllPending smallBacklogSent) = [3; 2].
Proof. repeat (split; [vm_compute; reflexivity |]). vm_compute. reflexivity. Qed.


Lemma dispatchVehicles_nearest_first_witness :
  dispatchVehicles 20 cityGrid cityCalled = Some citySent
  /\ StronglySorted rankLe (peekAllPending cityCalled)
  /\ exists em post a route,
       peekAllPending cityCalled = em :: post
       /\ em_id em = 2
       /\ nearestAvailable (location em) (ambulances cityCalled) 3
       /\ ambulances cityCalled !! 3%nat = Some a
       /\ amb_id a = 4
       /\ ambulances citySent !! 3%nat = Some (sendToScene a route em).
Proof.
  assert (H : dispatchVehicles 20 cityGrid cityCalled = Some citySent)
    by (vm_compute; reflexivity).
  split; [exact H |].
  pose proof (dispatchVehicles_nearest_first 20 cityGrid cityCalled citySent H)
    as (Hs & _ & Hturn).
  split; [exact Hs |].
  destruct (peekAllPending cityCalled) as [| em post] eqn:Hpeek;
    [vm_compute in Hpeek; discriminate |].
  assert (He : em_id em = 2 /\ location em = pt 500 520).
  { pose proof Hpeek as Hp. vm_compute in Hp. injection Hp as <- _.
    split; reflexivity. }
  destruct He as [Hid Hloc].
  destruct (Hturn [] em post eq_refl) as (ambs & backlog & Hpre & Hcase).
  assert (Hambs : ambulances cityCalled = ambs).
  { change (Some (ambulances cityCalled, @nil Emergency) = Some (ambs, backlog)) in Hpre.
    congruence. }
  subst ambs.
  assert (Hsel : findNearestAvailableAmbulance (location em) (ambulances cityCalled)
                 = Some 3%nat) by (rewrite Hloc; vm_compute; reflexivity).
  rewrite Hsel in Hcase.
  destruct Hcase as (Hnear & a & route & Hk & _ & _ & _ & Hsent).
  assert (Ha : amb_id a = 4).
  { vm_compute in Hk. injection Hk as <-. reflexivity. }
  exists em, post, a, route.
  repeat (split; [assumption || reflexivity |]).
  exact Hsent.
Defined.

Lemma emergency_in_one_place_witness :
  reachable citySent
  /\ held citySent = [1; 2]
  /\ NoDup (held citySent)
  /\ Z.of_nat (length (held citySent)) + handledCount citySent
     = nextEmergencyId citySent - 1
  /\ exists a b,
       ambulances citySent !! 0%nat = Some a
       /\ ambulances citySent !! 3%nat = Some b
       /\ assignedEmergencyId a = 1
       /\ assignedEmergencyId b = 2
       /\ assignedEmergencyId a <> assignedEmergencyId b.
Proof.
  split; [exact citySent_reachable |].
  split; [vm_compute; reflexivity |].
  pose proof (emergency_in_one_place citySent citySent_reachable)
    as (_ & _ & Hinj & Hn & _ & Hc & _).
  split; [exact Hn |]. split; [exact Hc |].
  destruct (ambulances citySent !! 0%nat) as [a |] eqn:Ea;
    [| vm_compute in Ea; discriminate].
  destruct (ambulances citySent !! 3%nat) as [b |] eqn:Eb;
    [| vm_compute in Eb; discriminate].
  assert (Ha : assignedEmergencyId a = 1).
  { vm_compute in Ea. injection Ea as <-. reflexivity. }
  assert (Hb : assignedEmergencyId b = 2).
  { vm_compute in Eb. injection Eb as <-. reflexivity. }
  exists a, b. repeat (split; [assumption || reflexivity |]).
  intros Heq. assert (Hne : assignedEmergencyId a <> -1) by (rewrite Ha; discriminate).
  pose proof (Hinj 0%nat 3%nat a b Ea Eb Hne Heq) as C. discriminate.
Defined.

Lemma assignment_iff_en_route_or_on_scene_witness :
  reachable smallReturning
  /\ exists a,
       ambulances smallReturning !! 0%nat = Some a
       /\ status a = RETURNING
       /\ assignedEmergencyId a = -1.
Proof.
  split; [exact smallReturning_reachable |].
  destruct (ambulances smallReturning !! 0%nat) as [a |] eqn:E;
    [| vm_compute in E; discriminate].
  assert (Hs : status a = RETURNING).
  { vm_compute in E. injection E as <-. reflexivity. }
  exists a. split; [reflexivity |]. split; [exact Hs |].
  pose proof (assignment_iff_en_route_or_on_scene smallReturning 0 a
                smallReturning_reachable E) as (_ & _ & Hnone & _).
  apply Hnone. right. exact Hs.
Defined.

(** C4 as stated fails: after the ambulance has left the scene it is
    RETURNING, so not IDLE, and carries no assignment any more. *)
Lemma assignment_iff_not_idle_fails :
  reachable smallReturning
  /\ exists a,
       ambulances smallReturning !! 0%nat = Some a
       /\ status a = RETURNING
       /\ assignedEmergencyId a = -1
       /\ assignedPatientName a = ""%string
       /\ assignedHouseId a = -1
       /\ ~ (assignedEmergencyId a <> -1 <-> status a <> IDLE).
Proof.
  split; [exact smallReturning_reachable |].
  vm_compute. eexists. split; [reflexivity |].
  repeat (split; [reflexivity |]).
  intros [_ H]. apply H; [discriminate | reflexivity].
Qed.

Lemma to_scene_arrival_witness :
  updateAfterMovement 20 cityGrid frame smallSent = Some smallOnScene
  /\ exists a a',
       ambulances smallSent !! 0%nat = Some a
       /\ status a = TO_SCENE
       /\ ambulances smallOnScene !! 0%nat = Some a'
       /\ status a' = ON_SCENE
       /\ onSceneTimer a' = f4.
Proof.
  assert (H : updateAfterMovement 20 cityGrid frame smallSent = Some smallOnScene)
    by (vm_compute; reflexivity).
  split; [exact H |].
  destruct (ambulances smallSent !! 0%nat) as [a |] eqn:E;
    [| vm_compute in E; discriminate].
  assert (Hs : status a = TO_SCENE).
  { vm_compute in E. injection E as <-. reflexivity. }
  destruct (to_scene_arrival 20 cityGrid frame smallSent smallOnScene 0 a H E Hs)
    as (a' & E' & Hiff & Htimer & _).
  assert (Hs' : status a' = ON_SCENE).
  { vm_compute in E'. injection E' as <-. reflexivity. }
  exists a, a'. repeat (split; [assumption || reflexivity |]).
  rewrite (Htimer Hs'). reflexivity.
Defined.

Lemma receiveEmergency_stamps_witness :
  nextEmergencyId smallHospital < INT_MAX
  /\ exists h',
       receiveEmergency 1 (call "Cy" 2 1 (pt 374 30)) smallHospital = Some h'
       /\ nextEmergencyId h' = 2.
Proof.
  assert (H : nextEmergencyId smallHospital < INT_MAX) by (vm_compute; reflexivity).
  split; [exact H |].
  destruct (receiveEmergency_stamps 1 (call "Cy" 2 1 (pt 374 30)) smallHospital H)
    as ((h' & Hr & _ & Hn & _) & _).
  exists h'. split; [exact Hr |]. rewrite Hn. reflexivity.
Defined.

Lemma inSnapRangeb_true (g : Grid) (target : Vector2) :
  inSnapRangeb g target = true -> inSnapRange g target.
Proof.
  unfold inSnapRangeb, inSnapRange. rewrite existsb_exists. auto.
Qed.

Lemma forallb_Forall {A} (p : A -> bool) (P : A -> Prop) (l : list A) :
  (forall a, p a = true -> P a) -> forallb p l = true -> Forall P l.
Proof.
  intros Hp. induction l as [| a l IH]; simpl; [constructor |].
  intros H. apply andb_prop in H as [Ha Hl]. constructor; auto.
Qed.

Lemma running_runFrames {PQ : PriorityQueue} {SI : StringToInt} (hs : list House)
    (fuel : nat) (inps : list Input) :
  forall app app',
    running hs app -> runFrames fuel inps app = Some app' -> running hs app'.
Proof.
  induction inps as [| inp inps IH]; intros app app' Hr; simpl.
  - intros [= <-]. exact Hr.
  - destruct (mainLoopBody fuel inp app) as [app1 |] eqn:Hb; [| discriminate].
    apply IH. eapply running_frame; eassumption.
Qed.

Lemma running_appOrElse (hs : list House) d o :
  running (SI := DecimalStoi) hs d ->
  (forall app, o = Some app -> running (SI := DecimalStoi) hs app) ->
  running (SI := DecimalStoi) hs (appOrElse d o).
Proof. intros Hd Ho. destruct o as [app |]; simpl; auto. Qed.

Lemma formDispatched_running : running (SI := DecimalStoi) twoHouses formDispatched.
Proof.
  unfold formDispatched, formSubmitted, formFilled.
  repeat match goal with
  | |- running _ (appOrElse _ _) => apply running_appOrElse; [| intros ? ?]
  | |- running _ (App_new _) => apply running_new
  | H : runFrames _ _ _ = Some ?a |- running _ ?a =>
      eapply running_runFrames; [| exact H]
  end.
Qed.

Example form_scenario :
  text (tfName (form formFilled)) = "Al"%string
  /\ text (tfAge (form formFilled)) = "40"%string
  /\ text (tfHouse (form formFilled)) = "2"%string
  /\ totalEmergencies formSubmitted = 1
  /\ map (fun e => (em_id e, priority e, houseNumber (patient e)))
         (peekAllPending (hospital formSubmitted)) = [(1, 3, 2)]
  /\ map status (ambulances (hospital formDispatched))
     = [TO_SCENE; IDLE; IDLE; IDLE]
  /\ map hasEmergency
         (updateHouseFlags (ambulances (hospital formDispatched)) (houses formDispatched))
     = [false; true].
Proof. repeat (split; [vm_compute; reflexivity |]). vm_compute. reflexivity. Qed.

Lemma smallTripEnd_reachable : reachable smallTripEnd.
Proof. unfold smallTripEnd, smallTripStart, smallHospital. reach. Qed.

Lemma citySent_steps : steps cityHospital citySent.
Proof.
  assert (H1 : receiveEmergency 1 (call "Ann" 4 2 (pt 300 320)) cityHospital
               = Some cityCalled1) by (vm_compute; reflexivity).
  assert (H2 : receiveEmergency 2 (call "Bob" 7 1 (pt 500 520)) cityCalled1
               = Some cityCalled) by (vm_compute; reflexivity).
  assert (H3 : dispatchVehicles 20 cityGrid cityCalled = Some citySent)
    by (vm_compute; reflexivity).
  eapply steps_step; [| eapply step_dispatch; exact H3].
  eapply steps_step; [| eapply step_receive; exact H2].
  eapply steps_step; [apply steps_refl | eapply step_receive; exact H1].
Qed.

Lemma findPathOnRoads_row_then_column_witness :
  exists route xs ys,
    findPathOnRoads 20 (pt 374 30) (pt 500 520) cityGrid = Some route
    /\ route = findNearestRoadPoint (pt 374 30) cityGrid :: xs ++ ys ++ [pt 500 520]
    /\ linked (xMove (of_int 200)) (pt 300 100) xs.
Proof.
  destruct (findPathOnRoads 20 (pt 374 30) (pt 500 520) cityGrid) as [route |] eqn:E;
    [| vm_compute in E; discriminate].
  destruct (findPathOnRoads_row_then_column 20 _ _ _ route E)
    as (xs & ys & Hr & Hx & _).
  exists route, xs, ys. split; [reflexivity |]. split; [exact Hr | exact Hx].
Defined.

Lemma findPathOnRoads_returns_in_city_witness :
  inSnapRange cityGrid (pt 374 30)
  /\ inSnapRange cityGrid (pt 500 520)
  /\ exists route, findPathOnRoads 6 (pt 374 30) (pt 500 520) cityGrid = Some route
                   /\ (length route <= 8)%nat
                   /\ Forall (onLattice cityGrid) (removelast route).
Proof.
  assert (H1 : inSnapRange cityGrid (pt 374 30))
    by (apply inSnapRangeb_true; vm_compute; reflexivity).
  assert (H2 : inSnapRange cityGrid (pt 500 520))
    by (apply inSnapRangeb_true; vm_compute; reflexivity).
  split; [exact H1 |]. split; [exact H2 |].
  apply (findPathOnRoads_returns_in_city 6 _ _ (le_n 6) H1 H2).
Defined.

Lemma dispatchVehicles_returns_in_city_witness :
  Forall (fun a => inSnapRange cityGrid (pos a)) (ambulances cityCalled)
  /\ Forall (fun e => inSnapRange cityGrid (location e)) (peekAllPending cityCalled)
  /\ exists h', dispatchVehicles 6 cityGrid cityCalled = Some h'
                /\ length (ambulances h') = 4%nat.
Proof.
  assert (H1 : Forall (fun a => inSnapRange cityGrid (pos a)) (ambulances cityCalled)).
  { apply (forallb_Forall (fun a => inSnapRangeb cityGrid (pos a)));
      [intros a; apply inSnapRangeb_true | vm_compute; reflexivity]. }
  assert (H2 : Forall (fun e => inSnapRange cityGrid (location e))
                      (peekAllPending cityCalled)).
  { apply (forallb_Forall (fun e => inSnapRangeb cityGrid (location e)));
      [intros e; apply inSnapRangeb_true | vm_compute; reflexivity]. }
  split; [exact H1 |]. split; [exact H2 |].
  destruct (dispatchVehicles_returns_in_city 6 cityCalled (le_n 6) H1 H2) as (h' & Hd & Hl).
  exists h'. split; [exact Hd |]. rewrite Hl. vm_compute. reflexivity.
Defined.

Lemma dispatchVehicles_spares_busy_witness :
  dispatchVehicles 20 cityGrid cityCalled = Some citySent
  /\ exists a a',
       ambulances cityCalled !! 0%nat = Some a
       /\ ambulances citySent !! 0%nat = Some a'
       /\ pos a' = pos a.
Proof.
  assert (H : dispatchVehicles 20 cityGrid cityCalled = Some citySent)
    by (vm_compute; reflexivity).
  split; [exact H |].
  destruct (ambulances cityCalled !! 0%nat) as [a |] eqn:E;
    [| vm_compute in E; discriminate].
  destruct (dispatchVehicles_spares_busy 20 cityGrid cityCalled citySent 0 a H E)
    as (a' & E' & Hpos & _).
  exists a, a'. split; [reflexivity |]. split; [exact E' | exact Hpos].
Defined.

Lemma status_advances_in_order_witness :
  step cityCalled citySent
  /\ length (ambulances citySent) = length (ambulances cityCalled).
Proof.
  assert (H : step cityCalled citySent).
  { eapply step_dispatch with (fuel := 20%nat) (g := cityGrid). vm_compute. reflexivity. }
  split; [exact H |]. exact (proj1 (status_advances_in_order cityCalled citySent H)).
Defined.

Lemma configuration_is_fixed_witness :
  steps cityHospital citySent
  /\ map parkingPos (ambulances citySent) = [pt 374 30; pt 409 30; pt 479 30; pt 514 30]
  /\ map amb_id (ambulances citySent) = [1; 2; 3; 4].
Proof.
  split; [exact citySent_steps |].
  destruct (configuration_is_fixed (pt 444 0) [pt 374 30; pt 409 30; pt 479 30; pt 514 30]
              1 f4 citySent citySent_steps) as (_ & _ & Hp & Hi & _).
  split; [exact Hp | exact Hi].
Defined.

Lemma cursor_within_route_witness :
  reachable cityLater
  /\ exists a t,
       ambulances cityLater !! 3%nat = Some a
       /\ status a = RETURNING
       /\ currentPathIndex a = 2
       /\ pathSize a = 4
       /\ 0 <= currentPathIndex a <= pathSize a
       /\ (2 <= length (path a))%nat
       /\ waypoint (path a) (currentPathIndex a) = Some t.
Proof.
  split; [exact cityLater_reachable |].
  destruct (ambulances cityLater !! 3%nat) as [a |] eqn:E;
    [| vm_compute in E; discriminate].
  assert (Hs : status a = RETURNING).
  { vm_compute in E. injection E as <-. reflexivity. }
  assert (Hc : currentPathIndex a = 2).
  { vm_compute in E. injection E as <-. reflexivity. }
  assert (Hp : pathSize a = 4).
  { vm_compute in E. injection E as <-. reflexivity. }
  destruct (cursor_within_route cityLater 3 a cityLater_reachable E)
    as (Hrange & _ & Hroute & Hway).
  assert (Hne : status a <> IDLE) by (rewrite Hs; discriminate).
  destruct (Hway ltac:(rewrite Hc, Hp; reflexivity)) as [t Ht].
  exists a, t. split; [reflexivity |]. split; [exact Hs |]. split; [exact Hc |].
  split; [exact Hp |]. split; [exact Hrange |].
  split; [exact (proj1 (Hroute Hne)) | exact Ht].
Defined.

Lemma idle_ambulance_stays_parked_witness :
  reachable smallTripEnd
  /\ exists a, ambulances smallTripEnd !! 0%nat = Some a
               /\ status a = IDLE /\ pos a = parkingPos a.
Proof.
  split; [exact smallTripEnd_reachable |].
  destruct (ambulances smallTripEnd !! 0%nat) as [a |] eqn:E;
    [| vm_compute in E; discriminate].
  assert (Hs : status a = IDLE).
  { vm_compute in E. injection E as <-. reflexivity. }
  exists a. split; [reflexivity |]. split; [exact Hs |].
  exact (proj1 (idle_ambulance_stays_parked smallTripEnd 0 a smallTripEnd_reachable E Hs)).
Defined.

Lemma on_scene_release_witness :
  updateAfterMovement 20 cityGrid f4 smallOnScene = Some smallReturning
  /\ handledCount smallReturning = handledCount smallOnScene + 1
  /\ exists a a',
       ambulances smallOnScene !! 0%nat = Some a
       /\ status a = ON_SCENE
       /\ ambulances smallReturning !! 0%nat = Some a'
       /\ onSceneTimer a' = fsub (onSceneTimer a) f4.
Proof.
  assert (H : updateAfterMovement 20 cityGrid f4 smallOnScene = Some smallReturning)
    by (vm_compute; reflexivity).
  split; [exact H |].
  destruct (ambulances smallOnScene !! 0%nat) as [a |] eqn:E;
    [| vm_compute in E; discriminate].
  assert (Hs : status a = ON_SCENE).
  { vm_compute in E. injection E as <-. reflexivity. }
  destruct (on_scene_release 20 cityGrid f4 smallOnScene smallReturning 0 a H E Hs)
    as (Hc & a' & E' & Ht & _).
  split; [rewrite Hc; vm_compute; reflexivity |].
  exists a, a'. split; [reflexivity |]. split; [exact Hs |]. split; [exact E' | exact Ht].
Defined.

Lemma returning_arrival_witness :
  exists h' a a',
    updateAfterMovement 20 cityGrid frame smallReturning = Some h'
    /\ ambulances smallReturning !! 0%nat = Some a
    /\ status a = RETURNING
    /\ ambulances h' !! 0%nat = Some a'
    /\ (status a' = IDLE -> pos a' = parkingPos a).
Proof.
  destruct (updateAfterMovement 20 cityGrid frame smallReturning) as [h' |] eqn:H;
    [| vm_compute in H; discriminate].
  destruct (ambulances smallReturning !! 0%nat) as [a |] eqn:E;
    [| vm_compute in E; discriminate].
  assert (Hs : status a = RETURNING).
  { vm_compute in E. injection E as <-. reflexivity. }
  destruct (returning_arrival 20 cityGrid frame smallReturning h' 0 a H E Hs)
    as (a' & E' & _ & Hidle & _).
  exists h', a, a'. split; [reflexivity |]. split; [reflexivity |]. split; [exact Hs |].
  split; [exact E' |]. intros Hi. exact (proj1 (Hidle Hi)).
Defined.

Lemma counters_add_up_witness :
  reachable cityLater
  /\ handled cityLater + pendingCount cityLater
     + Z.of_nat (length (List.filter isActive (ambulances cityLater)))
     = nextEmergencyId cityLater - 1.
Proof.
  split; [exact cityLater_reachable |].
  exact (proj1 (counters_add_up cityLater cityLater_reachable)).
Defined.

Lemma submit_outcome_witness :
  exists app',
    submit (SI := DecimalStoi) 1 1 formFilled = Some app'
    /\ houses app' = houses formFilled.
Proof.
  destruct (submit (SI := DecimalStoi) 1 1 formFilled) as [app' |] eqn:H;
    [| vm_compute in H; discriminate].
  exists app'. split; [reflexivity |].
  exact (proj1 (submit_outcome (SI := DecimalStoi) 1 1 formFilled app' H)).
Defined.

Lemma form_stays_well_formed_witness :
  running (SI := DecimalStoi) twoHouses formDispatched
  /\ formOk (form formDispatched).
Proof.
  split; [exact formDispatched_running |].
  exact (proj1 (form_stays_well_formed (SI := DecimalStoi) twoHouses formDispatched
                  formDispatched_running)).
Defined.

Lemma dashboard_adds_up_witness :
  running (SI := DecimalStoi) twoHouses formDispatched
  /\ totalEmergencies formDispatched = nextEmergencyId (hospital formDispatched) - 1.
Proof.
  split; [exact formDispatched_running |].
  exact (proj1 (proj2 (dashboard_adds_up (SI := DecimalStoi) twoHouses formDispatched
                         formDispatched_running))).
Defined.

Lemma calling_house_is_flagged_witness :
  running (SI := DecimalStoi) twoHouses formDispatched
  /\ exists a,
       ambulances (hospital formDispatched) !! 0%nat = Some a
       /\ isActive a = true
       /\ map house_id (houses formDispatched) = map house_id twoHouses.
Proof.
  split; [exact formDispatched_running |].
  destruct (ambulances (hospital formDispatched) !! 0%nat) as [a |] eqn:E;
    [| vm_compute in E; discriminate].
  assert (Ha : isActive a = true).
  { vm_compute in E. injection E as <-. reflexivity. }
  exists a. split; [reflexivity |]. split; [exact Ha |].
  exact (proj1 (proj2 (calling_house_is_flagged (SI := DecimalStoi) twoHouses
                         formDispatched 0 a formDispatched_running E Ha))).
Defined.

Lemma patient_shown_iff_active_witness :
  running (SI := DecimalStoi) twoHouses formDispatched
  /\ exists a,
       ambulances (hospital formDispatched) !! 0%nat = Some a
       /\ showsPatient a = isActive a.
Proof.
  split; [exact formDispatched_running |].
  destruct (ambulances (hospital formDispatched) !! 0%nat) as [a |] eqn:E;
    [| vm_compute in E; discriminate].
  exists a. split; [reflexivity |].
  exact (patient_shown_iff_active (SI := DecimalStoi) twoHouses formDispatched 0 a
           formDispatched_running E).
Defined.


Lemma on_scene_is_at_the_scene_witness :
  reachable smallOnScene
  /\ exists a, ambulances smallOnScene !! 0%nat = Some a
               /\ status a = ON_SCENE
               /\ currentPathIndex a = pathSize a.
Proof.
  assert (Hr : reachable smallOnScene).
  { unfold smallOnScene, smallSent, smallCalled, smallHospital. reach. }
  split; [exact Hr |].
  destruct (ambulances smallOnScene !! 0%nat) as [a |] eqn:E;
    [| vm_compute in E; discriminate].
  assert (Hs : status a = ON_SCENE).
  { vm_compute in E. injection E as <-. reflexivity. }
  exists a. split; [reflexivity |]. split; [exact Hs |].
  exact (proj1 (on_scene_is_at_the_scene smallOnScene 0 a Hr E Hs)).
Defined.

Lemma counters_never_decrease_witness :
  reachable cityHospital
  /\ steps cityHospital citySent
  /\ handledCount cityHospital <= handledCount citySent
  /\ nextEmergencyId cityHospital <= nextEmergencyId citySent.
Proof.
  assert (Hr : reachable cityHospital) by apply reach_new.
  split; [exact Hr |]. split; [exact citySent_steps |].
  destruct (counters_never_decrease cityHospital citySent Hr citySent_steps)
    as (Hc & Hn & _).
  split; [exact Hc | exact Hn].
Defined.

Lemma backspace_undoes_key_witness :
  accepts 65 (focus 0 Form_new) = true
  /\ text (tfName (typeChar 65 (focus 0 Form_new))) = "A"%string
  /\ backspace (typeChar 65 (focus 0 Form_new)) = focus 0 Form_new.
Proof.
  assert (H : accepts 65 (focus 0 Form_new) = true) by (vm_compute; reflexivity).
  split; [exact H |]. split; [vm_compute; reflexivity |].
  destruct (proj2 (backspace_undoes_key 65 (focus 0 Form_new)) H)
    as (tf & _ & _ & _ & _ & _ & _ & _ & _ & Hback).
  exact Hback.
Defined.
